(** * Verification of the PDF / Adobe Illustrator content sniffer

    A shallow embedding of [lib/index.ts] and [lib/PdfTokenizerReader.ts]
    of the [@file-type/pdf] detector, and the properties its specification
    states about it.

    Conventions of the embedding:
    - a byte is a [Byte.byte]; a [Uint8Array] or [Buffer] is a [list byte];
    - a JavaScript string is the list of its UTF-16 code units ([list N]);
      a [latin1] decoded buffer has one code unit per byte;
    - a JavaScript index result that may be [-1] is a [Z];
    - an [async] function that may throw returns a [Result];
    - a JavaScript object used as a dictionary is a [gmap] keyed by the
      property name;
    - [console.log] tracing is left out: the [debug] flag is carried where
      the source keeps it and nothing reads it. *)

From Stdlib Require Import Strings.String Strings.Ascii Strings.Byte.
From stdpp Require Import base option numbers list gmap.

Local Open Scope list_scope.

(** ** Bytes and JavaScript strings *)

Abbreviation byte := Byte.byte.

#[global] Instance byte_eq_dec : EqDecision byte := Byte.byte_eq_dec.

Abbreviation jsstring := (list N).

(** [buffer.toString("latin1")]: every byte becomes the code unit of the
    same value. *)
Definition latin1 (bs : list byte) : jsstring := map Byte.to_N bs.

(** The bytes of an ASCII literal, as [TextEncoder.encode] yields them. *)
Definition bytes_of (s : string) : list byte := list_byte_of_string s.

(** A string literal of the source. *)
Definition str (s : string) : jsstring := latin1 (bytes_of s).

Definition LF : byte := Byte.x0a.
Definition CR : byte := Byte.x0d.

(** *** Character classes of ECMAScript regular expressions *)

(** [\s], which is also the set [String.prototype.trim] removes:
    WhiteSpace and LineTerminator code points. *)
Definition isWhiteSpace (c : N) : bool :=
  ((9 <=? c) && (c <=? 13) || (c =? 32) || (c =? 160) || (c =? 5760)
   || (8192 <=? c) && (c <=? 8202) || (c =? 8232) || (c =? 8233)
   || (c =? 8239) || (c =? 8287) || (c =? 12288) || (c =? 65279))%N.

(** [\d] *)
Definition isDigit (c : N) : bool := ((48 <=? c) && (c <=? 57))%N.

(** [\w] (no [u] and no [i] flag: ASCII letters, digits and underscore) *)
Definition isWordChar (c : N) : bool :=
  (isDigit c || (65 <=? c) && (c <=? 90) || (97 <=? c) && (c <=? 122)
   || (c =? 95))%N.

(** [[^/>\n\r]] *)
Definition isValueChar (c : N) : bool :=
  negb ((c =? 47) || (c =? 62) || (c =? 10) || (c =? 13))%N.

(** *** String built-ins used by the source *)

(** The longest prefix whose code units satisfy [p], and the rest: what a
    greedy [c+] or [c*] over a character class consumes. *)
Fixpoint span (p : N -> bool) (s : jsstring) : jsstring * jsstring :=
  match s with
  | [] => ([], [])
  | c :: s' =>
      if p c then let '(a, b) := span p s' in (c :: a, b) else ([], s)
  end.

Fixpoint startsWith (s p : jsstring) {struct p} : bool :=
  match p, s with
  | [], _ => true
  | _ :: _, [] => false
  | c :: p', d :: s' => bool_decide (c = d) && startsWith s' p'
  end.

(** First index, counted from [i], at which [sub] occurs in [s]. *)
Fixpoint find_sub (sub s : jsstring) (i : nat) : option nat :=
  if startsWith s sub then Some i
  else match s with
       | [] => None
       | _ :: s' => find_sub sub s' (S i)
       end.

(** A JavaScript index result: the index, or [-1]. *)
Definition js_index (o : option nat) : Z :=
  match o with Some i => Z.of_nat i | None => (-1)%Z end.

(** [s.indexOf(sub, from)]; [from] is clamped to [0 .. s.length]. *)
Definition indexOf (s sub : jsstring) (from : Z) : Z :=
  let k := Nat.min (Z.to_nat from) (length s) in
  js_index (find_sub sub (drop k s) k).

(** [s.includes(sub)] *)
Definition includes (s sub : jsstring) : bool :=
  bool_decide (indexOf s sub 0 <> (-1)%Z).

(** [s.slice(a, b)] for the non-negative indices the source passes. *)
Definition slice (s : jsstring) (a b : Z) : jsstring :=
  take (Z.to_nat b - Z.to_nat a) (drop (Z.to_nat a) s).

(** [s.slice(a)] *)
Definition slice_from (s : jsstring) (a : Z) : jsstring :=
  drop (Z.to_nat a) s.

Definition trimStart (s : jsstring) : jsstring := snd (span isWhiteSpace s).

(** [s.trim()] *)
Definition trim (s : jsstring) : jsstring :=
  reverse (trimStart (reverse (trimStart s))).

(** [s.toLowerCase()] on the code units below 128, where it is the ASCII
    mapping.  Outside ASCII the built-in changes some code points, but the
    only two whose lower case contains an ASCII letter are U+0130 (to "i"
    followed by U+0307) and U+212A (to "k"); neither can complete the word
    the source searches for, so the search result is the same. *)
Definition toLowerCase (s : jsstring) : jsstring :=
  map (fun c => if ((65 <=? c) && (c <=? 90))%N then (c + 32)%N else c) s.

(** *** Numbers as [parseInt] produces them *)

Inductive Number :=
| NaN
| Finite (v : Z)
| Infinite (negative : bool).

(** The smallest integer magnitude that rounds to [Infinity] as a double. *)
Definition doubleOverflow : Z := (2 ^ 1024 - 2 ^ 970)%Z.

Definition digitsValue (ds : jsstring) : Z :=
  fold_left (fun acc c => 10 * acc + (Z.of_N c - 48))%Z ds 0%Z.

(** [parseInt(s, 10)]: leading white space is skipped, one sign is
    accepted, and the longest run of decimal digits is read; whatever
    follows the digits is ignored.  The [Finite] value is the exact
    integer; the rounding to a double only changes values above 2^53,
    which exceed the length of every buffer. *)
Definition parseInt10 (s : jsstring) : Number :=
  let s := trimStart s in
  let '(negative, s) :=
    match s with
    | 45%N :: r => (true, r)
    | 43%N :: r => (false, r)
    | _ => (false, s)
    end in
  let ds := fst (span isDigit s) in
  match ds with
  | [] => NaN
  | _ =>
      let v := digitsValue ds in
      if (doubleOverflow <=? v)%Z then Infinite negative
      else Finite (if negative then (- v)%Z else v)
  end.

(** ** Failures and the result of a call that may throw *)

Inductive Failure :=
| EndOfStreamError
    (* strtok3: fewer bytes than asked for and [mayBeLess] is not set *)
| UnexpectedEOF
    (* skipBytes: "Unexpected EOF while skipping bytes" *)
| NegativeLength
    (* readBytes: "readBytes(n): n must be >= 0" *)
| DecompressionFailed
    (* the DecompressionStream rejected the data *)
| SaxError (message : jsstring)
    (* an error event of the XML parser, rethrown by the handler *)
| FuelExhausted.
    (* a loop of the embedding ran past the bound computed for it; shown
       not to happen (see [readLine_spec], [detect_fuel_suffices]) *)

Inductive Result (A : Type) :=
| Ok (a : A)
| Err (e : Failure).
Arguments Ok {A} a.
Arguments Err {A} e.

#[global] Instance result_ret : MRet Result := fun A a => Ok a.
#[global] Instance result_bind : MBind Result := fun A B f m =>
  match m with Ok a => f a | Err e => Err e end.

(** ** The byte source

    Modelled from the spec: the byte-source capability of section 6, which
    the repository consumes from the [strtok3] package ([ITokenizer]): a
    peek of up to N bytes that does not advance, a read that advances, both
    tolerating "fewer bytes available" when [mayBeLess] is set and raising
    an end-of-stream error otherwise, and an observable position. *)

Record Tokenizer := mkTokenizer {
  fileData : list byte;
  position : nat
}.

Definition remaining (t : Tokenizer) : list byte :=
  drop (position t) (fileData t).

Definition peekBuffer (t : Tokenizer) (len : nat) (mayBeLess : bool)
  : Result (list byte) :=
  let got := take len (remaining t) in
  if negb mayBeLess && (length got <? len) then Err EndOfStreamError
  else Ok got.

Definition readBuffer (t : Tokenizer) (len : nat) (mayBeLess : bool)
  : Result (list byte * Tokenizer) :=
  got ← peekBuffer t len mayBeLess;
  Ok (got, mkTokenizer (fileData t) (position t + length got)).

(** ** PdfTokenizerReader.ts *)

Definition isEndOfStreamError (e : Failure) : bool :=
  match e with
  | EndOfStreamError => true
  | SaxError message => includes message (str "End-Of-Stream")
  | _ => false
  end.

(** [buffer.indexOf(value, byteOffset)] for a byte value. *)
Fixpoint find_byte (b : byte) (bs : list byte) (i : nat) : option nat :=
  match bs with
  | [] => None
  | c :: bs' => if bool_decide (c = b) then Some i else find_byte b bs' (S i)
  end.

Definition buffer_indexOf (bs : list byte) (b : byte) (byteOffset : nat) : Z :=
  js_index (find_byte b (drop byteOffset bs) byteOffset).

(** [buffer.subarray(a, b)] and [buffer.subarray(a)] *)
Definition subarray (bs : list byte) (a b : nat) : list byte :=
  take (b - a) (drop a bs).

Definition subarray_from (bs : list byte) (a : nat) : list byte := drop a bs.

Module PdfTokenizerReader.

Record t := mk {
  tokenizer : Tokenizer;
  buf : list byte;
  pos : nat;
  chunkSize : nat;
  eof : bool;
  debug : bool
}.

(** [new PdfTokenizerReader(tokenizer, opts)] *)
Definition new (tokenizer : Tokenizer) (chunkSize : option nat)
    (debug : bool) : t :=
  mk tokenizer [] 0 (default (64 * 1024) chunkSize) false debug.

Definition getPosition (r : t) : Z :=
  let bufferedRemaining := (Z.of_nat (length (buf r)) - Z.of_nat (pos r))%Z in
  (Z.of_nat (position (tokenizer r)) - bufferedRemaining)%Z.

(** The number of bytes read by the peek; the bytes themselves stand for
    the filled prefix of [target]. *)
Definition peekMayBeLess (r : t) (len : nat) : Result (list byte) :=
  match peekBuffer (tokenizer r) len true with
  | Ok got => Ok got
  | Err e => if isEndOfStreamError e then Ok [] else Err e
  end.

Definition readMayBeLess (r : t) (len : nat) : Result (list byte * t) :=
  match readBuffer (tokenizer r) len true with
  | Ok (got, tk) =>
      Ok (got, mk tk (buf r) (pos r) (chunkSize r) (eof r) (debug r))
  | Err e => if isEndOfStreamError e then Ok ([], r) else Err e
  end.

Definition compactBuffer (r : t) : t :=
  if (0 <? pos r) then
    mk (tokenizer r) (subarray_from (buf r) (pos r)) 0 (chunkSize r)
       (eof r) (debug r)
  else r.

Definition set_eof (r : t) : t :=
  mk (tokenizer r) (buf r) (pos r) (chunkSize r) true (debug r).

Definition set_pos (r : t) (p : nat) : t :=
  mk (tokenizer r) (buf r) p (chunkSize r) (eof r) (debug r).

Definition append (r : t) (chunk : list byte) : t :=
  mk (tokenizer r) (buf r ++ chunk) (pos r) (chunkSize r) (eof r) (debug r).

(** Bytes buffered and not yet consumed: [this.buf.length - this.pos]. *)
Definition avail (r : t) : nat := length (buf r) - pos r.

(** The [while] loop of [fill]; every turn either ends the loop or
    buffers at least one more byte, so [minBytes] turns are enough. *)
Fixpoint fill_loop (fuel : nat) (minBytes : nat) (r : t) : Result t :=
  if eof r || (minBytes <=? avail r) then Ok r
  else
    match fuel with
    | O => Err FuelExhausted
    | S fuel' =>
        let r := compactBuffer r in
        peeked ← peekMayBeLess r (chunkSize r);
        if bool_decide (length peeked = 0) then Ok (set_eof r)
        else
          '(read, r) ← readMayBeLess r (length peeked);
          if bool_decide (length read = 0) then Ok (set_eof r)
          else fill_loop fuel' minBytes (append r read)
    end.

Definition fill (minBytes : nat) (r : t) : Result t :=
  if eof r then Ok r else fill_loop minBytes minBytes r.

(** The [while (true)] loop of [readLine]; a turn that does not return
    has moved at least one byte from the source into the buffer. *)
Fixpoint readLine_loop (fuel : nat) (r : t) : Result (option jsstring * t) :=
  match fuel with
  | O => Err FuelExhausted
  | S fuel' =>
      let idx := buffer_indexOf (buf r) LF (pos r) in
      if bool_decide (idx <> (-1)%Z) then
        let idx := Z.to_nat idx in
        let lineBuf := subarray (buf r) (pos r) idx in
        let lineBuf :=
          if bool_decide (length lineBuf <> 0) &&
             bool_decide (last lineBuf = Some CR)
          then subarray lineBuf 0 (length lineBuf - 1) else lineBuf in
        Ok (Some (latin1 lineBuf), set_pos r (idx + 1))
      else
        let before := avail r in
        r ← fill (before + 1) r;
        let after := avail r in
        if bool_decide (after = before) && eof r then
          if bool_decide (before = 0) then Ok (None, r)
          else
            let tail := subarray_from (buf r) (pos r) in
            Ok (Some (latin1 tail), set_pos r (length (buf r)))
        else readLine_loop fuel' r
  end.

Definition readLine (r : t) : Result (option jsstring * t) :=
  readLine_loop (2 + length (remaining (tokenizer r))) r.

Definition readBytes (n : Z) (r : t) : Result (option (list byte) * t) :=
  if (n <? 0)%Z then Err NegativeLength
  else if (n =? 0)%Z then Ok (Some [], r)
  else
    let n := Z.to_nat n in
    r ← fill n r;
    if avail r <? n then Ok (None, r)
    else
      let out := subarray (buf r) (pos r) (pos r + n) in
      Ok (Some out, set_pos r (pos r + n)).

Definition consumeStreamEol (r : t) : Result t :=
  r ← fill 1 r;
  if avail r <=? 0 then Ok r
  else
    let b0 := buf r !! pos r in
    if bool_decide (b0 = Some CR) then
      r ← fill 2 r;
      if (2 <=? avail r) && bool_decide (buf r !! (pos r + 1) = Some LF)
      then Ok (set_pos r (pos r + 2))
      else Ok (set_pos r (pos r + 1))
    else if bool_decide (b0 = Some LF) then Ok (set_pos r (pos r + 1))
    else Ok r.

End PdfTokenizerReader.

(** ** index.ts: constants and pure helpers *)

Inductive DictValue :=
| Flag                   (* the value [true]: key present, no value *)
| Str (s : jsstring).

#[global] Instance DictValue_eq_dec : EqDecision DictValue.
Proof. solve_decision. Defined.

Abbreviation Dict := (gmap jsstring DictValue).

Record FileTypeResult := mkFileType {
  ext : jsstring;
  mime : jsstring
}.

#[global] Instance FileTypeResult_eq_dec : EqDecision FileTypeResult.
Proof. solve_decision. Defined.

Definition PDF_TYPE : FileTypeResult :=
  mkFileType (str "pdf") (str "application/pdf").
Definition AI_TYPE : FileTypeResult :=
  mkFileType (str "ai") (str "application/illustrator").

(** [OBJ_REGEX = /^\s*(\d+)\s+(\d+)\s+obj\b/]; the character classes
    that follow one another are disjoint, so every greedy run is the only
    way to match.  The result holds the two captured groups. *)
Definition OBJ_REGEX (line : jsstring) : option (jsstring * jsstring) :=
  let s := snd (span isWhiteSpace line) in
  let '(objNum, s) := span isDigit s in
  let '(ws1, s) := span isWhiteSpace s in
  let '(genNum, s) := span isDigit s in
  let '(ws2, s) := span isWhiteSpace s in
  if bool_decide (objNum = []) || bool_decide (ws1 = [])
     || bool_decide (genNum = []) || bool_decide (ws2 = []) then None
  else
    match s with
    | 111%N :: 98%N :: 106%N :: rest =>       (* "obj" *)
        match rest with
        | [] => Some (objNum, genNum)
        | c :: _ => if isWordChar c then None else Some (objNum, genNum)
        end
    | _ => None
    end.

Fixpoint matches_at (hay needle : list byte) {struct needle} : bool :=
  match needle, hay with
  | [], _ => true
  | _ :: _, [] => false
  | n :: needle', h :: hay' => bool_decide (h = n) && matches_at hay' needle'
  end.

(** The [outer] loop of [indexOfBytes], at index [i] with [hay] the bytes
    from [i] on. *)
Fixpoint indexOfBytes_from (hay needle : list byte) (i : nat) : Z :=
  if length needle <=? length hay then
    if matches_at hay needle then Z.of_nat i
    else match hay with
         | [] => (-1)%Z
         | _ :: hay' => indexOfBytes_from hay' needle (S i)
         end
  else (-1)%Z.

Definition indexOfBytes (hay needle : list byte) : Z :=
  if bool_decide (length needle = 0) then 0%Z
  else indexOfBytes_from hay needle 0.

Record PdfHeader := mkHeader {
  isPdf : bool;
  headerOffset : Z
}.

Definition peekPdfHeader (tokenizer : Tokenizer) : PdfHeader :=
  match peekBuffer tokenizer 1024 true with
  | Err _ => mkHeader false (-1)
  | Ok hay =>
      if bool_decide (length hay = 0) then mkHeader false (-1)
      else
        let idx := indexOfBytes hay (bytes_of "%PDF-") in
        if bool_decide (idx = (-1)%Z) then mkHeader false (-1)
        else mkHeader true idx
  end.

(** The [while (left > 0)] loop of [skipBytes]; every turn reads at least
    one byte or throws, so [left] turns are enough. *)
Fixpoint skipBytes_loop (fuel tmpLength left : nat) (tokenizer : Tokenizer)
  : Result Tokenizer :=
  if bool_decide (left = 0) then Ok tokenizer
  else
    match fuel with
    | O => Err FuelExhausted
    | S fuel' =>
        let len := Nat.min tmpLength left in
        '(read, tokenizer) ← readBuffer tokenizer len false;
        if bool_decide (length read = 0) then Err UnexpectedEOF
        else skipBytes_loop fuel' tmpLength (left - length read) tokenizer
    end.

Definition skipBytes (tokenizer : Tokenizer) (n : Z) : Result Tokenizer :=
  if (n <=? 0)%Z then Ok tokenizer
  else
    let n := Z.to_nat n in
    skipBytes_loop n (Nat.min (64 * 1024) n) n tokenizer.

(** *** parseDictFromRaw *)

(** The optional group [(?:\s+([^/>\n\r]+))?] of [dictRegex] after a
    key: [\s+] first takes the whole run of white space and gives back one
    character at a time ([j] counts what it keeps) until the value class
    matches at least one character.  Yields what [\s+] kept and group 2. *)
Fixpoint value_backtrack (j : nat) (s : jsstring) : option (nat * jsstring) :=
  match j with
  | O => None
  | S j' =>
      let v := fst (span isValueChar (drop j s)) in
      if bool_decide (v = []) then value_backtrack j' s else Some (j, v)
  end.

Record DictMatch := mkMatch {
  m_key : jsstring;             (* match[1] *)
  m_value : option jsstring;    (* match[2], [None] when undefined *)
  m_length : nat                (* length of match[0] *)
}.

(** [dictRegex = /\/(\w+)(?:\s+([^/>\n\r]+))?/] tried at the start of
    [s]. *)
Definition dictRegex_at (s : jsstring) : option DictMatch :=
  match s with
  | 47%N :: s1 =>
      let '(key, s2) := span isWordChar s1 in
      if bool_decide (key = []) then None
      else
        let ws := fst (span isWhiteSpace s2) in
        match value_backtrack (length ws) s2 with
        | Some (j, v) => Some (mkMatch key (Some v) (1 + length key + j + length v))
        | None => Some (mkMatch key None (1 + length key))
        end
  | _ => None
  end.

(** [info[key] = value] on an object literal.  The one property name an
    assignment does not create is [__proto__]: its setter ignores a value
    that is not an object. *)
Definition dict_set (info : Dict) (key : jsstring) (value : DictValue) : Dict :=
  if bool_decide (key = str "__proto__") then info
  else <[key := value]> info.

(** The [while (match !== null)] loop over [dictRegex.exec(raw)] with the
    [g] flag: [skip] is the number of characters of the last match still to
    pass before the search resumes ([lastIndex]). *)
Fixpoint parseDict_loop (skip : nat) (s : jsstring) (info : Dict) : Dict :=
  match s with
  | [] => info
  | _ :: s' =>
      match skip with
      | S k => parseDict_loop k s' info
      | O =>
          match dictRegex_at s with
          | Some m =>
              let value :=
                match m_value m with
                | Some v => Str (trim v)
                | None => Flag
                end in
              parseDict_loop (m_length m - 1) s' (dict_set info (m_key m) value)
          | None => parseDict_loop 0 s' info
          end
      end
  end.

Definition parseDictFromRaw (raw : jsstring) : Dict :=
  parseDict_loop 0 raw ∅.

(** *** Stream filters *)

Inductive FilterName := FlateDecode | ASCII85Decode | LZWDecode | RunLengthDecode.

#[global] Instance FilterName_eq_dec : EqDecision FilterName.
Proof. solve_decision. Defined.

Definition filterName (f : FilterName) : jsstring :=
  match f with
  | FlateDecode => str "FlateDecode"
  | ASCII85Decode => str "ASCII85Decode"
  | LZWDecode => str "LZWDecode"
  | RunLengthDecode => str "RunLengthDecode"
  end.

(** The alternation [FlateDecode|ASCII85Decode|LZWDecode|RunLengthDecode]
    tried at the start of [s], in that order. *)
Definition filterRegex_at (s : jsstring) : option FilterName :=
  list_find (fun f => startsWith s (filterName f) = true)
    [FlateDecode; ASCII85Decode; LZWDecode; RunLengthDecode] ≫= fun r => Some r.2.

(** [s.match(/.../g)]: all matches, left to right, not overlapping. *)
Fixpoint matchFilters (skip : nat) (s : jsstring) : list FilterName :=
  match s with
  | [] => []
  | _ :: s' =>
      match skip with
      | S k => matchFilters k s'
      | O =>
          match filterRegex_at s with
          | Some f => f :: matchFilters (length (filterName f) - 1) s'
          | None => matchFilters 0 s'
          end
      end
  end.

(** [[...new Set(names)]]: the first occurrence of each name, in order. *)
Definition uniq (names : list FilterName) : list FilterName :=
  fold_left (fun seen f => if bool_decide (f ∈ seen) then seen else seen ++ [f])
    names [].

Definition normalizeFilters (filterValue : option DictValue) : list FilterName :=
  match filterValue with
  | None => []                  (* undefined *)
  | Some Flag => []             (* true *)
  | Some (Str []) => []         (* the empty string is falsy *)
  | Some (Str s) => uniq (matchFilters 0 s)
  end.

(** ** External capabilities of the detector

    Modelled from the spec: the decompression capability and the streaming
    XML parsing capability of section 6, and the UTF-8 text decoder, which
    the repository consumes from the platform ([DecompressionStream]), from
    the [sax] package and from [@borewit/text-codec].  They are parameters
    of the development; nothing is assumed about them. *)

Inductive CompressionFormat := deflate | deflate_raw.

(** What the XML parser reports while it is fed a text and closed, in
    order, when every error it reports is resumed. *)
Inductive SaxEvent :=
| OnError (message : jsstring)
| OnOpenTag (uri local name : jsstring)     (* a qualified tag: [xmlns] is on *)
| OnText (text : jsstring)
| OnCloseTag.

(** A value thrown out of the XML feed: a classification thrown by the
    creator-tool callback of [_detectPdf], or an error. *)
Inductive Thrown :=
| ThrownHit (hit : FileTypeResult)
| ThrownError (e : Failure).

(** ** The interface the scanner uses of its reader *)

Class LineReader (R : Type) := {
  lr_readLine : R -> Result (option jsstring * R);
  lr_readBytes : Z -> R -> Result (option (list byte) * R);
  lr_consumeStreamEol : R -> Result R;
  (** number of bytes the reader has not delivered yet; bounds the loop of
      [readDictionaryBlock] *)
  lr_unread : R -> nat
}.

#[global] Instance PdfTokenizerReader_LineReader : LineReader PdfTokenizerReader.t := {
  lr_readLine := PdfTokenizerReader.readLine;
  lr_readBytes := PdfTokenizerReader.readBytes;
  lr_consumeStreamEol := PdfTokenizerReader.consumeStreamEol;
  lr_unread r :=
    PdfTokenizerReader.avail r + length (remaining (PdfTokenizerReader.tokenizer r))
}.

(** ** Probes *)

Record ProbeContext := mkContext {
  ctx_debug : bool
}.

Record SubtypeProbe := mkProbe {
  probe_name : jsstring;
  onDict : option (ProbeContext -> jsstring -> Dict -> option FileTypeResult);
  onCreatorTool : option (ProbeContext -> jsstring -> option FileTypeResult);
  onStreamText : option (ProbeContext -> jsstring -> Dict -> option FileTypeResult)
}.

(** [value && value !== true && String(value).includes(needle)] *)
Definition valueIncludes (value : option DictValue) (needle : jsstring) : bool :=
  match value with
  | Some (Str (c :: s)) => includes (c :: s) needle
  | _ => false
  end.

Definition createIllustratorProbe : SubtypeProbe := {|
  probe_name := str "adobe-illustrator";
  onDict := Some (fun _ctx dictText dict =>
    if bool_decide (dict !! str "Illustrator" = Some Flag) then Some AI_TYPE
    else if includes dictText (str "/Illustrator") then Some AI_TYPE
    else
      let creator := dict !! str "Creator" in
      let producer := dict !! str "Producer" in
      if valueIncludes creator (str "Illustrator") then Some AI_TYPE
      else if valueIncludes producer (str "Illustrator") then Some AI_TYPE
      else if includes dictText (str "Adobe Illustrator") then Some AI_TYPE
      else None);
  onCreatorTool := Some (fun _ctx creatorTool =>
    if includes (toLowerCase creatorTool) (str "illustrator") then Some AI_TYPE
    else None);
  onStreamText := Some (fun _ctx streamText _ =>
    if includes streamText (str "Adobe Illustrator") then Some AI_TYPE
    else None)
|}.

Definition subtypeProbes : list SubtypeProbe := [createIllustratorProbe].

(** [for (const x of xs) { const hit = f(x); if (hit) return hit; }] *)
Fixpoint first_hit {A} (f : A -> option FileTypeResult) (xs : list A)
  : option FileTypeResult :=
  match xs with
  | [] => None
  | x :: xs' => match f x with Some hit => Some hit | None => first_hit f xs' end
  end.

(** The hooks of one kind that the probes define, in probe order. *)
Definition hooks {H} (get : SubtypeProbe -> option H) (probes : list SubtypeProbe)
  : list H := omap get probes.

(** ** XmlHandler *)

Module XmlHandler.

Definition endsWith (s suffix : jsstring) : bool :=
  startsWith (reverse s) (reverse suffix).

(** [onopentag]: the new value of [readingCreatorTool]. *)
Definition onopentag (uri local name : jsstring) : bool :=
  let isCreatorTool :=
    bool_decide (uri = str "http://ns.adobe.com/xap/1.0/")
    && bool_decide (local = str "CreatorTool") in
  let nameMatch :=
    bool_decide (name = str "xap:CreatorTool")
    || endsWith name (str ":CreatorTool")
    || bool_decide (name = str "CreatorTool") in
  isCreatorTool || nameMatch.

(** The handlers run over the events of one [write] and [close].  The
    result is what escapes as an exception, if anything, and the texts
    handed to [onCreatorTool] up to there. *)
Fixpoint run (onCreatorTool : jsstring -> option Thrown)
    (readingCreatorTool : bool) (events : list SaxEvent)
  : option Thrown * list jsstring :=
  match events with
  | [] => (None, [])
  | OnError message :: events' =>
      if startsWith message (str "Invalid character entity")
      then run onCreatorTool readingCreatorTool events'
      else (Some (ThrownError (SaxError message)), [])
  | OnOpenTag uri local name :: events' =>
      run onCreatorTool (onopentag uri local name) events'
  | OnText text :: events' =>
      if negb readingCreatorTool then run onCreatorTool false events'
      else
        match onCreatorTool text with
        | Some thrown => (Some thrown, [text])
        | None =>
            let '(thrown, texts) := run onCreatorTool false events' in
            (thrown, text :: texts)
        end
  | OnCloseTag :: events' => run onCreatorTool false events'
  end.

End XmlHandler.

(** ** The scan *)

Inductive ParserState := ROOT | OBJ.        (* state = 0, state = 10 *)

(** Ghost events: the arguments of every probe checkpoint and of every
    stream decode the scan reaches, oldest first.  The program does not
    keep them; they let a statement speak about what was scanned. *)
Inductive Checkpoint :=
| AtDict (dictText : jsstring) (dict : Dict)
| AtDecode (objectInfo : Dict) (rawBytes : list byte)
| AtStreamText (streamText : jsstring) (objectInfo : Dict)
| AtCreatorTool (creatorTool : jsstring).

Record ScanState (R : Type) := mkScan {
  reader : R;
  pendingLine : option jsstring;
  state : ParserState;
  scannedLines : nat;
  trace : list Checkpoint
}.
Arguments mkScan {R}.
Arguments reader {R}.
Arguments pendingLine {R}.
Arguments state {R}.
Arguments scannedLines {R}.
Arguments trace {R}.

(** How one turn of the [while] loop ends. *)
Inductive Step (R : Type) :=
| Continue (s : ScanState R)
| Break (s : ScanState R)
| Return (hit : FileTypeResult) (s : ScanState R)
| Throw (e : Failure) (s : ScanState R).
Arguments Continue {R}.
Arguments Break {R}.
Arguments Return {R}.
Arguments Throw {R}.

(** How the loop ends. *)
Inductive Outcome :=
| LoopEnded                          (* source or line budget exhausted *)
| Returned (hit : FileTypeResult)
| Threw (e : Failure).

Record DictionaryBlock := mkBlock {
  dictText : option jsstring;        (* [None] is [null] *)
  streamInline : bool
}.

Definition looksLikeXmp (objectInfo : Dict) : bool :=
  bool_decide (objectInfo !! str "Type" = Some (Str (str "Metadata")))
  || bool_decide (objectInfo !! str "Type" = Some (Str (str "/Metadata")))
  || bool_decide (objectInfo !! str "Subtype" = Some (Str (str "XML")))
  || bool_decide (objectInfo !! str "Subtype" = Some (Str (str "/XML")))
  || bool_decide (objectInfo !! str "XML" = Some Flag).

Record Options := mkOptions {
  opt_debug : option bool;
  opt_maxScanLines : option Z
}.

Definition noOptions : Options := mkOptions None None.

Section Detector.

Variable decompress : CompressionFormat -> list byte -> option (list byte).
Variable textDecode : list byte -> jsstring.
Variable saxParse : jsstring -> list SaxEvent.

(** *** Stream decoding *)

Definition inflateWithFormat (format : CompressionFormat) (data : list byte)
  : Result (list byte) :=
  match decompress format data with
  | Some out => Ok out
  | None => Err DecompressionFailed
  end.

Definition inflateFlateDecode (data : list byte) : Result (list byte) :=
  match inflateWithFormat deflate data with
  | Ok out => Ok out
  | Err _ => inflateWithFormat deflate_raw data
  end.

(** The [for (const f of filters)] loop of [decodeStreamBytes]. *)
Fixpoint decode_loop (filters : list FilterName) (rawBytes out : list byte)
  : Result (list byte) :=
  match filters with
  | [] => Ok out
  | f :: filters' =>
      if bool_decide (f = FlateDecode) then
        out ← inflateFlateDecode out;
        decode_loop filters' rawBytes out
      else
        (* Unsupported filters, return raw stream *)
        Ok rawBytes
  end.

Definition decodeStreamBytes (objectInfo : Dict) (rawBytes : list byte)
  : Result (list byte) :=
  let filters := normalizeFilters (objectInfo !! str "Filter") in
  if bool_decide (length filters = 0) then Ok rawBytes
  else decode_loop filters rawBytes rawBytes.

Section Scan.

Context {R : Type} {LR : LineReader R}.

(** The [while (!raw.includes(">>"))] loop of [readDictionaryBlock];
    every line it reads consumes at least one byte. *)
Fixpoint readDictionaryBlock_loop (fuel : nat) (reader : R) (raw : jsstring)
  : Result (jsstring * R) :=
  if includes raw (str ">>") then Ok (raw, reader)
  else
    match fuel with
    | O => Err FuelExhausted
    | S fuel' =>
        '(next, reader) ← lr_readLine reader;
        match next with
        | None => Ok (raw, reader)
        | Some next =>
            readDictionaryBlock_loop fuel' reader (raw ++ Byte.to_N LF :: next)
        end
    end.

Definition readDictionaryBlock (reader : R) (firstLine : jsstring)
  : Result (DictionaryBlock * R) :=
  '(raw, reader) ← readDictionaryBlock_loop (S (lr_unread reader)) reader firstLine;
  let start := indexOf raw (str "<<") 0 in
  let end_ := indexOf raw (str ">>") (start + 2) in
  if bool_decide (start = (-1)%Z) || bool_decide (end_ = (-1)%Z)
  then Ok (mkBlock None false, reader)
  else
    let dictText := trim (slice raw (start + 2) end_) in
    let after := trim (slice_from raw (end_ + 2)) in
    let streamInline :=
      bool_decide (after = str "stream") || startsWith after (str "stream ") in
    Ok (mkBlock (Some dictText) streamInline, reader).

Definition set_reader (s : ScanState R) (reader : R) : ScanState R :=
  mkScan reader (pendingLine s) (state s) (scannedLines s) (trace s).

Definition set_pendingLine (s : ScanState R) (l : option jsstring) : ScanState R :=
  mkScan (reader s) l (state s) (scannedLines s) (trace s).

Definition set_state (s : ScanState R) (st : ParserState) : ScanState R :=
  mkScan (reader s) (pendingLine s) st (scannedLines s) (trace s).

Definition incr_scannedLines (s : ScanState R) : ScanState R :=
  mkScan (reader s) (pendingLine s) (state s) (S (scannedLines s)) (trace s).

Definition record (s : ScanState R) (cps : list Checkpoint) : ScanState R :=
  mkScan (reader s) (pendingLine s) (state s) (scannedLines s) (trace s ++ cps).

(** The [readLine] closure of [_detectPdf]: the pushed-back line first. *)
Definition readLine (s : ScanState R) : Result (option jsstring * ScanState R) :=
  match pendingLine s with
  | Some l => Ok (Some l, set_pendingLine s None)
  | None =>
      '(line, reader) ← lr_readLine (reader s);
      Ok (line, set_reader s reader)
  end.

(** The XMP CreatorTool part of the loop body. *)
Definition scan_xmp (ctx : ProbeContext) (s : ScanState R)
    (objectInfo : Dict) (streamText : jsstring) : Step R :=
  let creatorToolListeners := hooks onCreatorTool subtypeProbes in
  if looksLikeXmp objectInfo && negb (bool_decide (length creatorToolListeners = 0))
  then
    let callback := fun v =>
      ThrownHit <$> first_hit (fun fn => fn ctx v) creatorToolListeners in
    let '(thrown, texts) := XmlHandler.run callback false (saxParse streamText) in
    let s := record s (AtCreatorTool <$> texts) in
    match thrown with
    | None => Continue s
    | Some (ThrownHit hit) => Return hit s
    | Some (ThrownError e) => Throw e s
    end
  else Continue s.

(** The loop body from the [Length] lookup on, for an object that has a
    stream. *)
Definition scan_stream (ctx : ProbeContext) (s : ScanState R)
    (objectInfo : Dict) : Step R :=
  match objectInfo !! str "Length" with
  | None | Some Flag | Some (Str []) => Continue s
  | Some (Str lenVal) =>
      match parseInt10 lenVal with
      | Finite streamLength =>
          if (streamLength <? 0)%Z then Continue s
          else
            match lr_consumeStreamEol (reader s) with
            | Err e => Throw e s
            | Ok reader =>
                match lr_readBytes streamLength reader with
                | Err e => Throw e s
                | Ok (None, reader) => Break (set_reader s reader)
                | Ok (Some rawBytes, reader) =>
                    let s := record (set_reader s reader) [AtDecode objectInfo rawBytes] in
                    match decodeStreamBytes objectInfo rawBytes with
                    | Err e => Throw e s
                    | Ok decodedBytes =>
                        let streamText := textDecode decodedBytes in
                        let s := record s [AtStreamText streamText objectInfo] in
                        match first_hit (fun fn => fn ctx streamText objectInfo)
                                (hooks onStreamText subtypeProbes) with
                        | Some hit => Return hit s
                        | None => scan_xmp ctx s objectInfo streamText
                        end
                    end
                end
            end
      | _ => Continue s
      end
  end.

(** The loop body from the dictionary probes on. *)
Definition scan_dict (ctx : ProbeContext) (s : ScanState R)
    (dictText : jsstring) (streamInline : bool) : Step R :=
  let objectInfo := parseDictFromRaw dictText in
  let s := record s [AtDict dictText objectInfo] in
  match first_hit (fun fn => fn ctx dictText objectInfo)
          (hooks onDict subtypeProbes) with
  | Some hit => Return hit s
  | None =>
      if streamInline then scan_stream ctx s objectInfo
      else
        match readLine s with
        | Err e => Throw e s
        | Ok (None, s) => Break s
        | Ok (Some nextLine, s) =>
            if bool_decide (trim nextLine = str "stream")
            then scan_stream ctx s objectInfo
            else Continue (set_pendingLine s (Some nextLine))
        end
  end.

(** One turn of the [while] loop of [_detectPdf]. *)
Definition scan_body (ctx : ProbeContext) (s : ScanState R) : Step R :=
  match readLine s with
  | Err e => Throw e s
  | Ok (None, s) => Break s
  | Ok (Some line, s) =>
      match state s with
      | ROOT =>
          match OBJ_REGEX line with
          | Some _ => Continue (set_state s OBJ)
          | None => Continue s
          end
      | OBJ =>
          if bool_decide (trim line = str "endobj") then Continue (set_state s ROOT)
          else if negb (includes line (str "<<")) then Continue s
          else
            match readDictionaryBlock (reader s) line with
            | Err e => Throw e s
            | Ok (block, reader) =>
                let s := set_reader s reader in
                match dictText block with
                | None | Some [] => Continue s
                | Some dictText => scan_dict ctx s dictText (streamInline block)
                end
            end
      end
  end.

(** [while (scannedLines++ < maxScanLines)]: [budget] is the number of
    turns for which the test still holds, [maxScanLines - scannedLines]. *)
Fixpoint scan_loop (ctx : ProbeContext) (budget : nat) (s : ScanState R)
  : Outcome * ScanState R :=
  match budget with
  | O => (LoopEnded, incr_scannedLines s)
  | S budget' =>
      match scan_body ctx (incr_scannedLines s) with
      | Continue s => scan_loop ctx budget' s
      | Break s => (LoopEnded, s)
      | Return hit s => (Returned hit, s)
      | Throw e s => (Threw e, s)
      end
  end.

End Scan.

(** *** _detectPdf *)

(** What a call of [_detectPdf] leaves behind: its result, the byte
    source, and the ghost record of the scan. *)
Record DetectRun := mkRun {
  run_result : Result (option FileTypeResult);
  run_tokenizer : Tokenizer;
  run_scannedLines : nat;
  run_trace : list Checkpoint
}.

Definition _detectPdf_run (tokenizer : Tokenizer) (opts : Options) : DetectRun :=
  let debug := default false (opt_debug opts) in
  let maxScanLines := default 50000%Z (opt_maxScanLines opts) in
  let ctx := mkContext debug in
  let hdr := peekPdfHeader tokenizer in
  if negb (isPdf hdr) then mkRun (Ok None) tokenizer 0 []
  else
    match (if (0 <? headerOffset hdr)%Z then skipBytes tokenizer (headerOffset hdr)
           else Ok tokenizer) with
    | Err e => mkRun (Err e) tokenizer 0 []
    | Ok tokenizer =>
        let rdr := PdfTokenizerReader.new tokenizer None debug in
        let '(outcome, s) :=
          scan_loop ctx (Z.to_nat maxScanLines) (mkScan rdr None ROOT 0 []) in
        let result :=
          match outcome with
          | LoopEnded => Ok (Some PDF_TYPE)
          | Returned hit => Ok (Some hit)
          | Threw e => Err e
          end in
        mkRun result (PdfTokenizerReader.tokenizer (reader s))
          (scannedLines s) (trace s)
    end.

Definition _detectPdf (tokenizer : Tokenizer) (opts : Options)
  : Result (option FileTypeResult) * Tokenizer :=
  let run := _detectPdf_run tokenizer opts in
  (run_result run, run_tokenizer run).

(** [detectPdf.detect] *)
Definition detect (tokenizer : Tokenizer) : Result (option FileTypeResult) * Tokenizer :=
  _detectPdf tokenizer noOptions.

(** ** The reader as the specification describes it

    Section 4.2 of the specification describes the reader by what it
    delivers from the bytes it has not consumed yet.  These definitions
    follow its words; the reader of the source is compared with them. *)

(** A line without its terminator: a carriage return before the line feed
    belongs to the terminator. *)
Definition strip_cr (l : list byte) : list byte :=
  if bool_decide (last l = Some CR) then take (length l - 1) l else l.

(** [readLine()]: the next line and the bytes left. *)
Definition next_line (c : list byte) : option (list byte) * list byte :=
  match find_byte LF c 0 with
  | Some i => (Some (strip_cr (take i c)), drop (S i) c)
  | None => match c with [] => (None, []) | _ => (Some c, []) end
  end.

(** [readBytes(n)]: exactly [n] bytes, or "insufficient data". *)
Definition next_bytes (n : Z) (c : list byte)
  : Result (option (list byte) * list byte) :=
  if (n <? 0)%Z then Err NegativeLength
  else if (n =? 0)%Z then Ok (Some [], c)
  else if length c <? Z.to_nat n then Ok (None, c)
  else Ok (Some (take (Z.to_nat n) c), drop (Z.to_nat n) c).

(** [consumeStreamEol()]: one line terminator, if one is next. *)
Definition skip_eol (c : list byte) : list byte :=
  match c with
  | b0 :: c1 =>
      if bool_decide (b0 = CR) then
        match c1 with
        | b1 :: c2 => if bool_decide (b1 = LF) then c2 else c1
        | [] => c1
        end
      else if bool_decide (b0 = LF) then c1
      else c
  | [] => c
  end.

#[global] Instance content_LineReader : LineReader (list byte) := {
  lr_readLine c := let '(l, c') := next_line c in Ok (latin1 <$> l, c');
  lr_readBytes := next_bytes;
  lr_consumeStreamEol c := Ok (skip_eol c);
  lr_unread c := length c
}.

(** All the lines of an input: the runs of bytes between line feeds, each
    without its terminator, then the unterminated rest if there is one. *)
Fixpoint spec_lines_from (cur bs : list byte) : list (list byte) :=
  match bs with
  | [] => match cur with [] => [] | _ => [cur] end
  | b :: bs' =>
      if bool_decide (b = LF) then strip_cr cur :: spec_lines_from [] bs'
      else spec_lines_from (cur ++ [b]) bs'
  end.

Definition spec_lines (bs : list byte) : list (list byte) :=
  spec_lines_from [] bs.

(** The results of [n] successive calls of [readLine()]. *)
Fixpoint readLines (n : nat) (r : PdfTokenizerReader.t)
  : Result (list (option jsstring)) :=
  match n with
  | O => Ok []
  | S n' =>
      '(l, r) ← PdfTokenizerReader.readLine r;
      ls ← readLines n' r;
      Ok (l :: ls)
  end.

(** What the reader of the source has yet to deliver. *)
Definition buffered (r : PdfTokenizerReader.t) : list byte :=
  drop (PdfTokenizerReader.pos r) (PdfTokenizerReader.buf r).

Definition content (r : PdfTokenizerReader.t) : list byte :=
  buffered r ++ remaining (PdfTokenizerReader.tokenizer r).

Definition wf (r : PdfTokenizerReader.t) : Prop :=
  0 < PdfTokenizerReader.chunkSize r /\
  (PdfTokenizerReader.eof r = true ->
   remaining (PdfTokenizerReader.tokenizer r) = []).

Definition refines (r : PdfTokenizerReader.t) (c : list byte) : Prop :=
  wf r /\ content r = c.

(** ** Vocabulary of the statements *)

(** [s] contains [sub] as a substring. *)
Definition contains {A} (s sub : list A) : Prop :=
  exists pre post, s = pre ++ sub ++ post.

(** What the probes answer at a checkpoint. *)
Definition checkpoint_hit (ctx : ProbeContext) (cp : Checkpoint)
  : option FileTypeResult :=
  match cp with
  | AtDict dictText dict =>
      first_hit (fun fn => fn ctx dictText dict) (hooks onDict subtypeProbes)
  | AtDecode _ _ => None
  | AtStreamText streamText objectInfo =>
      first_hit (fun fn => fn ctx streamText objectInfo)
        (hooks onStreamText subtypeProbes)
  | AtCreatorTool creatorTool =>
      first_hit (fun fn => fn ctx creatorTool) (hooks onCreatorTool subtypeProbes)
  end.

(** The Illustrator markers as the specification lists them. *)
Definition illustrator_marker (cp : Checkpoint) : Prop :=
  match cp with
  | AtDict dictText dict =>
      dict !! str "Illustrator" = Some Flag
      \/ contains dictText (str "/Illustrator")
      \/ contains dictText (str "Adobe Illustrator")
      \/ (exists v, dict !! str "Creator" = Some (Str v)
                    /\ contains v (str "Illustrator"))
      \/ (exists v, dict !! str "Producer" = Some (Str v)
                    /\ contains v (str "Illustrator"))
  | AtDecode _ _ => False
  | AtStreamText streamText _ => contains streamText (str "Adobe Illustrator")
  | AtCreatorTool creatorTool =>
      exists w, contains creatorTool w /\ toLowerCase w = str "illustrator"
  end.

(** The stream decodes of a scan, and the fatal XML errors. *)
Definition decode_fails (cp : Checkpoint) : Prop :=
  match cp with
  | AtDecode objectInfo rawBytes =>
      exists e, decodeStreamBytes objectInfo rawBytes = Err e
  | _ => False
  end.

Definition fatal_xml_error (ev : SaxEvent) : Prop :=
  match ev with
  | OnError message => startsWith message (str "Invalid character entity") = false
  | _ => False
  end.

(** ** Further vocabulary of the statements and of their proofs *)

(** The reader after its byte source has advanced by [n] bytes. *)
Definition advance (r : PdfTokenizerReader.t) (n : nat) : PdfTokenizerReader.t :=
  PdfTokenizerReader.mk
    (mkTokenizer (fileData (PdfTokenizerReader.tokenizer r))
       (position (PdfTokenizerReader.tokenizer r) + n))
    (PdfTokenizerReader.buf r) (PdfTokenizerReader.pos r)
    (PdfTokenizerReader.chunkSize r) (PdfTokenizerReader.eof r)
    (PdfTokenizerReader.debug r).

(** Two calls agree: equal results and related states, or the same
    failure. *)
Definition sim_res {A S1 S2} (relS : S1 -> S2 -> Prop)
    (x : Result (A * S1)) (y : Result (A * S2)) : Prop :=
  match x, y with
  | Ok (a, s1), Ok (b, s2) => a = b /\ relS s1 s2
  | Err e1, Err e2 => e1 = e2
  | _, _ => False
  end.

(** The same for a call that returns only a state. *)
Definition sim_res0 {S1 S2} (relS : S1 -> S2 -> Prop)
    (x : Result S1) (y : Result S2) : Prop :=
  match x, y with
  | Ok s1, Ok s2 => relS s1 s2
  | Err e1, Err e2 => e1 = e2
  | _, _ => False
  end.

(** Scan states that differ only in their readers, which are related. *)
Definition rel_scan {R1 R2} (rel : R1 -> R2 -> Prop)
    (s1 : ScanState R1) (s2 : ScanState R2) : Prop :=
  rel (reader s1) (reader s2) /\ pendingLine s1 = pendingLine s2 /\
  state s1 = state s2 /\ scannedLines s1 = scannedLines s2 /\
  trace s1 = trace s2.

(** Turns of the loop that end the same way, in related states. *)
Definition rel_step {R1 R2} (rel : R1 -> R2 -> Prop)
    (x : Step R1) (y : Step R2) : Prop :=
  match x, y with
  | Continue s1, Continue s2 => rel_scan rel s1 s2
  | Break s1, Break s2 => rel_scan rel s1 s2
  | Return h1 s1, Return h2 s2 => h1 = h2 /\ rel_scan rel s1 s2
  | Throw e1 s1, Throw e2 s2 => e1 = e2 /\ rel_scan rel s1 s2
  | _, _ => False
  end.

(** The result of [_detectPdf] for each way the loop can end. *)
Definition outcome_result (o : Outcome) : Result (option FileTypeResult) :=
  match o with
  | LoopEnded => Ok (Some PDF_TYPE)
  | Returned hit => Ok (Some hit)
  | Threw e => Err e
  end.

(** A trace in which no probe matched and no decode failed. *)
Definition clean (ctx : ProbeContext) (tr : list Checkpoint) : Prop :=
  Forall (fun cp => checkpoint_hit ctx cp = None /\ ~ decode_fails cp) tr.

(** How the trace of a scan relates to the way the scan ended. *)
Definition scan_inv (ctx : ProbeContext) (o : Outcome) (tr : list Checkpoint) : Prop :=
  match o with
  | LoopEnded => clean ctx tr
  | Returned hit =>
      exists tr' cp, tr = tr' ++ [cp] /\ clean ctx tr' /\
                     checkpoint_hit ctx cp = Some hit
  | Threw e =>
      clean ctx tr \/
      exists tr' objectInfo rawBytes,
        tr = tr' ++ [AtDecode objectInfo rawBytes] /\ clean ctx tr' /\
        decodeStreamBytes objectInfo rawBytes = Err e
  end.

(** The same for one turn of the loop. *)
Definition step_inv {R} (ctx : ProbeContext) (x : Step R) : Prop :=
  match x with
  | Continue s | Break s => clean ctx (trace s)
  | Return hit s => scan_inv ctx (Returned hit) (trace s)
  | Throw e s => scan_inv ctx (Threw e) (trace s)
  end.

(** A trace without a failed decode and without a fatal XML error in a
    stream text that is fed to the XML parser: the text of a stream whose
    dictionary looks like XMP metadata, when a probe listens for creator
    tools. *)
Definition no_failure (tr : list Checkpoint) : Prop :=
  Forall (fun cp =>
    ~ decode_fails cp /\
    match cp with
    | AtStreamText streamText objectInfo =>
        looksLikeXmp objectInfo = true ->
        length (hooks onCreatorTool subtypeProbes) <> 0 ->
        Forall (fun ev => ~ fatal_xml_error ev) (saxParse streamText)
    | _ => True
    end) tr.

(** Where a scan that throws [e] stands: at a decode that failed, or in
    the XML text of a metadata stream, after the creator tools it has
    handed to the probes, at an error the handler does not resume from. *)
Definition failure_at (e : Failure) (tr : list Checkpoint) : Prop :=
  (e = DecompressionFailed /\
   exists tr' objectInfo rawBytes,
     tr = tr' ++ [AtDecode objectInfo rawBytes] /\
     decodeStreamBytes objectInfo rawBytes = Err DecompressionFailed)
  \/ (exists message tr' streamText objectInfo texts,
        e = SaxError message /\
        tr = tr' ++ AtStreamText streamText objectInfo :: (AtCreatorTool <$> texts) /\
        looksLikeXmp objectInfo = true /\
        OnError message ∈ saxParse streamText /\
        fatal_xml_error (OnError message)).

(** The scan of an input as the specification sees it: over the bytes
    that follow the preamble. *)
Definition scan_content (input : list byte) (maxScanLines : Z)
  : Outcome * ScanState (list byte) :=
  scan_loop (mkContext false) (Z.to_nat maxScanLines) (mkScan input None ROOT 0 []).

(** The failures a scan can end with. *)
Definition scan_failure (e : Failure) : Prop :=
  e = DecompressionFailed \/ exists message, e = SaxError message.

(** The state a turn of the loop ends in. *)
Definition step_state {R} (x : Step R) : ScanState R :=
  match x with
  | Continue s | Break s | Return _ s | Throw _ s => s
  end.

(** A turn changes neither the line counter nor the trace already
    recorded. *)
Definition frame {R} (s s' : ScanState R) : Prop :=
  scannedLines s' = scannedLines s /\ exists tr, trace s' = trace s ++ tr.

(** The first [n] results of reading an input line by line: its lines,
    then "no more lines" for ever. *)
Definition lines_then_null (n : nat) (bs : list byte) : list (option jsstring) :=
  take n ((Some ∘ latin1 <$> spec_lines bs) ++ replicate n None).

(** An input made of lines, each ended by a line feed. *)
Definition encode_lines (ls : list (list byte)) : list byte :=
  concat ((fun l => l ++ [LF]) <$> ls).

(** A line that does not open a dictionary. *)
Definition plain_line (l : list byte) : Prop :=
  (LF ∉ l) /\ (CR ∉ l) /\ includes (latin1 l) (str "<<") = false.

(** A well-formed object-start line, [N G obj], and nothing else. *)
Definition objectStartLine (l : list byte) : Prop :=
  plain_line l /\ is_Some (OBJ_REGEX (latin1 l)).

(** Every string value of a dictionary is made of value characters. *)
Definition values_ok (info : Dict) : Prop :=
  forall key v, info !! key = Some (Str v) -> Forall (fun c => isValueChar c = true) v.

(** The input of the indirect-length example: an object whose stream has
    the length [17 0 R]. *)
Definition indirectLengthPdf : list byte :=
  encode_lines (bytes_of <$>
    ["%PDF-1.4"; "1 0 obj"; "<< /Length 17 0 R >>"; "stream";
     "Adobe Illustrator"; "endstream"; "endobj"]%string).

(** Stand-ins for the external capabilities, for the examples: a
    decompressor that rejects everything, a decoder for ASCII text, and an
    XML parser that reports nothing. *)
Definition rejectAll : CompressionFormat -> list byte -> option (list byte) :=
  fun _ _ => None.
Definition asciiDecode : list byte -> jsstring := latin1.
Definition noEvents : jsstring -> list SaxEvent := fun _ => [].

(** Inputs of the examples. *)
Definition threeZeroBytes : list byte := [Byte.x00; Byte.x00; Byte.x00].

Definition illustratorPdf : list byte :=
  encode_lines (bytes_of <$>
    ["%PDF-1.4"; "1 0 obj"; "<< /Creator (Adobe Illustrator 27.0) >>";
     "endobj"]%string).

Definition brokenFlatePdf : list byte :=
  encode_lines (bytes_of <$>
    ["%PDF-1.4"; "1 0 obj"; "<< /Length 2 /Filter FlateDecode >>"; "stream"]%string)
  ++ [Byte.xff; Byte.xff]
  ++ encode_lines (bytes_of <$> [""; "endstream"; "endobj"]%string).

Definition mixedChainPdf : list byte :=
  encode_lines (bytes_of <$>
    ["%PDF-1.4"; "1 0 obj";
     "<< /Length 2 /Filter FlateDecode ASCII85Decode >>"; "stream"]%string)
  ++ [Byte.xff; Byte.xff]
  ++ encode_lines (bytes_of <$> [""; "endstream"; "endobj"]%string).

Definition plainPdf : list byte :=
  encode_lines (bytes_of <$>
    ["%PDF-1.4"; "1 0 obj"; "<< /Type /Catalog /Length 3 >>"; "stream"; "abc";
     "endstream"; "endobj"]%string).

Definition objectLinesPdf : list byte :=
  encode_lines (bytes_of <$> ["%PDF-1.4"; "1 0 obj"; "2 0 obj"]%string).

(** A call of one of the public operations of the reader. *)
Inductive ReaderCall :=
| CallReadLine
| CallReadBytes (n : Z)
| CallConsumeStreamEol.

(** The reader after a call, whatever the call returned. *)
Definition call (c : ReaderCall) (r : PdfTokenizerReader.t)
  : Result PdfTokenizerReader.t :=
  match c with
  | CallReadLine => '(_, r) ← PdfTokenizerReader.readLine r; Ok r
  | CallReadBytes n => '(_, r) ← PdfTokenizerReader.readBytes n r; Ok r
  | CallConsumeStreamEol => PdfTokenizerReader.consumeStreamEol r
  end.

(** The reader after a sequence of calls. *)
Definition calls (cs : list ReaderCall) (r : PdfTokenizerReader.t)
  : Result PdfTokenizerReader.t :=
  foldl (fun acc c => r ← acc; call c r) (Ok r) cs.

(** The read position lies inside the buffer, and the byte source has
    moved only forward over its data: position and bytes left add up to
    [total]. *)
Definition in_step (total : nat) (r : PdfTokenizerReader.t) : Prop :=
  PdfTokenizerReader.pos r <= length (PdfTokenizerReader.buf r) /\
  position (PdfTokenizerReader.tokenizer r)
    + length (remaining (PdfTokenizerReader.tokenizer r)) = total.

(** [needle] occurs in [hay] at index [i]. *)
Definition occurs_at {A} (hay needle : list A) (i : nat) : Prop :=
  exists rest, drop i hay = needle ++ rest.

(** [i] is the index of the first occurrence of [needle] in [hay]. *)
Definition first_occurrence {A} (hay needle : list A) (i : nat) : Prop :=
  occurs_at hay needle i /\ forall j, j < i -> ~ occurs_at hay needle j.

(** The lines [OBJ_REGEX] accepts, with the two numbers it captures: white
    space, digits, white space, digits, white space and the word [obj], which
    ends the line or is followed by a character that is not a word
    character. *)
Definition objectStart (line objNum genNum : jsstring) : Prop :=
  exists ws0 ws1 ws2 rest,
    line = ws0 ++ objNum ++ ws1 ++ genNum ++ ws2 ++ str "obj" ++ rest /\
    Forall (fun c => isWhiteSpace c = true) ws0 /\
    objNum <> [] /\ Forall (fun c => isDigit c = true) objNum /\
    ws1 <> [] /\ Forall (fun c => isWhiteSpace c = true) ws1 /\
    genNum <> [] /\ Forall (fun c => isDigit c = true) genNum /\
    ws2 <> [] /\ Forall (fun c => isWhiteSpace c = true) ws2 /\
    match rest with [] => True | c :: _ => isWordChar c = false end.

(** [name] occurs in [raw] as a name: after a solidus, made of word
    characters, and followed by the end of the text or by a character that
    is not a word character. *)
Definition nameToken (raw name : jsstring) : Prop :=
  name <> [] /\ Forall (fun c => isWordChar c = true) name /\
  exists pre post, raw = pre ++ 47%N :: name ++ post /\
    match post with [] => True | c :: _ => isWordChar c = false end.

(** An open tag that does not announce a creator tool. *)
Definition otherTag (ev : SaxEvent) : Prop :=
  match ev with
  | OnOpenTag uri local name => XmlHandler.onopentag uri local name = false
  | _ => True
  end.

(** An error the handler clears and resumes from. *)
Definition resumedError (ev : SaxEvent) : bool :=
  match ev with
  | OnError message => startsWith message (str "Invalid character entity")
  | _ => false
  end.

(** Lines in which no object has a body: a line that starts an object is
    the last line, or the line after it holds [endobj].  Whatever such an
    object has, it has it on the line that starts it. *)
Inductive flatObjects : list (list byte) -> Prop :=
| flat_end : flatObjects []
| flat_other l ls :
    OBJ_REGEX (latin1 l) = None -> flatObjects ls -> flatObjects (l :: ls)
| flat_open l :
    is_Some (OBJ_REGEX (latin1 l)) -> flatObjects [l]
| flat_object l e ls :
    is_Some (OBJ_REGEX (latin1 l)) -> trim (latin1 e) = str "endobj" ->
    flatObjects ls -> flatObjects (l :: e :: ls).

(** Inputs of the further examples: two lines, the first ended by a
    carriage return and a line feed, the second not ended. *)
Definition crlfInput : list byte := bytes_of "ab" ++ [CR; LF] ++ bytes_of "cd".

(** A reader over these lines that fetches four bytes at a time. *)
Definition crlfReader : PdfTokenizerReader.t :=
  PdfTokenizerReader.new (mkTokenizer crlfInput 0) (Some 4) false.

(** A byte source that stands two bytes into its data. *)
Definition offsetTokenizer : Tokenizer :=
  mkTokenizer (bytes_of "xx" ++ crlfInput) 2.

(** A file whose one object has its dictionary on the line that starts
    it. *)
Definition sameLinePdf : list byte :=
  encode_lines (bytes_of <$>
    ["%PDF-1.4"; "1 0 obj << /Creator (Adobe Illustrator) >>"; "endobj"]%string).

(** The events of a document whose only element is not a creator tool. *)
Definition titleEvents : list SaxEvent :=
  [OnOpenTag (str "http://purl.org/dc/elements/1.1/") (str "title") (str "dc:title");
   OnText (str "Adobe Illustrator"); OnCloseTag].

(** A file whose first object has an Illustrator dictionary on the line
    after the one that starts it; the last line is not ended. *)
Definition dictLinePdf : list byte :=
  encode_lines (bytes_of <$>
    ["%PDF-1.4"; "1 0 obj"; "<< /Creator (Adobe Illustrator) >>"]%string)
  ++ bytes_of "endobj".


(** A file whose stream names its filter the way PDF writes it, as a
    name, and holds two bytes that do not inflate. *)
Definition nameFlatePdf : list byte :=
  encode_lines (bytes_of <$>
    ["%PDF-1.4"; "1 0 obj"; "<< /Length 2 /Filter /FlateDecode >>"; "stream"]%string)
  ++ [Byte.xff; Byte.xff]
  ++ encode_lines (bytes_of <$> [""; "endstream"; "endobj"]%string).




(** An XML parser that rejects every text with an error that is not
    resumed. *)
Definition strictParse : jsstring -> list SaxEvent :=
  fun _ => [OnError (str "Unexpected end")].

(** A turn of the loop after which the scan goes on, or ends without a
    classification, leaves a trace without a failure. *)
Definition quiet_step {R} (x : Step R) : Prop :=
  match x with
  | Continue s | Break s => no_failure (trace s)
  | Return _ _ | Throw _ _ => True
  end.

(** * Properties *)

(** ** The reader of the source against the reader of the specification *)

(** *** Searching a byte *)

Lemma find_byte_app b l1 l2 i :
  find_byte b (l1 ++ l2) i =
  match find_byte b l1 i with
  | Some k => Some k
  | None => find_byte b l2 (i + length l1)
  end.
Proof.
  revert i. induction l1 as [|c l1 IH]; intros i; simpl.
  - by rewrite Nat.add_0_r.
  - case_bool_decide; [done|]. rewrite IH. by rewrite Nat.add_succ_r.
Qed.

Lemma find_byte_bounds b l i k :
  find_byte b l i = Some k -> i <= k < i + length l.
Proof.
  revert i. induction l as [|c l IH]; intros i; simpl; [done|].
  case_bool_decide.
  - intros [= <-]. lia.
  - intros Hk%IH. lia.
Qed.

Lemma find_byte_shift b l i :
  find_byte b l i = (fun k => i + k) <$> find_byte b l 0.
Proof.
  revert i. induction l as [|c l IH]; intros i; simpl; [done|].
  case_bool_decide; simpl.
  - by rewrite Nat.add_0_r.
  - rewrite (IH (S i)), (IH 1). destruct (find_byte b l 0); simpl; [|done].
    f_equal. lia.
Qed.

(** *** fill *)

Lemma avail_buffered r : PdfTokenizerReader.avail r = length (buffered r).
Proof. unfold PdfTokenizerReader.avail, buffered. by rewrite length_drop. Qed.

Lemma buffered_compact r :
  buffered (PdfTokenizerReader.compactBuffer r) = buffered r.
Proof.
  unfold PdfTokenizerReader.compactBuffer, buffered.
  destruct (0 <? PdfTokenizerReader.pos r) eqn:E; simpl; [done|].
  done.
Qed.

Lemma take_plus_drop {A} (l : list A) n k :
  take (n + k) l = take n l ++ take k (drop n l).
Proof.
  revert l; induction n as [|n IH]; intros [|x l]; simpl; try done.
  - by rewrite take_nil.
  - by rewrite IH.
Qed.

Lemma take_length_take {A} (l : list A) n :
  take (length (take n l)) l = take n l.
Proof.
  rewrite length_take. destruct (decide (n <= length l)).
  - by rewrite Nat.min_l.
  - rewrite Nat.min_r by lia. rewrite !take_ge; [done|lia|lia].
Qed.

Lemma peekMayBeLess_eq r n :
  PdfTokenizerReader.peekMayBeLess r n =
  Ok (take n (remaining (PdfTokenizerReader.tokenizer r))).
Proof. done. Qed.

Lemma readMayBeLess_eq r n :
  PdfTokenizerReader.readMayBeLess r n =
  let got := take n (remaining (PdfTokenizerReader.tokenizer r)) in
  Ok (got, advance r (length got)).
Proof. done. Qed.

Lemma fill_loop_unfold f m r :
  PdfTokenizerReader.fill_loop (S f) m r =
  if PdfTokenizerReader.eof r || (m <=? PdfTokenizerReader.avail r) then Ok r
  else
    let r := PdfTokenizerReader.compactBuffer r in
    peeked ← PdfTokenizerReader.peekMayBeLess r (PdfTokenizerReader.chunkSize r);
    if bool_decide (length peeked = 0) then Ok (PdfTokenizerReader.set_eof r)
    else
      '(read, r) ← PdfTokenizerReader.readMayBeLess r (length peeked);
      if bool_decide (length read = 0) then Ok (PdfTokenizerReader.set_eof r)
      else PdfTokenizerReader.fill_loop f m (PdfTokenizerReader.append r read).
Proof. done. Qed.

Lemma compact_fields r :
  let rc := PdfTokenizerReader.compactBuffer r in
  PdfTokenizerReader.tokenizer rc = PdfTokenizerReader.tokenizer r /\
  PdfTokenizerReader.chunkSize rc = PdfTokenizerReader.chunkSize r /\
  PdfTokenizerReader.eof rc = PdfTokenizerReader.eof r /\
  PdfTokenizerReader.pos rc = 0 /\
  PdfTokenizerReader.buf rc = buffered r.
Proof.
  unfold PdfTokenizerReader.compactBuffer, buffered.
  destruct (0 <? PdfTokenizerReader.pos r) eqn:E; simpl; [done|].
  apply Nat.ltb_ge in E.
  assert (PdfTokenizerReader.pos r = 0) as -> by lia. done.
Qed.

(** [fill] moves a prefix of the source's bytes behind the buffered ones,
    and stops with enough bytes buffered or at the end of the source. *)
Lemma fill_loop_spec f m r :
  wf r -> m - PdfTokenizerReader.avail r <= f ->
  exists r' k,
    PdfTokenizerReader.fill_loop f m r = Ok r' /\ wf r' /\
    buffered r' = buffered r ++ take k (remaining (PdfTokenizerReader.tokenizer r)) /\
    remaining (PdfTokenizerReader.tokenizer r') =
      drop k (remaining (PdfTokenizerReader.tokenizer r)) /\
    (PdfTokenizerReader.eof r' = true \/ m <= PdfTokenizerReader.avail r').
Proof.
  revert r. induction f as [|f IH]; intros r Hwf Hf.
  - exists r, 0. simpl.
    assert ((m <=? PdfTokenizerReader.avail r) = true) as -> by (apply Nat.leb_le; lia).
    rewrite orb_true_r, take_0, app_nil_r, drop_0.
    split_and!; try done. right. lia.
  - rewrite fill_loop_unfold.
    destruct (PdfTokenizerReader.eof r || (m <=? PdfTokenizerReader.avail r)) eqn:Hc.
    { exists r, 0. rewrite take_0, app_nil_r, drop_0. split_and!; try done.
      apply orb_true_iff in Hc as [?|?%Nat.leb_le]; auto. }
    apply orb_false_iff in Hc as [Heof Hlt]. apply Nat.leb_gt in Hlt.
    destruct (compact_fields r) as (Htok & Hchunk & Heofc & Hposc & Hbufc).
    cbv zeta.
    set (rc := PdfTokenizerReader.compactBuffer r) in *.
    rewrite peekMayBeLess_eq, Htok, Hchunk.
    set (rem := remaining (PdfTokenizerReader.tokenizer r)).
    set (got := take (PdfTokenizerReader.chunkSize r) rem).
    cbn [mbind result_bind].
    case_bool_decide as Hgot.
    + (* end of the source *)
      assert (rem = []) as Hrem.
      { destruct Hwf as [Hcs _]. subst got.
        destruct rem as [|x rem']; [done|].
        destruct (PdfTokenizerReader.chunkSize r); [lia|done]. }
      exists (PdfTokenizerReader.set_eof rc), 0.
      rewrite take_0, app_nil_r, drop_0. split_and!; auto.
      * split; simpl; [rewrite Hchunk; apply Hwf|]. intros _. by rewrite Htok.
      * unfold buffered; simpl. by rewrite Hposc, Hbufc.
      * simpl. by rewrite Htok.
    + rewrite readMayBeLess_eq, Htok. fold rem. cbv zeta.
      assert (take (length got) rem = got) as ->.
      { subst got. apply take_length_take. }
      cbn [mbind result_bind].
      case_bool_decide as Hgot'; [done|].
      match goal with |- context [PdfTokenizerReader.fill_loop f m ?x] => set (r1 := x) end.
      assert (Hb1 : buffered r1 = buffered r ++ got).
      { unfold r1, buffered, PdfTokenizerReader.append, advance; simpl.
        by rewrite Hposc, Hbufc. }
      assert (Hr1 : remaining (PdfTokenizerReader.tokenizer r1) = drop (length got) rem).
      { unfold r1, remaining; simpl. subst rem. unfold remaining.
        rewrite Htok, drop_drop. done. }
      destruct (IH r1) as (r' & k & Hfl & Hwf' & Hb' & Hr' & Hpost).
      * split; simpl; [rewrite Hchunk; apply Hwf|].
        rewrite Heofc, Heof. done.
      * rewrite avail_buffered, Hb1, length_app. rewrite avail_buffered in Hf, Hlt. lia.
      * exists r', (length got + k). split_and!; auto.
        -- rewrite Hb', Hb1, Hr1. rewrite take_plus_drop, <- app_assoc.
           do 2 f_equal. subst got. by rewrite take_length_take.
        -- rewrite Hr', Hr1, drop_drop. done.
Qed.

Lemma fill_spec m r :
  wf r ->
  exists r' k,
    PdfTokenizerReader.fill m r = Ok r' /\ wf r' /\
    buffered r' = buffered r ++ take k (remaining (PdfTokenizerReader.tokenizer r)) /\
    remaining (PdfTokenizerReader.tokenizer r') =
      drop k (remaining (PdfTokenizerReader.tokenizer r)) /\
    (PdfTokenizerReader.eof r' = true \/ m <= PdfTokenizerReader.avail r').
Proof.
  intros Hwf. unfold PdfTokenizerReader.fill.
  destruct (PdfTokenizerReader.eof r) eqn:Heof.
  - exists r, 0. rewrite take_0, app_nil_r, drop_0. split_and!; auto.
  - apply fill_loop_spec; [done|lia].
Qed.

Lemma fill_content r r' k :
  buffered r' = buffered r ++ take k (remaining (PdfTokenizerReader.tokenizer r)) ->
  remaining (PdfTokenizerReader.tokenizer r') =
    drop k (remaining (PdfTokenizerReader.tokenizer r)) ->
  content r' = content r.
Proof.
  intros Hb Hr. unfold content. by rewrite Hb, Hr, <- app_assoc, take_drop.
Qed.

(** *** readLine, readBytes, consumeStreamEol *)

Lemma readLine_loop_unfold f r :
  PdfTokenizerReader.readLine_loop (S f) r =
  let idx := buffer_indexOf (PdfTokenizerReader.buf r) LF (PdfTokenizerReader.pos r) in
  if bool_decide (idx <> (-1)%Z) then
    let idx := Z.to_nat idx in
    let lineBuf := subarray (PdfTokenizerReader.buf r) (PdfTokenizerReader.pos r) idx in
    let lineBuf :=
      if bool_decide (length lineBuf <> 0) && bool_decide (last lineBuf = Some CR)
      then subarray lineBuf 0 (length lineBuf - 1) else lineBuf in
    Ok (Some (latin1 lineBuf), PdfTokenizerReader.set_pos r (idx + 1))
  else
    let before := PdfTokenizerReader.avail r in
    r ← PdfTokenizerReader.fill (before + 1) r;
    let after := PdfTokenizerReader.avail r in
    if bool_decide (after = before) && PdfTokenizerReader.eof r then
      if bool_decide (before = 0) then Ok (None, r)
      else
        let tail := subarray_from (PdfTokenizerReader.buf r) (PdfTokenizerReader.pos r) in
        Ok (Some (latin1 tail), PdfTokenizerReader.set_pos r (length (PdfTokenizerReader.buf r)))
    else PdfTokenizerReader.readLine_loop f r.
Proof. done. Qed.

Lemma strip_cr_subarray l :
  (if bool_decide (length l <> 0) && bool_decide (last l = Some CR)
   then subarray l 0 (length l - 1) else l) = strip_cr l.
Proof.
  unfold strip_cr, subarray. rewrite drop_0, Nat.sub_0_r.
  case_bool_decide as Hl; case_bool_decide as Hc; simpl; try done.
  destruct l; [done|]. simpl in Hl. lia.
Qed.

Lemma readLine_loop_spec f r :
  wf r ->
  length (remaining (PdfTokenizerReader.tokenizer r))
    + (if PdfTokenizerReader.eof r then 0 else 1) < f ->
  exists r',
    PdfTokenizerReader.readLine_loop f r
      = Ok (latin1 <$> (next_line (content r)).1, r') /\
    refines r' (next_line (content r)).2.
Proof.
  revert r. induction f as [|f IH]; intros r Hwf Hf; [lia|].
  rewrite readLine_loop_unfold. cbv zeta.
  unfold buffer_indexOf. fold (buffered r).
  rewrite find_byte_shift.
  unfold next_line, content. rewrite find_byte_app.
  destruct (find_byte LF (buffered r) 0) as [j|] eqn:Hfind; simpl.
  - (* a line feed is buffered *)
    pose proof (find_byte_bounds _ _ _ _ Hfind) as Hj.
    rewrite (bool_decide_true (Z.of_nat _ <> _)) by lia.
    rewrite Nat2Z.id.
    eexists. split.
    + do 3 f_equal. rewrite strip_cr_subarray. f_equal.
      unfold subarray. fold (buffered r).
      rewrite take_app_le by lia.
      by replace (PdfTokenizerReader.pos r + j - PdfTokenizerReader.pos r) with j by lia.
    + split; [done|]. unfold content. simpl.
      rewrite drop_app_le by lia. f_equal.
      unfold buffered. simpl. rewrite drop_drop.
      by replace (PdfTokenizerReader.pos r + S j) with (PdfTokenizerReader.pos r + j + 1) by lia.
  - destruct (fill_spec (PdfTokenizerReader.avail r + 1) r Hwf)
      as (r1 & k & -> & Hwf1 & Hb1 & Hr1 & Hpost).
    cbn [mbind result_bind].
    set (rem := remaining (PdfTokenizerReader.tokenizer r)) in *.
    rewrite !avail_buffered in *. rewrite Hb1, length_app in *.
    destruct (bool_decide (length (buffered r) + length (take k rem) = length (buffered r))
              && PdfTokenizerReader.eof r1) eqn:Hc.
    + apply andb_true_iff in Hc as [Hk%bool_decide_eq_true Heof1].
      assert (take k rem = []) as Htk by (apply length_zero_iff_nil; lia).
      assert (rem = []) as Hrem.
      { rewrite <- (take_drop k rem), Htk, <- Hr1. by apply Hwf1. }
      rewrite Hrem. simpl. rewrite !app_nil_r.
      rewrite Htk, app_nil_r in Hb1.
      case_bool_decide as Hz.
      * apply length_zero_iff_nil in Hz. rewrite Hz. simpl.
        eexists; split; [done|]. split; [done|].
        unfold content. by rewrite Hb1, Hz, Hr1, Hrem, drop_nil.
      * destruct (buffered r) as [|b bs] eqn:Hbr; [done|]. simpl.
        eexists; split.
        { unfold subarray_from. fold (buffered r1). rewrite Hb1. done. }
        split; [apply Hwf1|]. unfold content, buffered. simpl.
        by rewrite drop_all, Hr1, Hrem, drop_nil.
    + assert (1 <= length (take k rem)) as Hk.
      { apply andb_false_iff in Hc as [Hc%bool_decide_eq_false|Hc]; [lia|].
        destruct Hpost as [?|?]; [congruence|lia]. }
      assert (1 <= length rem) as Hrem.
      { rewrite length_take in Hk. lia. }
      assert (PdfTokenizerReader.eof r = false) as Heof.
      { destruct (PdfTokenizerReader.eof r) eqn:E; [|done].
        destruct Hwf as [_ Hw]. specialize (Hw E). fold rem in Hw.
        rewrite Hw in Hrem. simpl in Hrem. lia. }
      rewrite Heof in Hf.
      destruct (IH r1 Hwf1) as (r' & Hrl & Href).
      { rewrite Hr1, length_drop. rewrite length_take in Hk.
        destruct (PdfTokenizerReader.eof r1); lia. }
      rewrite Hrl.
      assert (content r1 = buffered r ++ rem) as Hcont.
      { unfold content. rewrite Hb1, Hr1, <- app_assoc, take_drop. done. }
      rewrite Hcont in *. unfold next_line in *.
      rewrite find_byte_app, Hfind in *. simpl in *.
      eexists; split; [done|]. done.
Qed.

(** [readLine] returns: it yields the next line of the bytes not yet
    delivered and leaves the bytes after it. *)
Lemma readLine_spec r :
  wf r ->
  exists r',
    PdfTokenizerReader.readLine r = Ok (latin1 <$> (next_line (content r)).1, r') /\
    refines r' (next_line (content r)).2.
Proof.
  intros Hwf. apply readLine_loop_spec; [done|].
  destruct (PdfTokenizerReader.eof r); lia.
Qed.

Lemma buffered_lookup r i :
  PdfTokenizerReader.buf r !! (PdfTokenizerReader.pos r + i) = buffered r !! i.
Proof. unfold buffered. by rewrite lookup_drop. Qed.

Lemma buffered_set_pos r n :
  buffered (PdfTokenizerReader.set_pos r (PdfTokenizerReader.pos r + n))
  = drop n (buffered r).
Proof. unfold buffered; simpl. by rewrite drop_drop. Qed.

Lemma wf_set_pos r p : wf r -> wf (PdfTokenizerReader.set_pos r p).
Proof. done. Qed.

Lemma content_eof r :
  wf r -> PdfTokenizerReader.eof r = true -> content r = buffered r.
Proof. intros [_ Hw] He. unfold content. by rewrite Hw, app_nil_r. Qed.

Lemma readBytes_spec n r :
  wf r ->
  match next_bytes n (content r) with
  | Err e => PdfTokenizerReader.readBytes n r = Err e
  | Ok (o, c') =>
      exists r', PdfTokenizerReader.readBytes n r = Ok (o, r') /\ refines r' c'
  end.
Proof.
  intros Hwf. unfold next_bytes, PdfTokenizerReader.readBytes.
  destruct (n <? 0)%Z; [done|].
  destruct (n =? 0)%Z; [by exists r|].
  destruct (fill_spec (Z.to_nat n) r Hwf) as (r1 & k & -> & Hwf1 & Hb1 & Hr1 & Hpost).
  cbn [mbind result_bind].
  pose proof (fill_content _ _ _ Hb1 Hr1) as Hc. rewrite <- Hc.
  rewrite avail_buffered in *.
  destruct (length (buffered r1) <? Z.to_nat n) eqn:Hlt.
  - apply Nat.ltb_lt in Hlt. destruct Hpost as [He|?]; [|lia].
    rewrite (content_eof _ Hwf1 He).
    apply Nat.ltb_lt in Hlt. rewrite Hlt. exists r1.
    split; [done|]. split; [done|]. by apply content_eof.
  - apply Nat.ltb_ge in Hlt.
    assert ((length (content r1) <? Z.to_nat n) = false) as ->.
    { apply Nat.ltb_ge. unfold content. rewrite length_app. lia. }
    eexists; split.
    + do 3 f_equal. unfold subarray. fold (buffered r1). unfold content.
      rewrite take_app_le by lia. f_equal. lia.
    + split; [done|]. unfold content at 1. rewrite buffered_set_pos. simpl.
      unfold content. by rewrite drop_app_le by lia.
Qed.

Lemma consumeStreamEol_spec r :
  wf r ->
  exists r', PdfTokenizerReader.consumeStreamEol r = Ok r'
             /\ refines r' (skip_eol (content r)).
Proof.
  intros Hwf. unfold PdfTokenizerReader.consumeStreamEol.
  destruct (fill_spec 1 r Hwf) as (r1 & k & -> & Hwf1 & Hb1 & Hr1 & Hpost).
  cbn [mbind result_bind].
  rewrite <- (fill_content _ _ _ Hb1 Hr1).
  rewrite avail_buffered in *. clear Hb1 Hr1 Hwf r k.
  destruct (length (buffered r1) <=? 0) eqn:Hz.
  { apply Nat.leb_le in Hz. destruct Hpost as [He|?]; [|lia].
    exists r1. split; [done|]. split; [done|].
    rewrite (content_eof _ Hwf1 He).
    destruct (buffered r1); [done|simpl in Hz; lia]. }
  clear Hpost.
  assert (PdfTokenizerReader.buf r1 !! PdfTokenizerReader.pos r1 = buffered r1 !! 0)
    as -> by (rewrite <- buffered_lookup; f_equal; lia).
  destruct (buffered r1) as [|b0 c1] eqn:Hb; [done|]. simpl.
  case_bool_decide as Hcr.
  - (* carriage return: look one byte ahead *)
    injection Hcr as ->.
    destruct (fill_spec 2 r1 Hwf1) as (r2 & k & -> & Hwf2 & Hb2 & Hr2 & Hpost).
    cbn [mbind result_bind].
    rewrite <- (fill_content _ _ _ Hb2 Hr2).
    rewrite avail_buffered in *. rewrite buffered_lookup.
    rewrite Hb in Hb2. clear Hr2.
    destruct (2 <=? length (buffered r2)) eqn:H2.
    + apply Nat.leb_le in H2.
      destruct (buffered r2) as [|x [|b1 c2]] eqn:Hb2'; simpl in H2; try lia.
      injection Hb2 as -> Hc1. simpl.
      assert (content r2 = CR :: b1 :: c2 ++ remaining (PdfTokenizerReader.tokenizer r2))
        as Hc2. { unfold content. rewrite Hb2'. reflexivity. }
      rewrite Hc2. simpl.
      case_bool_decide as Hlf.
      * injection Hlf as ->. rewrite bool_decide_true by done.
        eexists; split; [done|]. split; [done|].
        unfold content. rewrite buffered_set_pos, Hb2'. done.
      * rewrite bool_decide_false by congruence.
        eexists; split; [done|]. split; [done|].
        unfold content. rewrite buffered_set_pos, Hb2'. done.
    + apply Nat.leb_gt in H2. destruct Hpost as [He|?]; [|lia].
      simpl. rewrite (content_eof _ Hwf2 He).
      destruct (buffered r2) as [|x [|b1 c2]] eqn:Hb2'; simpl in H2; try lia; [done|].
      injection Hb2 as -> Hc1. simpl.
      eexists; split; [done|]. split; [done|].
      unfold content. rewrite buffered_set_pos, Hb2'. simpl.
      destruct Hwf2 as [_ Hw]. by rewrite Hw.
  - assert (b0 <> CR) as Hne by congruence.
    assert (content r1 = b0 :: c1 ++ remaining (PdfTokenizerReader.tokenizer r1))
      as Hc1 by (unfold content; by rewrite Hb).
    rewrite Hc1. simpl. rewrite (bool_decide_false (b0 = CR)) by done.
    case_bool_decide as Hlf.
    + injection Hlf as ->. rewrite bool_decide_true by done.
      eexists; split; [done|]. split; [done|].
      unfold content. rewrite buffered_set_pos, Hb. done.
    + rewrite bool_decide_false by congruence.
      eexists; split; [done|]. split; [done|]. done.
Qed.

Ltac case_first_hit :=
  match goal with
  | |- context [first_hit ?f ?l] => destruct (first_hit f l)
  end.

(** ** The scan does not depend on the reader's representation *)

(** The probes do not look at their context. *)
Lemma scan_xmp_ctx {R} ctx1 ctx2 (s : ScanState R) objectInfo streamText :
  scan_xmp ctx1 s objectInfo streamText = scan_xmp ctx2 s objectInfo streamText.
Proof. reflexivity. Qed.

Lemma scan_stream_ctx {R} `{LineReader R} ctx1 ctx2 (s : ScanState R) objectInfo :
  scan_stream ctx1 s objectInfo = scan_stream ctx2 s objectInfo.
Proof. reflexivity. Qed.

Lemma scan_dict_ctx {R} `{LineReader R} ctx1 ctx2 (s : ScanState R) dictText streamInline :
  scan_dict ctx1 s dictText streamInline = scan_dict ctx2 s dictText streamInline.
Proof. reflexivity. Qed.

Lemma scan_body_ctx {R} `{LineReader R} ctx1 ctx2 (s : ScanState R) :
  scan_body ctx1 s = scan_body ctx2 s.
Proof. reflexivity. Qed.

Lemma scan_loop_ctx {R} `{LineReader R} ctx1 ctx2 n (s : ScanState R) :
  scan_loop ctx1 n s = scan_loop ctx2 n s.
Proof.
  revert s. induction n as [|n IH]; intros s; [done|].
  simpl. rewrite (scan_body_ctx ctx1 ctx2). destruct (scan_body ctx2 _); auto.
Qed.

(** Two readers related by [rel], whose operations preserve [rel] and
    agree on what they return, drive the scan to the same outcome. *)
Section Simulation.
#[local] Opaque subtypeProbes looksLikeXmp parseInt10 parseDictFromRaw.
Context {R1 R2 : Type} {LR1 : LineReader R1} {LR2 : LineReader R2}.
Variable rel : R1 -> R2 -> Prop.
Hypothesis sim_readLine : forall r1 r2,
  rel r1 r2 -> sim_res rel (lr_readLine r1) (lr_readLine r2).
Hypothesis sim_readBytes : forall n r1 r2,
  rel r1 r2 -> sim_res rel (lr_readBytes n r1) (lr_readBytes n r2).
Hypothesis sim_consumeStreamEol : forall r1 r2,
  rel r1 r2 -> sim_res0 rel (lr_consumeStreamEol r1) (lr_consumeStreamEol r2).
Hypothesis sim_unread : forall r1 r2, rel r1 r2 -> lr_unread r1 = lr_unread r2.

Lemma sim_readDictionaryBlock_loop fuel r1 r2 raw :
  rel r1 r2 ->
  sim_res rel (readDictionaryBlock_loop fuel r1 raw)
              (readDictionaryBlock_loop fuel r2 raw).
Proof using sim_readLine.
  revert r1 r2 raw. induction fuel as [|fuel IH]; intros r1 r2 raw Hrel; simpl.
  - destruct (includes raw (str ">>")); simpl; auto.
  - destruct (includes raw (str ">>")); simpl; auto.
    pose proof (sim_readLine r1 r2 Hrel) as Hs.
    destruct (lr_readLine r1) as [[o1 r1']|e1], (lr_readLine r2) as [[o2 r2']|e2];
      simpl in *; try done.
    destruct Hs as [-> Hrel']. destruct o2; simpl; auto.
Qed.

Lemma sim_readDictionaryBlock r1 r2 firstLine :
  rel r1 r2 ->
  sim_res rel (readDictionaryBlock r1 firstLine) (readDictionaryBlock r2 firstLine).
Proof using sim_readLine sim_unread.
  intros Hrel. unfold readDictionaryBlock.
  rewrite (sim_unread r1 r2 Hrel).
  pose proof (sim_readDictionaryBlock_loop (S (lr_unread r2)) r1 r2 firstLine Hrel) as Hs.
  destruct (readDictionaryBlock_loop _ r1 _) as [[raw1 r1']|e1],
           (readDictionaryBlock_loop _ r2 _) as [[raw2 r2']|e2];
    cbn [mbind result_bind sim_res] in *; try done.
  destruct Hs as [-> Hrel'].
  destruct (_ || _); cbn [sim_res]; auto.
Qed.

Lemma sim_readLine_closure s1 s2 :
  rel_scan rel s1 s2 -> sim_res (rel_scan rel) (readLine s1) (readLine s2).
Proof using sim_readLine.
  destruct s1 as [r1 p1 st1 k1 tr1], s2 as [r2 p2 st2 k2 tr2].
  intros (Hrel & Hp & Hst & Hk & Htr); simpl in *; subst.
  unfold readLine; simpl. destruct p2; simpl.
  - split; [done|]. by split.
  - pose proof (sim_readLine r1 r2 Hrel) as Hs.
    destruct (lr_readLine r1) as [[o1 r1']|e1], (lr_readLine r2) as [[o2 r2']|e2];
      simpl in *; try done.
    destruct Hs as [-> Hrel']. split; [done|]. by split.
Qed.

Lemma sim_scan_stream ctx s1 s2 objectInfo :
  rel_scan rel s1 s2 ->
  rel_step rel (scan_stream ctx s1 objectInfo) (scan_stream ctx s2 objectInfo).
Proof using sim_readBytes sim_consumeStreamEol.
  destruct s1 as [r1 p1 st1 k1 tr1], s2 as [r2 p2 st2 k2 tr2].
  intros (Hrel & Hp & Hst & Hk & Htr); simpl in *; subst.
  unfold scan_stream; simpl.
  destruct (objectInfo !! str "Length") as [[|[|c lenVal]]|]; simpl; try done.
  destruct (parseInt10 (c :: lenVal)) as [|streamLength|]; simpl; try done.
  destruct (streamLength <? 0)%Z; simpl; [done|].
  pose proof (sim_consumeStreamEol r1 r2 Hrel) as Hs.
  destruct (lr_consumeStreamEol r1) as [r1'|e1], (lr_consumeStreamEol r2) as [r2'|e2];
    simpl in *; try done.
  pose proof (sim_readBytes streamLength r1' r2' Hs) as Hb.
  destruct (lr_readBytes streamLength r1') as [[o1 r1'']|e1],
           (lr_readBytes streamLength r2') as [[o2 r2'']|e2];
    simpl in *; try done.
  destruct Hb as [-> Hrel'']. destruct o2 as [rawBytes|]; simpl; [|done].
  destruct (decodeStreamBytes objectInfo rawBytes) as [decoded|e]; simpl; [|done].
  case_first_hit; simpl; [done|].
  unfold scan_xmp; simpl.
  destruct (looksLikeXmp objectInfo && _); simpl; [|done].
  destruct (XmlHandler.run _ _ _) as [[[hit|e]|] texts]; simpl; done.
Qed.

Lemma sim_scan_dict ctx s1 s2 dictText streamInline :
  rel_scan rel s1 s2 ->
  rel_step rel (scan_dict ctx s1 dictText streamInline)
               (scan_dict ctx s2 dictText streamInline).
Proof using sim_readLine sim_readBytes sim_consumeStreamEol.
  intros Hrel. unfold scan_dict.
  assert (rel_scan rel
            (record s1 [AtDict dictText (parseDictFromRaw dictText)])
            (record s2 [AtDict dictText (parseDictFromRaw dictText)])) as Hrec.
  { destruct Hrel as (? & ? & ? & ? & Htr). unfold rel_scan; simpl.
    rewrite Htr. done. }
  case_first_hit; [done|].
  destruct streamInline; [by apply sim_scan_stream|].
  pose proof (sim_readLine_closure _ _ Hrec) as Hs.
  destruct (readLine (record s1 _)) as [[o1 s1']|e1],
           (readLine (record s2 _)) as [[o2 s2']|e2]; simpl in *; try done.
  destruct Hs as [-> Hrel']. destruct o2 as [nextLine|]; [|done].
  case_bool_decide; [by apply sim_scan_stream|].
  destruct Hrel' as (? & ? & ? & ? & ?). by unfold rel_scan.
Qed.

Lemma sim_scan_body ctx s1 s2 :
  rel_scan rel s1 s2 -> rel_step rel (scan_body ctx s1) (scan_body ctx s2).
Proof using All.
  intros Hrel. unfold scan_body.
  pose proof (sim_readLine_closure _ _ Hrel) as Hs.
  destruct (readLine s1) as [[o1 s1']|e1], (readLine s2) as [[o2 s2']|e2];
    simpl in *; try done.
  destruct Hs as [-> Hrel']. destruct o2 as [line|]; [|done].
  destruct Hrel' as (Hr & Hp & Hst & Hk & Htr). rewrite Hst.
  destruct (state s2') eqn:Hst2.
  - destruct (OBJ_REGEX line); simpl; unfold rel_scan; simpl; by rewrite ?Hst2.
  - case_bool_decide; [by unfold rel_scan|].
    destruct (includes line (str "<<")); simpl; [|unfold rel_scan; simpl; by rewrite ?Hst2].
    pose proof (sim_readDictionaryBlock _ _ line Hr) as Hd.
    destruct (readDictionaryBlock (reader s1') line) as [[b1 r1']|e1],
             (readDictionaryBlock (reader s2') line) as [[b2 r2']|e2];
      simpl in *; try done;
      [|subst; split; [done|]; unfold rel_scan; simpl; by rewrite ?Hst2].
    destruct Hd as [-> Hr'].
    destruct (dictText b2) as [[|c t]|];
      try (simpl; unfold rel_scan; simpl; by rewrite ?Hst2).
    apply sim_scan_dict. unfold rel_scan; simpl; by rewrite ?Hst2.
Qed.

Lemma sim_scan_loop ctx n s1 s2 :
  rel_scan rel s1 s2 ->
  (scan_loop ctx n s1).1 = (scan_loop ctx n s2).1 /\
  rel_scan rel (scan_loop ctx n s1).2 (scan_loop ctx n s2).2.
Proof using All.
  revert s1 s2. induction n as [|n IH]; intros s1 s2 Hrel; simpl.
  - split; [done|]. destruct Hrel as (? & ? & ? & Hk & ?).
    unfold rel_scan; simpl. by rewrite Hk.
  - assert (rel_scan rel (incr_scannedLines s1) (incr_scannedLines s2)) as Hi.
    { destruct Hrel as (? & ? & ? & Hk & ?). unfold rel_scan; simpl. by rewrite Hk. }
    pose proof (sim_scan_body ctx _ _ Hi) as Hs.
    destruct (scan_body ctx (incr_scannedLines s1)),
             (scan_body ctx (incr_scannedLines s2)); simpl in *; try done.
    + by apply IH.
    + by destruct Hs as [-> ?].
    + by destruct Hs as [-> ?].
Qed.

End Simulation.

(** The reader of the source and the reader of the specification are
    related by [refines]. *)
Lemma refines_readLine r c :
  refines r c -> sim_res refines (lr_readLine r) (lr_readLine c).
Proof.
  intros [Hwf <-]. destruct (readLine_spec r Hwf) as (r' & Hrl & Href).
  simpl. rewrite Hrl. destruct (next_line (content r)) as [l c']. by simpl.
Qed.

Lemma refines_readBytes n r c :
  refines r c -> sim_res refines (lr_readBytes n r) (lr_readBytes n c).
Proof.
  intros [Hwf <-]. pose proof (readBytes_spec n r Hwf) as Hs. simpl.
  destruct (next_bytes n (content r)) as [[o c']|e].
  - destruct Hs as (r' & -> & Href). by simpl.
  - by rewrite Hs.
Qed.

Lemma refines_consumeStreamEol r c :
  refines r c -> sim_res0 refines (lr_consumeStreamEol r) (lr_consumeStreamEol c).
Proof.
  intros [Hwf <-]. destruct (consumeStreamEol_spec r Hwf) as (r' & Hc & Href).
  simpl. by rewrite Hc.
Qed.

Lemma refines_unread r c : refines r c -> lr_unread r = lr_unread c.
Proof.
  intros [Hwf <-]. simpl. unfold content.
  by rewrite avail_buffered, length_app.
Qed.

Lemma refines_new tokenizer chunk dbg :
  refines (PdfTokenizerReader.new tokenizer (S <$> chunk) dbg) (remaining tokenizer).
Proof.
  split; [|done]. split; [|done].
  destruct chunk as [k|]; [simpl; lia|].
  change (0 < 64 * 1024). apply Nat.mul_pos_pos; lia.
Qed.

(** *** The header sniffer *)

Lemma matches_at_spec hay needle :
  matches_at hay needle = true <-> exists rest, hay = needle ++ rest.
Proof.
  revert hay. induction needle as [|n needle IH]; intros hay; simpl.
  - split; [by exists hay|done].
  - destruct hay as [|h hay].
    + split; [done|]. by intros [rest ?].
    + rewrite andb_true_iff, bool_decide_eq_true, IH. split.
      * intros [-> [rest ->]]. by exists rest.
      * intros [rest [= -> ->]]. split; [done|by exists rest].
Qed.

Lemma indexOfBytes_from_none hay needle i :
  ~ contains hay needle -> indexOfBytes_from hay needle i = (-1)%Z.
Proof.
  revert i. induction hay as [|h hay IH]; intros i Hn; simpl.
  - destruct (length needle <=? 0) eqn:E; [|done].
    destruct (matches_at [] needle) eqn:Hm; [|done].
    apply matches_at_spec in Hm as [rest Hm]. destruct Hn. by exists [], rest.
  - destruct (length needle <=? S (length hay)); [|done].
    destruct (matches_at (h :: hay) needle) eqn:Hm.
    + apply matches_at_spec in Hm as [rest Hm]. destruct Hn. by exists [], rest.
    + apply IH. intros (pre & post & ->). apply Hn. by exists (h :: pre), post.
Qed.

Lemma indexOfBytes_from_found hay needle i k :
  indexOfBytes_from hay needle i = k -> k <> (-1)%Z ->
  exists j, k = Z.of_nat (i + j) /\ j + length needle <= length hay /\
            exists rest, drop j hay = needle ++ rest.
Proof.
  revert i. induction hay as [|h hay IH]; intros i; simpl.
  - destruct (length needle <=? 0) eqn:E; [|congruence].
    destruct (matches_at [] needle) eqn:Hm; [|congruence].
    intros <- _. apply Nat.leb_le in E. exists 0. rewrite Nat.add_0_r.
    split; [done|]. split; [simpl; lia|]. by apply matches_at_spec.
  - destruct (length needle <=? S (length hay)) eqn:E; [|congruence].
    apply Nat.leb_le in E.
    destruct (matches_at (h :: hay) needle) eqn:Hm.
    + intros <- _. exists 0. rewrite Nat.add_0_r.
      split; [done|]. split; [simpl; lia|]. by apply matches_at_spec.
    + intros Hk Hne. destruct (IH _ Hk Hne) as (j & -> & Hj & rest & Hd).
      exists (S j). split; [f_equal; lia|]. split; [simpl; lia|]. by exists rest.
Qed.

Lemma peekPdfHeader_none tokenizer :
  ~ contains (take 1024 (remaining tokenizer)) (bytes_of "%PDF-") ->
  peekPdfHeader tokenizer = mkHeader false (-1).
Proof.
  intros Hn. unfold peekPdfHeader, peekBuffer. simpl.
  case_bool_decide; [done|].
  unfold indexOfBytes.
  rewrite (bool_decide_false (length (bytes_of "%PDF-") = 0)) by (by cbv).
  rewrite indexOfBytes_from_none by done. done.
Qed.

Lemma peekPdfHeader_found tokenizer :
  isPdf (peekPdfHeader tokenizer) = true ->
  exists j rest,
    headerOffset (peekPdfHeader tokenizer) = Z.of_nat j /\
    j + 5 <= length (take 1024 (remaining tokenizer)) /\
    drop j (take 1024 (remaining tokenizer)) = bytes_of "%PDF-" ++ rest.
Proof.
  unfold peekPdfHeader, peekBuffer. simpl.
  case_bool_decide; [done|].
  case_bool_decide as Hidx; [done|]. intros _. simpl.
  unfold indexOfBytes in *.
  rewrite (bool_decide_false (length (bytes_of "%PDF-") = 0)) in * by (by cbv).
  destruct (indexOfBytes_from_found _ _ _ _ eq_refl Hidx) as (j & Hj & Hlen & rest & Hd).
  exists j, rest. by rewrite Hj.
Qed.

Lemma indexOfBytes_from_unfold hay needle i :
  indexOfBytes_from hay needle i =
  if length needle <=? length hay then
    if matches_at hay needle then Z.of_nat i
    else match hay with
         | [] => (-1)%Z
         | _ :: hay' => indexOfBytes_from hay' needle (S i)
         end
  else (-1)%Z.
Proof. by destruct hay. Qed.

Lemma indexOfBytes_from_some pre needle post i :
  indexOfBytes_from (pre ++ needle ++ post) needle i <> (-1)%Z.
Proof.
  revert i. induction pre as [|p pre IH]; intros i; rewrite indexOfBytes_from_unfold.
  - simpl. rewrite length_app.
    replace (length needle <=? length needle + length post) with true
      by (symmetry; apply Nat.leb_le; lia).
    replace (matches_at (needle ++ post) needle) with true; [lia|].
    symmetry. apply matches_at_spec. by exists post.
  - replace (length needle <=? length ((p :: pre) ++ needle ++ post)) with true
      by (symmetry; apply Nat.leb_le; simpl; rewrite !length_app; lia).
    destruct (matches_at _ _); [lia|]. simpl. apply IH.
Qed.

Lemma peekPdfHeader_some tokenizer :
  contains (take 1024 (remaining tokenizer)) (bytes_of "%PDF-") ->
  isPdf (peekPdfHeader tokenizer) = true.
Proof.
  intros (pre & post & Hc). unfold peekPdfHeader, peekBuffer.
  cbn [negb andb]. rewrite Hc.
  rewrite bool_decide_false; [|rewrite !length_app; simpl; lia].
  unfold indexOfBytes.
  rewrite (bool_decide_false (length (bytes_of "%PDF-") = 0)) by (by cbv).
  rewrite bool_decide_false; [done|]. apply indexOfBytes_from_some.
Qed.

(** *** skipBytes *)

Lemma skipBytes_loop_spec fuel tmp left tokenizer :
  left <= fuel -> 0 < tmp -> left <= length (remaining tokenizer) ->
  exists tokenizer',
    skipBytes_loop fuel tmp left tokenizer = Ok tokenizer' /\
    fileData tokenizer' = fileData tokenizer /\
    position tokenizer' = position tokenizer + left.
Proof.
  revert left tokenizer. induction fuel as [|fuel IH]; intros left tokenizer Hf Ht Hl.
  - assert (left = 0) as -> by lia. exists tokenizer. simpl.
    split; [done|]. split; [done|lia].
  - simpl. case_bool_decide as Hz.
    + subst. exists tokenizer. split; [done|]. split; [done|lia].
    + unfold readBuffer, peekBuffer. simpl.
      assert (length (take (Nat.min tmp left) (remaining tokenizer)) = Nat.min tmp left)
        as Hlen by (rewrite length_take; lia).
      rewrite Hlen, Nat.ltb_irrefl. simpl.
      rewrite Hlen. rewrite bool_decide_false by lia.
      destruct (IH (left - Nat.min tmp left)
                  (mkTokenizer (fileData tokenizer) (position tokenizer + Nat.min tmp left)))
        as (t' & -> & Hd & Hp); try lia.
      * unfold remaining in *. simpl. rewrite length_drop in *. lia.
      * exists t'. split; [done|]. split; [done|]. simpl in Hp. lia.
Qed.

Lemma skipBytes_spec tokenizer n :
  (0 < n)%Z -> Z.to_nat n <= length (remaining tokenizer) ->
  exists tokenizer',
    skipBytes tokenizer n = Ok tokenizer' /\
    remaining tokenizer' = drop (Z.to_nat n) (remaining tokenizer).
Proof.
  intros Hn Hl. unfold skipBytes.
  assert ((n <=? 0)%Z = false) as -> by lia.
  destruct (skipBytes_loop_spec (Z.to_nat n) (Nat.min (64 * 1024) (Z.to_nat n))
              (Z.to_nat n) tokenizer) as (t' & -> & Hd & Hp); try lia.
  exists t'. split; [done|]. unfold remaining. by rewrite Hd, Hp, drop_drop.
Qed.

(** ** The probes *)

(** *** Substring search *)

Lemma startsWith_spec (s p : jsstring) :
  startsWith s p = true <-> exists rest, s = p ++ rest.
Proof.
  revert s. induction p as [|c p IH]; intros s; simpl.
  - split; [by exists s|done].
  - destruct s as [|d s].
    + split; [done|]. by intros [rest ?].
    + rewrite andb_true_iff, bool_decide_eq_true, IH. split.
      * intros [-> [rest ->]]. by exists rest.
      * intros [rest [= -> ->]]. split; [done|by exists rest].
Qed.

Lemma find_sub_unfold sub s i :
  find_sub sub s i =
  if startsWith s sub then Some i
  else match s with [] => None | _ :: s' => find_sub sub s' (S i) end.
Proof. by destruct s. Qed.

Lemma find_sub_none sub s i :
  find_sub sub s i = None <-> ~ contains s sub.
Proof.
  revert i. induction s as [|c s IH]; intros i; rewrite find_sub_unfold.
  - destruct (startsWith [] sub) eqn:E.
    + split; [done|]. intros Hn. destruct Hn.
      apply startsWith_spec in E as [rest E]. by exists [], rest.
    + split; [|done]. intros _ (pre & post & Hc).
      destruct pre; [|done]. simpl in Hc.
      assert (startsWith [] sub = true) by (apply startsWith_spec; by exists post).
      congruence.
  - destruct (startsWith (c :: s) sub) eqn:E.
    + split; [done|]. intros Hn. destruct Hn.
      apply startsWith_spec in E as [rest E]. by exists [], rest.
    + rewrite IH. split.
      * intros Hn (pre & post & Hc). destruct pre as [|p pre].
        -- assert (startsWith (c :: s) sub = true)
             by (apply startsWith_spec; by exists post).
           congruence.
        -- injection Hc as -> ->. apply Hn. by exists pre, post.
      * intros Hn (pre & post & ->). apply Hn. by exists (c :: pre), post.
Qed.

Lemma find_sub_some sub s i k :
  find_sub sub s i = Some k -> contains s sub.
Proof.
  revert i. induction s as [|c s IH]; intros i; rewrite find_sub_unfold.
  - destruct (startsWith [] sub) eqn:E; [|done]. intros _.
    apply startsWith_spec in E as [rest E]. by exists [], rest.
  - destruct (startsWith (c :: s) sub) eqn:E.
    + intros _. apply startsWith_spec in E as [rest E]. by exists [], rest.
    + intros (pre & post & ->)%IH. by exists (c :: pre), post.
Qed.

Lemma includes_spec s sub : includes s sub = true <-> contains s sub.
Proof.
  unfold includes, indexOf. simpl. rewrite drop_0.
  rewrite bool_decide_eq_true.
  destruct (find_sub sub s 0) as [k|] eqn:E; simpl.
  - split; [|lia]. intros _. by eapply find_sub_some.
  - split; [done|]. intros Hc. by apply (find_sub_none sub s 0) in E.
Qed.

(** *** What the Illustrator probe matches *)

Lemma valueIncludes_spec value needle :
  valueIncludes value needle = true <->
  exists v, value = Some (Str v) /\ v <> [] /\ contains v needle.
Proof.
  unfold valueIncludes. destruct value as [[|[|c s]]|].
  - split; [done|]. by intros (v & [=] & _).
  - split; [done|]. by intros (v & [= <-] & ? & _).
  - rewrite includes_spec. split.
    + intros Hc. by exists (c :: s).
    + by intros (v & [= <-] & _ & Hc).
  - split; [done|]. by intros (v & [=] & _).
Qed.

Lemma contains_nonempty {A} (s sub : list A) : contains s sub -> sub <> [] -> s <> [].
Proof. intros (pre & post & ->) Hs. destruct pre, sub; done. Qed.

Lemma toLowerCase_app s1 s2 :
  toLowerCase (s1 ++ s2) = toLowerCase s1 ++ toLowerCase s2.
Proof. apply map_app. Qed.

Lemma checkpoint_hit_dict ctx dictText dict :
  checkpoint_hit ctx (AtDict dictText dict) =
  if bool_decide (dict !! str "Illustrator" = Some Flag)
     || includes dictText (str "/Illustrator")
     || valueIncludes (dict !! str "Creator") (str "Illustrator")
     || valueIncludes (dict !! str "Producer") (str "Illustrator")
     || includes dictText (str "Adobe Illustrator")
  then Some AI_TYPE else None.
Proof.
  unfold checkpoint_hit, subtypeProbes, hooks, createIllustratorProbe.
  cbn [omap list_omap onDict first_hit].
  case_bool_decide; [done|].
  destruct (includes dictText (str "/Illustrator")); [done|].
  destruct (valueIncludes (dict !! str "Creator") _); [done|].
  destruct (valueIncludes (dict !! str "Producer") _); [done|].
  by destruct (includes dictText (str "Adobe Illustrator")).
Qed.

Lemma checkpoint_hit_stream ctx streamText objectInfo :
  checkpoint_hit ctx (AtStreamText streamText objectInfo) =
  if includes streamText (str "Adobe Illustrator") then Some AI_TYPE else None.
Proof.
  unfold checkpoint_hit, subtypeProbes, hooks, createIllustratorProbe.
  cbn [omap list_omap onStreamText first_hit].
  by destruct (includes streamText _).
Qed.

Lemma checkpoint_hit_creatorTool ctx creatorTool :
  checkpoint_hit ctx (AtCreatorTool creatorTool) =
  if includes (toLowerCase creatorTool) (str "illustrator") then Some AI_TYPE else None.
Proof.
  unfold checkpoint_hit, subtypeProbes, hooks, createIllustratorProbe.
  cbn [omap list_omap onCreatorTool first_hit].
  by destruct (includes _ _).
Qed.

Lemma marker_hit ctx cp :
  illustrator_marker cp -> checkpoint_hit ctx cp = Some AI_TYPE.
Proof.
  destruct cp as [dictText dict| |streamText objectInfo|creatorTool]; simpl illustrator_marker.
  - intros Hm. rewrite checkpoint_hit_dict.
    destruct Hm as [Hf|[Hc|[Hc|[(v & Hv & Hc)|(v & Hv & Hc)]]]].
    + by rewrite bool_decide_true.
    + apply includes_spec in Hc. rewrite Hc. by rewrite orb_true_r.
    + apply includes_spec in Hc. rewrite Hc. by rewrite !orb_true_r.
    + assert (valueIncludes (dict !! str "Creator") (str "Illustrator") = true) as ->.
      { apply valueIncludes_spec. exists v. split; [done|]. split; [|done].
        by eapply contains_nonempty. }
      by rewrite !orb_true_r.
    + assert (valueIncludes (dict !! str "Producer") (str "Illustrator") = true) as ->.
      { apply valueIncludes_spec. exists v. split; [done|]. split; [|done].
        by eapply contains_nonempty. }
      by rewrite !orb_true_r.
  - done.
  - intros Hc%includes_spec. by rewrite checkpoint_hit_stream, Hc.
  - intros (w & (pre & post & ->) & Hw). rewrite checkpoint_hit_creatorTool.
    assert (includes (toLowerCase (pre ++ w ++ post)) (str "illustrator") = true) as ->; [|done].
    apply includes_spec. rewrite !toLowerCase_app, Hw.
    by exists (toLowerCase pre), (toLowerCase post).
Qed.

Lemma hit_is_illustrator ctx cp hit :
  checkpoint_hit ctx cp = Some hit -> hit = AI_TYPE.
Proof.
  destruct cp as [dictText dict| |streamText objectInfo|creatorTool].
  - rewrite checkpoint_hit_dict. destruct (_ || _); congruence.
  - done.
  - rewrite checkpoint_hit_stream. destruct (includes _ _); congruence.
  - rewrite checkpoint_hit_creatorTool. destruct (includes _ _); congruence.
Qed.

Ltac fold_hits :=
  repeat match goal with
  | |- context [first_hit (fun fn => fn ?ctx ?a ?b) (hooks onDict subtypeProbes)] =>
      change (first_hit (fun fn => fn ctx a b) (hooks onDict subtypeProbes))
        with (checkpoint_hit ctx (AtDict a b))
  | |- context [first_hit (fun fn => fn ?ctx ?a ?b) (hooks onStreamText subtypeProbes)] =>
      change (first_hit (fun fn => fn ctx a b) (hooks onStreamText subtypeProbes))
        with (checkpoint_hit ctx (AtStreamText a b))
  end.

(** ** The trace of a scan and the way the scan ends *)

Lemma clean_elem ctx tr cp :
  clean ctx tr -> cp ∈ tr -> checkpoint_hit ctx cp = None /\ ~ decode_fails cp.
Proof. unfold clean. rewrite Forall_forall. auto. Qed.

Lemma clean_nil ctx : clean ctx [].
Proof. constructor. Qed.

Lemma clean_app ctx tr1 tr2 : clean ctx tr1 -> clean ctx tr2 -> clean ctx (tr1 ++ tr2).
Proof. apply Forall_app_2. Qed.

Lemma clean_snoc ctx tr cp :
  clean ctx tr -> checkpoint_hit ctx cp = None -> ~ decode_fails cp ->
  clean ctx (tr ++ [cp]).
Proof. intros. apply clean_app; [done|]. by repeat constructor. Qed.

(** What escapes the XML handlers: the hit of the last text handed to
    the callback, or a fatal error event. *)
Lemma run_inv cb b evs :
  match XmlHandler.run cb b evs with
  | (None, texts) => Forall (fun v => cb v = None) texts
  | (Some t, texts) =>
      (exists texts' v, texts = texts' ++ [v] /\
         Forall (fun v => cb v = None) texts' /\ cb v = Some t)
      \/ (Forall (fun v => cb v = None) texts /\
          exists message, t = ThrownError (SaxError message) /\
            OnError message ∈ evs /\ fatal_xml_error (OnError message))
  end.
Proof.
  revert b. induction evs as [|ev evs IH]; intros b; [by constructor|].
  destruct ev as [message|uri local name|text|]; cbn [XmlHandler.run].
  - destruct (startsWith message (str "Invalid character entity")) eqn:Hs.
    + specialize (IH b). destruct (XmlHandler.run cb b evs) as [[t|] texts]; [|done].
      destruct IH as [?|(? & msg & ? & ? & ?)]; [by left|right].
      split; [done|]. exists msg. split; [done|]. split; [by right|done].
    + right. split; [done|]. exists message. split; [done|]. split; [by left|done].
  - specialize (IH (XmlHandler.onopentag uri local name)).
    destruct (XmlHandler.run cb _ evs) as [[t|] texts]; [|done].
    destruct IH as [?|(? & msg & ? & ? & ?)]; [by left|right].
    split; [done|]. exists msg. split; [done|]. split; [by right|done].
  - destruct b; cbn [negb].
    + destruct (cb text) as [t|] eqn:Hcb.
      * left. by exists [], text.
      * specialize (IH false).
        destruct (XmlHandler.run cb false evs) as [[t|] texts].
        -- destruct IH as [(texts' & v & -> & ? & ?)|(? & msg & ? & ? & ?)].
           ++ left. exists (text :: texts'), v. split; [done|]. split; [|done].
              by constructor.
           ++ right. split; [by constructor|]. exists msg.
              split; [done|]. split; [by right|done].
        -- by constructor.
    + specialize (IH false).
      destruct (XmlHandler.run cb false evs) as [[t|] texts]; [|done].
      destruct IH as [?|(? & msg & ? & ? & ?)]; [by left|right].
      split; [done|]. exists msg. split; [done|]. split; [by right|done].
  - specialize (IH false).
    destruct (XmlHandler.run cb false evs) as [[t|] texts]; [|done].
    destruct IH as [?|(? & msg & ? & ? & ?)]; [by left|right].
    split; [done|]. exists msg. split; [done|]. split; [by right|done].
Qed.

Lemma clean_creatorTool ctx texts :
  Forall (fun v => ThrownHit <$> checkpoint_hit ctx (AtCreatorTool v) = None) texts ->
  clean ctx (AtCreatorTool <$> texts).
Proof.
  intros H. apply Forall_fmap. eapply Forall_impl; [exact H|].
  intros v Hv. cbv beta in *. split; [|by intros []].
  by destruct (checkpoint_hit ctx (AtCreatorTool v)).
Qed.

Section Invariant.
Context {R : Type} {LR : LineReader R}.
Variable ctx : ProbeContext.

Lemma scan_xmp_inv (s : ScanState R) objectInfo streamText :
  clean ctx (trace s) -> step_inv ctx (scan_xmp ctx s objectInfo streamText).
Proof.
  intros Hc. unfold scan_xmp.
  destruct (looksLikeXmp objectInfo && _); [|done].
  match goal with |- context [XmlHandler.run ?cb ?b ?evs] =>
    pose proof (run_inv cb b evs) as Hr; destruct (XmlHandler.run cb b evs) as [[t|] texts]
  end.
  - destruct Hr as [(texts' & v & -> & Hf & Hv)|(Hf & msg & -> & _)].
    + change (ThrownHit <$> checkpoint_hit ctx (AtCreatorTool v) = Some t) in Hv.
      destruct (checkpoint_hit ctx (AtCreatorTool v)) as [hit|] eqn:Hh; [|done].
      injection Hv as <-. simpl.
      exists (trace s ++ (AtCreatorTool <$> texts')), (AtCreatorTool v).
      split; [by rewrite fmap_app, app_assoc|]. split; [|done].
      apply clean_app; [done|]. by apply clean_creatorTool.
    + simpl. left. apply clean_app; [done|]. by apply clean_creatorTool.
  - simpl. apply clean_app; [done|]. by apply clean_creatorTool.
Qed.

Lemma scan_stream_inv (s : ScanState R) objectInfo :
  clean ctx (trace s) -> step_inv ctx (scan_stream ctx s objectInfo).
Proof.
  intros Hc. unfold scan_stream.
  destruct (objectInfo !! str "Length") as [[|[|c lenVal]]|]; try done.
  destruct (parseInt10 (c :: lenVal)) as [|streamLength|]; try done.
  destruct (streamLength <? 0)%Z; [done|].
  destruct (lr_consumeStreamEol (reader s)) as [rdr|e]; [|by left].
  destruct (lr_readBytes streamLength rdr) as [[[rawBytes|] rdr']|e]; [|done|by left].
  destruct (decodeStreamBytes objectInfo rawBytes) as [decoded|e] eqn:Hd.
  - fold_hits.
    assert (clean ctx (trace s ++ [AtDecode objectInfo rawBytes])) as Hc1.
    { apply clean_snoc; [done|done|]. simpl. intros [e He]. congruence. }
    destruct (checkpoint_hit ctx (AtStreamText (textDecode decoded) objectInfo)) as [hit|] eqn:Hh.
    + simpl. by eexists _, _.
    + apply scan_xmp_inv. simpl. apply clean_snoc; [done|done|]. by intros [].
  - simpl. right. by eexists _, _, _.
Qed.

Lemma readLine_trace (s s' : ScanState R) o :
  readLine s = Ok (o, s') -> trace s' = trace s.
Proof.
  unfold readLine. destruct (pendingLine s); [by intros [= <- <-]|].
  destruct (lr_readLine (reader s)) as [[l r]|e]; simpl; [|done].
  by intros [= <- <-].
Qed.

Lemma scan_dict_inv (s : ScanState R) dictText streamInline :
  clean ctx (trace s) -> step_inv ctx (scan_dict ctx s dictText streamInline).
Proof.
  intros Hc. unfold scan_dict. fold_hits.
  destruct (checkpoint_hit ctx (AtDict dictText (parseDictFromRaw dictText))) as [hit|] eqn:Hh.
  - simpl. by eexists _, _.
  - assert (clean ctx (trace (record s [AtDict dictText (parseDictFromRaw dictText)]))) as Hc1.
    { simpl. apply clean_snoc; [done|done|]. by intros []. }
    destruct streamInline; [by apply scan_stream_inv|].
    destruct (readLine (record s _)) as [[[nextLine|] s']|e] eqn:Hrl; [| |by left].
    + apply readLine_trace in Hrl.
      case_bool_decide; [apply scan_stream_inv|simpl]; by rewrite Hrl.
    + apply readLine_trace in Hrl. simpl. by rewrite Hrl.
Qed.

Lemma scan_body_inv (s : ScanState R) :
  clean ctx (trace s) -> step_inv ctx (scan_body ctx s).
Proof.
  intros Hc. unfold scan_body.
  destruct (readLine s) as [[[line|] s']|e] eqn:Hrl; [| |by left].
  - apply readLine_trace in Hrl. rewrite <- Hrl in Hc.
    destruct (state s').
    + by destruct (OBJ_REGEX line).
    + case_bool_decide; [done|].
      destruct (negb (includes line (str "<<"))); [done|].
      destruct (readDictionaryBlock (reader s') line) as [[block rdr]|e]; [|by left].
      destruct (dictText block) as [[|c t]|]; try done.
      by apply scan_dict_inv.
  - apply readLine_trace in Hrl. simpl. by rewrite Hrl.
Qed.

Lemma scan_loop_inv n (s : ScanState R) :
  clean ctx (trace s) ->
  scan_inv ctx (scan_loop ctx n s).1 (trace (scan_loop ctx n s).2).
Proof.
  revert s. induction n as [|n IH]; intros s Hc; simpl; [done|].
  pose proof (scan_body_inv (incr_scannedLines s) Hc) as Hs.
  destruct (scan_body ctx (incr_scannedLines s)); simpl in *; auto.
Qed.

End Invariant.

(** ** When a scan fails *)

(** *** The reader of the specification never fails *)

Lemma next_line_shorter c l c' :
  next_line c = (Some l, c') -> length c' < length c.
Proof.
  unfold next_line. destruct (find_byte LF c 0) as [i|] eqn:Hf.
  - intros [= <- <-]. apply find_byte_bounds in Hf. rewrite length_drop. lia.
  - destruct c; [done|]. intros [= <- <-]. simpl. lia.
Qed.

Lemma content_readLine (s : ScanState (list byte)) :
  exists o s', readLine s = Ok (o, s').
Proof.
  unfold readLine. destruct (pendingLine s); [by eexists _, _|].
  simpl. destruct (next_line (reader s)). by eexists _, _.
Qed.

Lemma content_readDictionaryBlock_loop fuel (c : list byte) raw :
  length c < fuel -> exists raw' c', readDictionaryBlock_loop fuel c raw = Ok (raw', c').
Proof.
  revert c raw. induction fuel as [|fuel IH]; intros c raw Hf; [lia|].
  simpl. destruct (includes raw (str ">>")); [by eexists _, _|].
  destruct (next_line c) as [[l|] c'] eqn:Hn; simpl; [|by eexists _, _].
  apply IH. apply next_line_shorter in Hn. lia.
Qed.

Lemma content_readDictionaryBlock (c : list byte) firstLine :
  exists block c', readDictionaryBlock c firstLine = Ok (block, c').
Proof.
  unfold readDictionaryBlock.
  destruct (content_readDictionaryBlock_loop (S (lr_unread c)) c firstLine)
    as (raw & c' & ->); [simpl; lia|].
  cbn [mbind result_bind]. destruct (_ || _); by eexists _, _.
Qed.

Lemma decode_loop_error filters rawBytes out e :
  decode_loop filters rawBytes out = Err e -> e = DecompressionFailed.
Proof.
  revert out. induction filters as [|f fs IH]; intros out; simpl; [done|].
  case_bool_decide; [|done].
  unfold inflateFlateDecode, inflateWithFormat.
  destruct (decompress deflate out) as [o|]; simpl; [apply IH|].
  destruct (decompress deflate_raw out) as [o|]; simpl; [apply IH|congruence].
Qed.

Lemma decodeStreamBytes_error objectInfo rawBytes e :
  decodeStreamBytes objectInfo rawBytes = Err e -> e = DecompressionFailed.
Proof.
  unfold decodeStreamBytes. case_bool_decide; [done|].
  apply decode_loop_error.
Qed.

Lemma no_failure_app tr1 tr2 : no_failure (tr1 ++ tr2) -> no_failure tr2.
Proof. by intros [_ ?]%Forall_app. Qed.

Lemma no_failure_app_l tr1 tr2 : no_failure (tr1 ++ tr2) -> no_failure tr1.
Proof. by intros [? _]%Forall_app. Qed.

Lemma failure_at_spec e tr : failure_at e tr -> ~ no_failure tr /\ scan_failure e.
Proof.
  intros [(-> & tr' & objectInfo & rawBytes & -> & Hd)
         |(message & tr' & streamText & objectInfo & texts & -> & -> & Hx & Hin & Hf)].
  - split; [|by left]. intros Hnf%no_failure_app.
    apply Forall_cons_1 in Hnf as [[Hnf _] _]. apply Hnf. by eexists.
  - split; [|right; by eexists]. intros Hnf%no_failure_app.
    apply Forall_cons_1 in Hnf as [[_ Hnf] _].
    specialize (Hnf Hx). rewrite Forall_forall in Hnf.
    by apply (Hnf ltac:(done) _ Hin).
Qed.

Lemma failure_at_app e tr0 tr : failure_at e tr -> failure_at e (tr0 ++ tr).
Proof.
  intros [(-> & tr' & objectInfo & rawBytes & -> & Hd)
         |(message & tr' & streamText & objectInfo & texts & -> & -> & Hx & Hin & Hf)].
  - left. split; [done|]. exists (tr0 ++ tr'), objectInfo, rawBytes.
    by rewrite app_assoc.
  - right. exists message, (tr0 ++ tr'), streamText, objectInfo, texts.
    by rewrite app_assoc.
Qed.

Lemma next_bytes_ok n c :
  (n <? 0)%Z = false -> exists o c', next_bytes n c = Ok (o, c').
Proof.
  intros Hn. unfold next_bytes. rewrite Hn.
  destruct (n =? 0)%Z; [by eexists _, _|].
  destruct (length c <? Z.to_nat n); by eexists _, _.
Qed.

Section Throw.
#[local] Opaque subtypeProbes looksLikeXmp parseInt10 parseDictFromRaw.
Variable ctx : ProbeContext.

Lemma content_scan_xmp_throw (s : ScanState (list byte)) objectInfo streamText e s' :
  scan_xmp ctx s objectInfo streamText = Throw e s' ->
  exists message texts,
    e = SaxError message /\
    trace s' = trace s ++ (AtCreatorTool <$> texts) /\
    looksLikeXmp objectInfo = true /\
    OnError message ∈ saxParse streamText /\
    fatal_xml_error (OnError message).
Proof.
  unfold scan_xmp.
  destruct (looksLikeXmp objectInfo) eqn:Hx; cbn [andb]; [|done].
  destruct (negb _); [|done].
  match goal with |- context [XmlHandler.run ?cb ?b ?evs] =>
    pose proof (run_inv cb b evs) as Hr; destruct (XmlHandler.run cb b evs) as [[t|] texts]
  end; [|done].
  destruct t as [hit|e']; [done|]. intros [= <- <-].
  destruct Hr as [(texts' & v & -> & Hf & Hv)|(Hf & msg & Hmsg & Hin & Hfatal)].
  - exfalso. revert Hv. clear.
    destruct (first_hit _ _); simpl; congruence.
  - injection Hmsg as ->. by exists msg, texts.
Qed.

Lemma content_scan_stream_throw (s : ScanState (list byte)) objectInfo e s' :
  scan_stream ctx s objectInfo = Throw e s' -> failure_at e (trace s').
Proof.
  unfold scan_stream.
  destruct (objectInfo !! str "Length") as [[|[|c lenVal]]|]; try done.
  destruct (parseInt10 (c :: lenVal)) as [|streamLength|]; try done.
  destruct (streamLength <? 0)%Z eqn:Hneg; [done|].
  simpl. destruct (next_bytes_ok _ (skip_eol (reader s)) Hneg) as (o & rdr & ->).
  destruct o as [rawBytes|]; [|done].
  destruct (decodeStreamBytes objectInfo rawBytes) as [decoded|e0] eqn:Hd.
  - case_first_hit; [done|].
    intros (message & texts & -> & Htr & Hx & Hin & Hf)%content_scan_xmp_throw.
    simpl in Htr. right.
    exists message, (trace s ++ [AtDecode objectInfo rawBytes]),
      (textDecode decoded), objectInfo, texts.
    split; [done|]. split; [by rewrite Htr, <- !app_assoc|done].
  - intros [= <- <-]. apply decodeStreamBytes_error in Hd as Hd'. subst e0.
    left. split; [done|]. by exists (trace s), objectInfo, rawBytes.
Qed.

Lemma content_scan_dict_throw (s : ScanState (list byte)) dictText streamInline e s' :
  scan_dict ctx s dictText streamInline = Throw e s' -> failure_at e (trace s').
Proof.
  unfold scan_dict. case_first_hit; [done|].
  set (s1 := record s _).
  destruct streamInline; [by apply content_scan_stream_throw|].
  destruct (content_readLine s1) as (o & s2 & Hrl). rewrite Hrl.
  destruct o as [nextLine|]; [|done].
  case_bool_decide; [by apply content_scan_stream_throw|done].
Qed.

Lemma content_scan_body_throw (s : ScanState (list byte)) e s' :
  scan_body ctx s = Throw e s' -> failure_at e (trace s').
Proof.
  unfold scan_body.
  destruct (content_readLine s) as (o & s1 & Hrl). rewrite Hrl.
  destruct o as [line|]; [|done].
  destruct (state s1); [by destruct (OBJ_REGEX line)|].
  case_bool_decide; [done|].
  destruct (negb (includes line (str "<<"))); [done|].
  destruct (content_readDictionaryBlock (reader s1) line) as (block & c' & ->).
  destruct (dictText block) as [[|c t]|]; try done.
  apply content_scan_dict_throw.
Qed.

End Throw.

Ltac frame_same := split; [done|]; exists []; simpl; by rewrite app_nil_r.

(** *** What a turn of the loop leaves alone *)

Lemma frame_refl {R} (s : ScanState R) : frame s s.
Proof. split; [done|]. exists []. by rewrite app_nil_r. Qed.

Lemma frame_trans {R} (s1 s2 s3 : ScanState R) :
  frame s1 s2 -> frame s2 s3 -> frame s1 s3.
Proof.
  intros [Hk1 [tr1 Ht1]] [Hk2 [tr2 Ht2]]. split; [congruence|].
  exists (tr1 ++ tr2). by rewrite Ht2, Ht1, app_assoc.
Qed.

Lemma frame_record {R} (s : ScanState R) cps : frame s (record s cps).
Proof. split; [done|]. by exists cps. Qed.

Section Frame.
#[local] Opaque subtypeProbes looksLikeXmp parseInt10 parseDictFromRaw.
Context {R : Type} {LR : LineReader R}.
Variable ctx : ProbeContext.

Lemma readLine_frame (s s' : ScanState R) o :
  readLine s = Ok (o, s') -> frame s s'.
Proof.
  unfold readLine. destruct (pendingLine s).
  - intros [= <- <-]. frame_same.
  - destruct (lr_readLine (reader s)) as [[l r]|e]; simpl; [|done].
    intros [= <- <-]. frame_same.
Qed.

Lemma scan_xmp_frame (s : ScanState R) objectInfo streamText :
  frame s (step_state (scan_xmp ctx s objectInfo streamText)).
Proof.
  unfold scan_xmp.
  destruct (looksLikeXmp objectInfo && _); [|apply frame_refl].
  destruct (XmlHandler.run _ _ _) as [[[?|?]|] texts]; apply frame_record.
Qed.

Lemma scan_stream_frame (s : ScanState R) objectInfo :
  frame s (step_state (scan_stream ctx s objectInfo)).
Proof.
  unfold scan_stream.
  destruct (objectInfo !! str "Length") as [[|[|c lenVal]]|]; try frame_same.
  destruct (parseInt10 (c :: lenVal)) as [|streamLength|]; try frame_same.
  destruct (streamLength <? 0)%Z; [frame_same|].
  destruct (lr_consumeStreamEol (reader s)) as [rdr|?]; [|frame_same].
  destruct (lr_readBytes streamLength rdr) as [[[rawBytes|] rdr']|?];
    try frame_same.
  set (s1 := record (set_reader s rdr') _).
  assert (frame s s1) as H1 by (split; [done|]; by eexists).
  destruct (decodeStreamBytes objectInfo rawBytes) as [decoded|?]; [|done].
  set (s2 := record s1 _).
  assert (frame s s2) as H2 by (eapply frame_trans; [done|apply frame_record]).
  case_first_hit; [done|].
  eapply frame_trans; [done|apply scan_xmp_frame].
Qed.

Lemma scan_dict_frame (s : ScanState R) dictText streamInline :
  frame s (step_state (scan_dict ctx s dictText streamInline)).
Proof.
  unfold scan_dict. set (s1 := record s _).
  assert (frame s s1) as H1 by apply frame_record.
  case_first_hit; [done|].
  destruct streamInline; [eapply frame_trans; [done|apply scan_stream_frame]|].
  destruct (readLine s1) as [[[nextLine|] s2]|?] eqn:Hrl; [| |done].
  - apply readLine_frame in Hrl.
    assert (frame s s2) as H2 by (by eapply frame_trans).
    case_bool_decide; [eapply frame_trans; [done|apply scan_stream_frame]|].
    destruct H2 as [? [tr ?]]. split; [done|]. by exists tr.
  - apply readLine_frame in Hrl. by eapply frame_trans.
Qed.

Lemma scan_body_frame (s : ScanState R) :
  frame s (step_state (scan_body ctx s)).
Proof.
  unfold scan_body.
  destruct (readLine s) as [[[line|] s1]|?] eqn:Hrl; [| |apply frame_refl].
  - apply readLine_frame in Hrl.
    assert (forall st, frame s (set_state s1 st)) as Hset.
    { intros st. destruct Hrl as [? [tr ?]]. split; [done|]. by exists tr. }
    destruct (state s1); [by destruct (OBJ_REGEX line)|].
    case_bool_decide; [done|].
    destruct (negb (includes line (str "<<"))); [done|].
    destruct (readDictionaryBlock (reader s1) line) as [[block rdr]|?]; [|done].
    assert (frame s (set_reader s1 rdr)) as Hrd.
    { destruct Hrl as [? [tr ?]]. split; [done|]. by exists tr. }
    destruct (dictText block) as [[|c t]|]; try done.
    eapply frame_trans; [done|apply scan_dict_frame].
  - by apply readLine_frame in Hrl.
Qed.

(** The loop runs at most [budget] turns: [scannedLines], which counts
    the tests of the loop condition, ends at most one above it. *)
Lemma scan_loop_scannedLines budget (s : ScanState R) :
  scannedLines (scan_loop ctx budget s).2 <= scannedLines s + budget + 1.
Proof.
  revert s. induction budget as [|budget IH]; intros s; simpl; [lia|].
  pose proof (scan_body_frame (incr_scannedLines s)) as [Hk _].
  destruct (scan_body ctx (incr_scannedLines s)) as [s1|s1|hit s1|e1 s1];
    simpl in *; try lia.
  specialize (IH s1). lia.
Qed.

End Frame.

Lemma content_scan_loop_throw ctx n (s : ScanState (list byte)) e :
  (scan_loop ctx n s).1 = Threw e -> failure_at e (trace (scan_loop ctx n s).2).
Proof.
  revert s. induction n as [|n IH]; intros s; simpl; [done|].
  destruct (scan_body ctx (incr_scannedLines s)) as [s1|s1|hit s1|e1 s1] eqn:Hb;
    simpl in *; try done.
  - apply IH.
  - intros [= <-]. by apply content_scan_body_throw in Hb.
Qed.

(** *** The call as a scan of the bytes after the preamble *)

Lemma peekPdfHeader_remaining t1 t2 :
  remaining t1 = remaining t2 -> peekPdfHeader t1 = peekPdfHeader t2.
Proof. intros H. unfold peekPdfHeader, peekBuffer. by rewrite H. Qed.

Lemma detect_run_not_pdf tokenizer opts :
  isPdf (peekPdfHeader tokenizer) = false ->
  _detectPdf_run tokenizer opts = mkRun (Ok None) tokenizer 0 [].
Proof. intros H. unfold _detectPdf_run. by rewrite H. Qed.

Lemma detect_run_pdf tokenizer opts :
  isPdf (peekPdfHeader tokenizer) = true ->
  let input :=
    drop (Z.to_nat (headerOffset (peekPdfHeader tokenizer))) (remaining tokenizer) in
  let os := scan_content input (default 50000%Z (opt_maxScanLines opts)) in
  let run := _detectPdf_run tokenizer opts in
  run_result run = outcome_result os.1 /\
  run_trace run = trace os.2 /\
  run_scannedLines run = scannedLines os.2.
Proof.
  intros Hpdf. destruct (peekPdfHeader_found _ Hpdf) as (j & rest & Hoff & Hlen & _).
  cbv zeta. unfold _detectPdf_run. rewrite Hpdf, Hoff, Nat2Z.id.
  cbn [negb].
  assert (j <= length (remaining tokenizer)) as Hj.
  { rewrite length_take in Hlen. lia. }
  assert (exists tokenizer',
            (if (0 <? Z.of_nat j)%Z then skipBytes tokenizer (Z.of_nat j) else Ok tokenizer)
              = Ok tokenizer' /\
            remaining tokenizer' = drop j (remaining tokenizer)) as (tk' & -> & Hrem).
  { destruct (0 <? Z.of_nat j)%Z eqn:Hz.
    - destruct (skipBytes_spec tokenizer (Z.of_nat j)) as (tk' & Hs & Hr); [lia|lia|].
      exists tk'. split; [done|]. by rewrite Hr, Nat2Z.id.
    - exists tokenizer. split; [done|]. assert (j = 0) as -> by lia. done. }
  rewrite <- Hrem. unfold scan_content.
  set (n := Z.to_nat (default 50000%Z (opt_maxScanLines opts))).
  set (dbg := default false (opt_debug opts)).
  rewrite (scan_loop_ctx (mkContext dbg) (mkContext false)).
  pose proof (sim_scan_loop refines
                refines_readLine refines_readBytes refines_consumeStreamEol
                refines_unread (mkContext false) n
                (mkScan (PdfTokenizerReader.new tk' None dbg) None ROOT 0 [])
                (mkScan (remaining tk') None ROOT 0 [])) as [Ho Hs].
  { split; [apply (refines_new tk' None dbg)|done]. }
  destruct (scan_loop _ n (mkScan (PdfTokenizerReader.new tk' None dbg) None ROOT 0 []))
    as [o1 s1].
  destruct (scan_loop _ n (mkScan (remaining tk') None ROOT 0 [])) as [o2 s2].
  simpl in *. subst o2. destruct Hs as (_ & _ & _ & Hk & Htr).
  split; [by destruct o1|]. done.
Qed.

(** ** The claims about a whole call *)

(** The trace of a call and the way the call ended. *)
Lemma detect_run_inv tokenizer opts :
  isPdf (peekPdfHeader tokenizer) = true ->
  exists o,
    run_result (_detectPdf_run tokenizer opts) = outcome_result o /\
    scan_inv (mkContext false) o (run_trace (_detectPdf_run tokenizer opts)) /\
    (forall e, o = Threw e ->
       ~ no_failure (run_trace (_detectPdf_run tokenizer opts)) /\ scan_failure e).
Proof.
  intros Hpdf. destruct (detect_run_pdf tokenizer opts Hpdf)
    as (Hres & Htr & _).
  unfold scan_content in *.
  match type of Hres with context [scan_loop ?c ?n ?s] =>
    pose proof (scan_loop_inv c n s) as Hinv;
    pose proof (content_scan_loop_throw c n s) as Hthrow;
    destruct (scan_loop c n s) as [o s'] end.
  simpl in *. exists o. split; [done|]. rewrite Htr. split.
  - apply Hinv. apply clean_nil.
  - intros e ->. by apply failure_at_spec, Hthrow.
Qed.

(** Where a call that fails stands. *)
Lemma detect_run_failure tokenizer opts e :
  run_result (_detectPdf_run tokenizer opts) = Err e ->
  failure_at e (run_trace (_detectPdf_run tokenizer opts)).
Proof.
  destruct (isPdf (peekPdfHeader tokenizer)) eqn:Hpdf; cycle 1.
  { by rewrite detect_run_not_pdf. }
  destruct (detect_run_pdf tokenizer opts Hpdf)
    as (-> & -> & _).
  unfold scan_content.
  match goal with |- context [scan_loop ?c ?n ?s] =>
    pose proof (content_scan_loop_throw c n s) as Hthrow;
    destruct (scan_loop c n s) as [o s'] end.
  simpl in *. destruct o; simpl; try done. intros [= ->]. by apply Hthrow.
Qed.

Lemma short_no_signature (bs : list byte) :
  length bs < 5 -> ~ contains (take 1024 bs) (bytes_of "%PDF-").
Proof.
  intros Hl (pre & post & Hc). apply (f_equal length) in Hc.
  rewrite length_take, !length_app in Hc.
  change (length (bytes_of "%PDF-")) with 5 in Hc. lia.
Qed.

(** C1.  An input whose first 1024 bytes do not contain the signature
    [%PDF-], in particular an input shorter than the signature, is reported
    as "no match" and the byte source is left exactly as it was. *)
Theorem detect_non_pdf_untouched tokenizer opts :
  ~ contains (take 1024 (remaining tokenizer)) (bytes_of "%PDF-")
  \/ length (remaining tokenizer) < 5 ->
  _detectPdf tokenizer opts = (Ok None, tokenizer) /\
  position (_detectPdf tokenizer opts).2 = position tokenizer.
Proof.
  intros H. assert (~ contains (take 1024 (remaining tokenizer)) (bytes_of "%PDF-")) as Hn.
  { destruct H as [?|?%short_no_signature]; done. }
  unfold _detectPdf. rewrite detect_run_not_pdf; [done|].
  by rewrite peekPdfHeader_none.
Qed.

(** A scan that meets no probe match and no failure ends with the generic
    classification. *)
Lemma quiet_scan_is_pdf tokenizer opts :
  contains (take 1024 (remaining tokenizer)) (bytes_of "%PDF-") ->
  (forall cp, cp ∈ run_trace (_detectPdf_run tokenizer opts) ->
              checkpoint_hit (mkContext false) cp = None) ->
  no_failure (run_trace (_detectPdf_run tokenizer opts)) ->
  (_detectPdf tokenizer opts).1 = Ok (Some PDF_TYPE).
Proof.
  intros Hsig%peekPdfHeader_some Hnohit Hnf.
  destruct (detect_run_inv tokenizer opts Hsig) as (o & Hres & Hinv & Hthrow).
  unfold _detectPdf. simpl. rewrite Hres.
  destruct o as [|hit|e]; [done| |].
  - destruct Hinv as (tr & cp & Htr & _ & Hhit).
    rewrite Hnohit in Hhit; [done|]. rewrite Htr.
    apply elem_of_app. right. by apply list_elem_of_singleton.
  - destruct (Hthrow e eq_refl) as [Hfail _]. done.
Qed.

(** Every loop of the embedding is given enough turns: a call ends with a
    classification, with "no match", or with a decode or XML failure. *)
Lemma detect_fuel_suffices tokenizer opts :
  match (_detectPdf tokenizer opts).1 with
  | Ok _ => True
  | Err e => scan_failure e
  end.
Proof.
  unfold _detectPdf. simpl.
  destruct (isPdf (peekPdfHeader tokenizer)) eqn:Hpdf; cycle 1.
  { by rewrite detect_run_not_pdf. }
  destruct (detect_run_inv tokenizer opts Hpdf) as (o & -> & _ & Hthrow).
  destruct o as [|hit|e]; simpl; try done. by destruct (Hthrow e eq_refl).
Qed.


Lemma decodeStreamBytes_flate_fails objectInfo rawBytes :
  normalizeFilters (objectInfo !! str "Filter") = [FlateDecode] ->
  decompress deflate rawBytes = None ->
  decompress deflate_raw rawBytes = None ->
  decodeStreamBytes objectInfo rawBytes = Err DecompressionFailed.
Proof.
  intros Hf Hd Hr. unfold decodeStreamBytes. rewrite Hf. simpl.
  unfold inflateFlateDecode, inflateWithFormat. by rewrite Hd, Hr.
Qed.

(** A stream that the scan decodes with the filter chain FlateDecode
    alone, the chain of a [Filter] value written without its solidus, and
    whose data inflates neither as zlib-wrapped nor as raw deflate, makes
    the decode step fail and the whole call fail with that error. *)
Lemma flate_failure_propagates tokenizer opts objectInfo rawBytes :
  AtDecode objectInfo rawBytes ∈ run_trace (_detectPdf_run tokenizer opts) ->
  normalizeFilters (objectInfo !! str "Filter") = [FlateDecode] ->
  decompress deflate rawBytes = None ->
  decompress deflate_raw rawBytes = None ->
  decodeStreamBytes objectInfo rawBytes = Err DecompressionFailed /\
  (_detectPdf tokenizer opts).1 = Err DecompressionFailed.
Proof.
  intros Hin Hf Hd Hr.
  pose proof (decodeStreamBytes_flate_fails _ _ Hf Hd Hr) as Hdec.
  split; [done|].
  destruct (isPdf (peekPdfHeader tokenizer)) eqn:Hpdf; cycle 1.
  { rewrite detect_run_not_pdf in Hin by done. simpl in Hin. set_solver. }
  destruct (detect_run_inv tokenizer opts Hpdf) as (o & Hres & Hinv & _).
  assert (forall tr, clean (mkContext false) tr -> AtDecode objectInfo rawBytes ∉ tr)
    as Hclean.
  { intros tr Hc Hcp. destruct (clean_elem _ _ _ Hc Hcp) as [_ Hnf].
    apply Hnf. simpl. by eexists. }
  unfold _detectPdf. simpl. rewrite Hres.
  destruct o as [|hit|e]; simpl in Hinv.
  - by destruct (Hclean _ Hinv).
  - destruct Hinv as (tr & cp0 & Htr & Hc & Hhit0). rewrite Htr in Hin.
    apply elem_of_app in Hin as [Hin|Hin]; [by destruct (Hclean _ Hc)|].
    apply list_elem_of_singleton in Hin as <-. done.
  - destruct Hinv as [Hc|(tr & d & raw & Htr & Hc & He)]; [by destruct (Hclean _ Hc)|].
    rewrite Htr in Hin.
    apply elem_of_app in Hin as [Hin|Hin]; [by destruct (Hclean _ Hc)|].
    apply list_elem_of_singleton in Hin as [= <- <-]. simpl. congruence.
Qed.

(** C9.  The result of a call depends only on the bytes ahead of the
    cursor and on [maxScanLines]: two cursors over the same bytes give the
    same classification or the same failure, whatever [debug] is. *)
Theorem detect_deterministic t1 t2 o1 o2 :
  remaining t1 = remaining t2 ->
  opt_maxScanLines o1 = opt_maxScanLines o2 ->
  (_detectPdf t1 o1).1 = (_detectPdf t2 o2).1.
Proof.
  intros Hrem Hmax. pose proof (peekPdfHeader_remaining _ _ Hrem) as Hhdr.
  unfold _detectPdf. simpl.
  destruct (isPdf (peekPdfHeader t1)) eqn:Hpdf.
  - destruct (detect_run_pdf t1 o1 Hpdf) as (-> & _).
    rewrite Hhdr in Hpdf.
    destruct (detect_run_pdf t2 o2 Hpdf) as (-> & _).
    by rewrite Hhdr, Hrem, Hmax.
  - rewrite detect_run_not_pdf by done. rewrite Hhdr in Hpdf.
    by rewrite detect_run_not_pdf by done.
Qed.

(** *** readLine delivers the lines of the input *)

Lemma spec_lines_from_find cur bs :
  spec_lines_from cur bs =
  match find_byte LF bs 0 with
  | Some i => strip_cr (cur ++ take i bs) :: spec_lines (drop (S i) bs)
  | None => match cur ++ bs with [] => [] | l => [l] end
  end.
Proof.
  revert cur. induction bs as [|b bs IH]; intros cur; simpl.
  - rewrite app_nil_r. by destruct cur.
  - case_bool_decide as Hb.
    + by rewrite app_nil_r.
    + rewrite IH, (find_byte_shift _ _ 1).
      destruct (find_byte LF bs 0) as [i|]; simpl.
      * by rewrite <- app_assoc.
      * by rewrite <- app_assoc.
Qed.

Lemma spec_lines_next c :
  spec_lines c =
  match next_line c with
  | (Some l, c') => l :: spec_lines c'
  | (None, _) => []
  end.
Proof.
  unfold spec_lines at 1. rewrite spec_lines_from_find. unfold next_line.
  destruct (find_byte LF c 0); [done|]. by destruct c.
Qed.

Lemma next_line_none c c' : next_line c = (None, c') -> c = [] /\ c' = [].
Proof.
  unfold next_line. destruct (find_byte LF c 0); [done|].
  destruct c; [|done]. by intros [= <-].
Qed.

Lemma take_app_replicate {A} n (l : list A) x :
  take n (l ++ replicate (S n) x) = take n (l ++ replicate n x).
Proof.
  rewrite !take_app, !take_replicate. do 2 f_equal. lia.
Qed.

Lemma readLines_spec n r c :
  refines r c -> readLines n r = Ok (lines_then_null n c).
Proof.
  revert r c. induction n as [|n IH]; intros r c Href; [done|].
  destruct Href as [Hwf <-].
  destruct (readLine_spec r Hwf) as (r' & Hrl & Href').
  simpl. rewrite Hrl. cbn [mbind result_bind].
  rewrite (IH r' _ Href'). cbn [mbind result_bind]. f_equal.
  unfold lines_then_null. rewrite (spec_lines_next (content r)).
  destruct (next_line (content r)) as [[l|] c'] eqn:Hn;
    cbn [fmap option_fmap option_map fst snd].
  - rewrite fmap_cons. cbn [app firstn]. f_equal. by rewrite take_app_replicate.
  - apply next_line_none in Hn as [_ ->].
    change (spec_lines []) with (@nil (list byte)).
    rewrite fmap_nil. cbn [replicate app firstn]. f_equal.
Qed.

(** C8.  Successive calls of [readLine()] on a reader over any bytes
    return the lines of the input in order, each without its [\n] or
    [\r\n] terminator, the unterminated rest once as a last line, and
    "no more lines" from then on. *)
Theorem readLine_delivers_lines tokenizer chunk dbg n :
  readLines n (PdfTokenizerReader.new tokenizer (S <$> chunk) dbg)
  = Ok (lines_then_null n (remaining tokenizer)).
Proof. apply readLines_spec, refines_new. Qed.

(** *** Lines that open no dictionary cost one turn of the loop each *)

Lemma find_byte_notin b l i : b ∉ l -> find_byte b l i = None.
Proof.
  revert i. induction l as [|c l IH]; intros i Hn; simpl; [done|].
  rewrite bool_decide_false by set_solver. apply IH. set_solver.
Qed.

Lemma strip_cr_plain l : CR ∉ l -> strip_cr l = l.
Proof.
  intros Hn. unfold strip_cr. rewrite bool_decide_false; [done|].
  intros Hl. apply Hn. apply last_Some in Hl as [l' ->]. set_solver.
Qed.

Lemma next_line_plain l rest :
  LF ∉ l -> CR ∉ l -> next_line (l ++ LF :: rest) = (Some l, rest).
Proof.
  intros Hlf Hcr. unfold next_line.
  rewrite find_byte_app, (find_byte_notin _ _ _ Hlf). simpl.
  rewrite take_app_length, strip_cr_plain by done.
  replace (l ++ LF :: rest) with ((l ++ [LF]) ++ rest) by (by rewrite <- app_assoc).
  rewrite drop_app_length'; [done|]. rewrite length_app. simpl. lia.
Qed.

Lemma encode_lines_cons l ls rest :
  encode_lines (l :: ls) ++ rest = l ++ LF :: (encode_lines ls ++ rest).
Proof. unfold encode_lines. simpl. by rewrite <- !app_assoc. Qed.

Lemma content_scan_body_plain ctx l rest st k tr :
  plain_line l ->
  exists st',
    scan_body ctx (mkScan (l ++ LF :: rest) None st k tr)
    = Continue (mkScan rest None st' k tr).
Proof.
  intros (Hlf & Hcr & Hinc). unfold scan_body, readLine.
  cbn [pendingLine reader lr_readLine content_LineReader].
  rewrite next_line_plain by done. cbn [mbind result_bind fmap option_fmap option_map].
  cbn [state set_reader pendingLine scannedLines trace].
  destruct st.
  - destruct (OBJ_REGEX (latin1 l)); by eexists.
  - case_bool_decide; [by eexists|]. rewrite Hinc. by eexists.
Qed.

Lemma content_scan_loop_plain ctx n ls rest st k tr :
  Forall plain_line ls -> n <= length ls ->
  exists st',
    scan_loop ctx n (mkScan (encode_lines ls ++ rest) None st k tr)
    = (LoopEnded, mkScan (encode_lines (drop n ls) ++ rest) None st' (k + n + 1) tr).
Proof.
  revert ls st k. induction n as [|n IH]; intros ls st k Hall Hn.
  - exists st. simpl. unfold incr_scannedLines. simpl. do 2 f_equal. lia.
  - destruct ls as [|l ls]; [simpl in Hn; lia|].
    apply Forall_cons_1 in Hall as [Hl Hall].
    cbn [scan_loop]. unfold incr_scannedLines.
    cbn [pendingLine reader state scannedLines trace].
    rewrite encode_lines_cons.
    destruct (content_scan_body_plain ctx l (encode_lines ls ++ rest) st (S k) tr Hl)
      as [st1 ->].
    destruct (IH ls st1 (S k) Hall) as [st' ->]; [simpl in Hn; lia|].
    exists st'. simpl. do 2 f_equal. lia.
Qed.

Lemma peekPdfHeader_at_start tokenizer rest :
  remaining tokenizer = bytes_of "%PDF-" ++ rest ->
  peekPdfHeader tokenizer = mkHeader true 0.
Proof.
  intros Hrem. unfold peekPdfHeader, peekBuffer. rewrite Hrem.
  cbn [negb andb]. rewrite bool_decide_false; cycle 1.
  { rewrite length_take, length_app. change (length (bytes_of "%PDF-")) with 5. lia. }
  unfold indexOfBytes.
  rewrite (bool_decide_false (length (bytes_of "%PDF-") = 0)) by (by cbv).
  rewrite indexOfBytes_from_unfold.
  replace (length (bytes_of "%PDF-") <=? length (take 1024 (bytes_of "%PDF-" ++ rest)))
    with true; cycle 1.
  { symmetry. apply Nat.leb_le. rewrite length_take, length_app.
    change (length (bytes_of "%PDF-")) with 5. lia. }
  replace (matches_at (take 1024 (bytes_of "%PDF-" ++ rest)) (bytes_of "%PDF-"))
    with true; [done|].
  symmetry. apply matches_at_spec. exists (take 1019 rest).
  rewrite take_app. f_equal.
Qed.

(** C4.  The scan loop never runs more than [maxScanLines] turns; and on
    an input of the signature line followed by more than [maxScanLines]
    well-formed object-start lines the call returns the generic PDF
    classification, not an error, having stopped at the budget. *)
Theorem detect_budget_termination :
  (forall tokenizer opts,
     run_scannedLines (_detectPdf_run tokenizer opts)
     <= Z.to_nat (default 50000%Z (opt_maxScanLines opts)) + 1) /\
  (forall tokenizer opts version ls,
     remaining tokenizer = encode_lines ((bytes_of "%PDF-" ++ version) :: ls) ->
     plain_line (bytes_of "%PDF-" ++ version) ->
     Forall objectStartLine ls ->
     Z.to_nat (default 50000%Z (opt_maxScanLines opts)) < length ls ->
     (_detectPdf tokenizer opts).1 = Ok (Some PDF_TYPE) /\
     run_scannedLines (_detectPdf_run tokenizer opts)
     = Z.to_nat (default 50000%Z (opt_maxScanLines opts)) + 1).
Proof.
  split.
  - intros tokenizer opts.
    destruct (isPdf (peekPdfHeader tokenizer)) eqn:Hpdf; cycle 1.
    { rewrite detect_run_not_pdf by done. simpl. lia. }
    destruct (detect_run_pdf tokenizer opts Hpdf)
      as (_ & _ & ->).
    unfold scan_content.
    etrans; [apply scan_loop_scannedLines|]. simpl. lia.
  - intros tokenizer opts version ls Hrem Hhdr Hls Hn.
    assert (peekPdfHeader tokenizer = mkHeader true 0) as Hpeek.
    { eapply peekPdfHeader_at_start. rewrite Hrem. unfold encode_lines. simpl.
      by rewrite <- !app_assoc. }
    assert (isPdf (peekPdfHeader tokenizer) = true) as Hpdf by by rewrite Hpeek.
    destruct (detect_run_pdf tokenizer opts Hpdf)
      as (Hres & _ & Hk).
    unfold _detectPdf. cbn [fst]. rewrite Hres, Hk. clear Hres Hk.
    rewrite Hpeek. cbn [headerOffset]. rewrite drop_0, Hrem.
    unfold scan_content.
    rewrite <- (app_nil_r (encode_lines _)).
    destruct (content_scan_loop_plain (mkContext false)
                (Z.to_nat (default 50000%Z (opt_maxScanLines opts)))
                ((bytes_of "%PDF-" ++ version) :: ls) [] ROOT 0 []) as [st' ->].
    + constructor; [done|]. eapply Forall_impl; [exact Hls|]. by intros l [? _].
    + simpl. lia.
    + done.
Qed.

(** *** What the dictionary parser stores *)

Lemma span_fst_Forall p s : Forall (fun c => p c = true) (span p s).1.
Proof.
  induction s as [|c s IH]; simpl; [done|].
  destruct (p c) eqn:Hp; [|done]. destruct (span p s). simpl in *. by constructor.
Qed.

Lemma span_app p s : (span p s).1 ++ (span p s).2 = s.
Proof.
  induction s as [|c s IH]; simpl; [done|].
  destruct (p c); [|done]. destruct (span p s). simpl in *. by f_equal.
Qed.

Lemma Forall_trimStart (P : N -> Prop) s : Forall P s -> Forall P (trimStart s).
Proof.
  intros H. unfold trimStart. rewrite <- (span_app isWhiteSpace s) in H.
  by apply Forall_app in H as [_ ?].
Qed.

Lemma Forall_trim (P : N -> Prop) s : Forall P s -> Forall P (trim s).
Proof.
  intros H. unfold trim.
  by apply Forall_reverse, Forall_trimStart, Forall_reverse, Forall_trimStart.
Qed.

Lemma value_backtrack_Forall j s j' v :
  value_backtrack j s = Some (j', v) -> Forall (fun c => isValueChar c = true) v.
Proof.
  induction j as [|j IH]; simpl; [done|].
  case_bool_decide; [done|]. intros [= _ <-]. apply span_fst_Forall.
Qed.

Lemma dictRegex_at_value s m v :
  dictRegex_at s = Some m -> m_value m = Some v ->
  Forall (fun c => isValueChar c = true) v.
Proof.
  unfold dictRegex_at. destruct s as [|c s1]; [done|].
  destruct (c =? 47)%N eqn:Hc; cycle 1.
  { destruct c as [|p]; [done|]. repeat (destruct p as [p|p|]; try done). }
  apply N.eqb_eq in Hc as ->.
  destruct (span isWordChar s1) as [key s2]. case_bool_decide; [done|].
  destruct (value_backtrack _ s2) as [[j v']|] eqn:Hv.
  - intros [= <-] [= <-]. by eapply value_backtrack_Forall.
  - by intros [= <-].
Qed.

Lemma values_ok_set info key value :
  values_ok info ->
  (forall v, value = Str v -> Forall (fun c => isValueChar c = true) v) ->
  values_ok (dict_set info key value).
Proof.
  intros Hok Hv key' v. unfold dict_set. case_bool_decide; [apply Hok|].
  destruct (decide (key = key')) as [->|Hne].
  - rewrite lookup_insert_eq. intros [= ->]. by apply Hv.
  - rewrite lookup_insert_ne by done. apply Hok.
Qed.

Lemma parseDict_loop_ok skip s info :
  values_ok info -> values_ok (parseDict_loop skip s info).
Proof.
  revert skip info. induction s as [|c s IH]; intros skip info Hok; [done|].
  cbn [parseDict_loop]. destruct skip as [|k]; [|by apply IH].
  destruct (dictRegex_at (c :: s)) as [m|] eqn:Hm; [|by apply IH].
  apply IH, values_ok_set; [done|]. intros v.
  destruct (m_value m) as [v0|] eqn:Hv; [|done]. intros [= <-].
  apply Forall_trim. by eapply dictRegex_at_value.
Qed.

Lemma parseDictFromRaw_ok raw : values_ok (parseDictFromRaw raw).
Proof. apply parseDict_loop_ok. intros key v. by rewrite lookup_empty. Qed.

(** C10.  A value the dictionary parser stores contains none of [/],
    [>], carriage return and line feed, so it never starts with [/] and is
    never [/Metadata] or [/XML].  Hence the XMP part of the scan, which
    has a creator-tool hook to call, feeds the XML parser exactly when
    [Type] is [Metadata], [Subtype] is [XML] or the bare flag [XML] is
    present: then the step ends as the XML handlers end over the events of
    the parser, with the creator tools handed to the hooks recorded;
    otherwise the scan goes on with its state unchanged, whatever the
    parser would report. *)
Theorem parsed_values_exclude_delimiters raw :
  (forall key v,
     parseDictFromRaw raw !! key = Some (Str v) ->
     Forall (fun c => c <> 47 /\ c <> 62 /\ c <> 13 /\ c <> 10)%N v /\
     head v <> Some 47%N /\ v <> str "/Metadata" /\ v <> str "/XML") /\
  hooks onCreatorTool subtypeProbes <> [] /\
  forall R (ctx : ProbeContext) (s : ScanState R) streamText,
    let objectInfo := parseDictFromRaw raw in
    let fed :=
      XmlHandler.run (fun v => ThrownHit <$> checkpoint_hit ctx (AtCreatorTool v)) false
        (saxParse streamText) in
    scan_xmp ctx s objectInfo streamText =
    if bool_decide (objectInfo !! str "Type" = Some (Str (str "Metadata"))
                    \/ objectInfo !! str "Subtype" = Some (Str (str "XML"))
                    \/ objectInfo !! str "XML" = Some Flag)
    then
      match fed.1 with
      | None => Continue (record s (AtCreatorTool <$> fed.2))
      | Some (ThrownHit hit) => Return hit (record s (AtCreatorTool <$> fed.2))
      | Some (ThrownError e) => Throw e (record s (AtCreatorTool <$> fed.2))
      end
    else Continue s.
Proof.
  assert (forall key v,
     parseDictFromRaw raw !! key = Some (Str v) ->
     Forall (fun c => c <> 47 /\ c <> 62 /\ c <> 13 /\ c <> 10)%N v /\
     head v <> Some 47%N /\ v <> str "/Metadata" /\ v <> str "/XML") as Hvals.
  { intros key v Hv. apply parseDictFromRaw_ok in Hv.
    assert (Forall (fun c => c <> 47 /\ c <> 62 /\ c <> 13 /\ c <> 10)%N v) as Hall.
    { eapply Forall_impl; [exact Hv|]. intros c Hc. unfold isValueChar in Hc.
      apply negb_true_iff in Hc. repeat (apply orb_false_iff in Hc as [Hc ?]).
      repeat split; apply N.eqb_neq; done. }
    split; [done|].
    assert (head v <> Some 47%N) as Hhead.
    { destruct v as [|c v]; [done|]. apply Forall_cons_1 in Hall as [[? _] _].
      simpl. congruence. }
    split; [done|]. split; intros ->; by apply Hhead. }
  split; [done|]. split; [done|].
  intros R ctx s streamText objectInfo fed. subst fed.
  assert (looksLikeXmp objectInfo
          = bool_decide (objectInfo !! str "Type" = Some (Str (str "Metadata"))
                         \/ objectInfo !! str "Subtype" = Some (Str (str "XML"))
                         \/ objectInfo !! str "XML" = Some Flag)) as Hguard.
  { unfold looksLikeXmp.
    rewrite (bool_decide_false (objectInfo !! str "Type" = Some (Str (str "/Metadata")))),
      (bool_decide_false (objectInfo !! str "Subtype" = Some (Str (str "/XML")))),
      !orb_false_r; cycle 1.
    { intros Hx. by destruct (Hvals _ _ Hx) as (_ & _ & _ & ?). }
    { intros Hx. by destruct (Hvals _ _ Hx) as (_ & _ & ? & _). }
    apply eq_true_iff_eq.
    rewrite !orb_true_iff, !bool_decide_eq_true. tauto. }
  unfold scan_xmp. rewrite Hguard.
  change (negb (bool_decide (length (hooks onCreatorTool subtypeProbes) = 0))) with true.
  rewrite andb_true_r. case_bool_decide; [|done].
  change (fun v : jsstring =>
            ThrownHit <$> first_hit (fun fn => fn ctx v) (hooks onCreatorTool subtypeProbes))
    with (fun v : jsstring => ThrownHit <$> checkpoint_hit ctx (AtCreatorTool v)).
  by destruct (XmlHandler.run _ false (saxParse streamText)) as [[[hit|e]|] texts].
Qed.

(** *** The filter chain *)

Lemma decodeStreamBytes_no_filter objectInfo rawBytes :
  objectInfo !! str "Filter" = None ->
  decodeStreamBytes objectInfo rawBytes = Ok rawBytes.
Proof. intros H. unfold decodeStreamBytes. by rewrite H. Qed.

Lemma decodeStreamBytes_unsupported_first objectInfo rawBytes f filters :
  normalizeFilters (objectInfo !! str "Filter") = f :: filters ->
  f <> FlateDecode ->
  decodeStreamBytes objectInfo rawBytes = Ok rawBytes.
Proof.
  intros H Hf. unfold decodeStreamBytes. rewrite H. simpl.
  by rewrite bool_decide_false.
Qed.

(** C6 (what the code does).  With the filter chain
    [FlateDecode ASCII85Decode] the decode step first inflates; when that
    fails the error escapes, although the chain holds an unsupported
    filter for which the raw bytes were to be passed through. *)
Theorem decodeStreamBytes_unsupported_after_flate rawBytes :
  decompress deflate rawBytes = None ->
  decompress deflate_raw rawBytes = None ->
  normalizeFilters (Some (Str (str "FlateDecode ASCII85Decode")))
    = [FlateDecode; ASCII85Decode] /\
  decodeStreamBytes {[ str "Filter" := Str (str "FlateDecode ASCII85Decode") ]} rawBytes
    = Err DecompressionFailed.
Proof.
  intros Hd Hr. split; [by vm_compute|].
  unfold decodeStreamBytes. rewrite lookup_singleton_eq.
  replace (normalizeFilters (Some (Str (str "FlateDecode ASCII85Decode"))))
    with [FlateDecode; ASCII85Decode] by (by vm_compute).
  simpl. unfold inflateFlateDecode, inflateWithFormat. by rewrite Hd, Hr.
Qed.

(** ** Further properties of the reader *)

(** *** One call at a time *)

Lemma find_byte_first b l i :
  find_byte b l 0 = Some i ->
  l = take i l ++ b :: drop (S i) l /\ b ∉ take i l.
Proof.
  revert i. induction l as [|c l IH]; intros i; simpl; [done|].
  case_bool_decide as Hc.
  - intros [= <-]. subst c. simpl. rewrite drop_0. split; [done|]. apply not_elem_of_nil.
  - rewrite find_byte_shift. destruct (find_byte b l 0) as [j|] eqn:Hj; [|done].
    simpl. intros [= <-]. destruct (IH j eq_refl) as [Hl Hn]. simpl.
    split; [by f_equal|]. apply not_elem_of_cons. split; [congruence|done].
Qed.

Lemma strip_cr_cases l :
  (strip_cr l = l /\ last l <> Some CR) \/ l = strip_cr l ++ [CR].
Proof.
  unfold strip_cr. case_bool_decide as Hc; [right|left; done].
  destruct (last_Some l CR) as [(l' & ->) _]; [done|].
  rewrite length_app. simpl.
  replace (length l' + 1 - 1) with (length l') by lia.
  by rewrite take_app_length.
Qed.

(** X1.  On a reader in any state it can reach, [readLine()] returns the
    bytes up to the first line feed, without the line feed and without one
    carriage return before it, and consumes exactly these bytes and the
    terminator; a returned line never contains a line feed.  Without a line
    feed it returns all the bytes left, unchanged, and consumes them; with no
    byte left it returns [null] and consumes nothing. *)
Theorem readLine_consumes_one_line r :
  wf r ->
  exists o r', PdfTokenizerReader.readLine r = Ok (o, r') /\ wf r' /\
    match o with
    | None => content r = [] /\ content r' = []
    | Some l =>
        exists bs eol, l = latin1 bs /\ (LF ∉ bs) /\
          content r = bs ++ eol ++ content r' /\
          ((eol = [LF] /\ last bs <> Some CR) \/ eol = [CR; LF]
           \/ (eol = [] /\ content r' = [] /\ bs <> []))
    end.
Proof.
  intros Hwf. destruct (readLine_spec r Hwf) as (r' & Hrl & Hwf' & Hc').
  exists (latin1 <$> (next_line (content r)).1), r'. split; [done|]. split; [done|].
  rewrite Hc'. unfold next_line.
  destruct (find_byte LF (content r) 0) as [i|] eqn:Hf; simpl.
  - destruct (find_byte_first _ _ _ Hf) as [Hsplit Hnot].
    exists (strip_cr (take i (content r))).
    destruct (strip_cr_cases (take i (content r))) as [[Heq Hlast]|Hcr].
    + exists [LF]. rewrite Heq. split_and!; auto.
    + exists [CR; LF]. split_and!; auto.
      * intros Hin. apply Hnot. rewrite Hcr. apply elem_of_app. by left.
      * rewrite Hsplit at 1. rewrite Hcr at 1. by rewrite <- app_assoc.
  - destruct (content r) as [|b c] eqn:Hc; simpl; [done|].
    exists (b :: c), []. split_and!; auto.
    + intros Hin. apply list_elem_of_lookup in Hin as [k Hk].
      assert (find_byte LF (b :: c) 0 <> None) as Hne; [|done].
      clear -Hk. revert k Hk. generalize 0. generalize (b :: c). clear.
      induction l as [|x l IH]; intros n k Hk; [done|]. simpl.
      case_bool_decide; [done|]. destruct k as [|k]; [simpl in Hk; congruence|].
      by apply (IH _ k).
    + by rewrite app_nil_r.
Qed.

(** X2.  [readBytes(n)] for a positive [n]: when at least [n] bytes are
    left it returns exactly the next [n] bytes and consumes them; otherwise
    it returns [null] and consumes nothing, so the bytes stay available to
    the calls that follow. *)
Theorem readBytes_exact_or_nothing r n :
  wf r -> (0 < n)%Z ->
  exists o r', PdfTokenizerReader.readBytes n r = Ok (o, r') /\ wf r' /\
    ((Z.to_nat n <= length (content r) /\
      o = Some (take (Z.to_nat n) (content r)) /\
      content r' = drop (Z.to_nat n) (content r))
     \/ (length (content r) < Z.to_nat n /\ o = None /\ content r' = content r)).
Proof.
  intros Hwf Hn. pose proof (readBytes_spec n r Hwf) as H.
  unfold next_bytes in H.
  destruct (n <? 0)%Z eqn:E1; [apply Z.ltb_lt in E1; lia|].
  destruct (n =? 0)%Z eqn:E2; [apply Z.eqb_eq in E2; lia|].
  destruct (length (content r) <? Z.to_nat n) eqn:E3.
  - destruct H as (r' & Hrb & Hwf' & Hc). exists None, r'.
    apply Nat.ltb_lt in E3. split_and!; auto.
  - destruct H as (r' & Hrb & Hwf' & Hc). eexists _, r'.
    apply Nat.ltb_ge in E3. split_and!; eauto.
Qed.

(** X3.  [consumeStreamEol()] consumes exactly one line terminator when
    one is next, a carriage return with its line feed, a lone carriage
    return or a lone line feed, and nothing otherwise. *)
Theorem consumeStreamEol_one_terminator r :
  wf r ->
  exists r', PdfTokenizerReader.consumeStreamEol r = Ok r' /\ wf r' /\
    (forall c, content r = CR :: LF :: c -> content r' = c) /\
    (forall c, content r = CR :: c -> head c <> Some LF -> content r' = c) /\
    (forall c, content r = LF :: c -> content r' = c) /\
    (head (content r) <> Some CR -> head (content r) <> Some LF ->
     content r' = content r).
Proof.
  intros Hwf. destruct (consumeStreamEol_spec r Hwf) as (r' & Hc & Hwf' & Hr').
  exists r'. split; [done|]. split; [done|]. rewrite Hr'. split_and!.
  - by intros c ->.
  - intros c -> Hh. destruct c as [|b1 c]; [done|]. simpl in *.
    case_bool_decide; [congruence|done].
  - by intros c ->.
  - intros H1 H2. destruct (content r) as [|b0 c]; [done|]. simpl in *.
    repeat case_bool_decide; congruence.
Qed.

(** X4.  [fill(minBytes)] loses and reorders nothing: the bytes still to
    be delivered are the same before and after.  When it returns, at least
    [minBytes] bytes are buffered or the byte source is exhausted and all
    that is left is in the buffer. *)
Theorem fill_keeps_content m r :
  wf r ->
  exists r', PdfTokenizerReader.fill m r = Ok r' /\ wf r' /\
    content r' = content r /\
    (m <= PdfTokenizerReader.avail r' \/ buffered r' = content r').
Proof.
  intros Hwf. destruct (fill_spec m r Hwf) as (r' & k & Hf & Hwf' & Hb & Hr & Hpost).
  exists r'. split_and!; auto.
  - by apply (fill_content _ _ k).
  - destruct Hpost as [He|?]; [right|by left]. symmetry. by apply content_eof.
Qed.

(** *** Lines written and read back *)

Lemma find_byte_absent b l i : b ∉ l -> find_byte b l i = None.
Proof.
  revert i. induction l as [|c l IH]; intros i Hn; [done|].
  apply not_elem_of_cons in Hn as [Hc Hn]. simpl.
  rewrite bool_decide_false by congruence. by apply IH.
Qed.

Lemma spec_lines_encode ls :
  Forall (fun l => (LF ∉ l) /\ last l <> Some CR) ls ->
  spec_lines (encode_lines ls) = ls.
Proof.
  induction 1 as [|l ls [Hlf Hcr] _ IH]; [done|].
  rewrite spec_lines_next.
  pose proof (encode_lines_cons l ls []) as He. rewrite !app_nil_r in He.
  rewrite He. unfold next_line.
  rewrite find_byte_app, (find_byte_absent _ _ _ Hlf). simpl.
  rewrite take_app_length.
  replace (l ++ LF :: encode_lines ls) with ((l ++ [LF]) ++ encode_lines ls)
    by (by rewrite <- app_assoc).
  rewrite drop_app_length' by (rewrite length_app; simpl; lia).
  f_equal; [|done].
  unfold strip_cr. by rewrite bool_decide_false.
Qed.

(** X5.  Lines written one after the other, each followed by a line feed,
    are read back one per call and unchanged, and the call after the last
    line returns [null]; this holds for lines without a line feed that do
    not end in a carriage return, and for every chunk size. *)
Theorem readLines_roundtrip ls chunk dbg :
  Forall (fun l => (LF ∉ l) /\ last l <> Some CR) ls ->
  readLines (S (length ls))
    (PdfTokenizerReader.new (mkTokenizer (encode_lines ls) 0) (S <$> chunk) dbg)
  = Ok ((Some ∘ latin1 <$> ls) ++ [None]).
Proof.
  intros Hls.
  rewrite (readLines_spec _ _ (encode_lines ls)).
  - unfold lines_then_null. rewrite (spec_lines_encode _ Hls).
    f_equal. replace (S (length ls)) with (length (Some ∘ latin1 <$> ls) + 1)
      by (rewrite length_fmap; lia).
    rewrite take_app_add. f_equal.
    by rewrite Nat.add_1_r.
  - apply (refines_new (mkTokenizer (encode_lines ls) 0)).
Qed.

(** *** The logical position *)

Lemma getPosition_in_step total r :
  in_step total r ->
  PdfTokenizerReader.getPosition r
  = (Z.of_nat total - Z.of_nat (length (content r)))%Z.
Proof.
  intros [Hp Ht]. unfold PdfTokenizerReader.getPosition, content, buffered.
  rewrite length_app, length_drop. lia.
Qed.

Lemma in_step_compact total r :
  in_step total r -> in_step total (PdfTokenizerReader.compactBuffer r).
Proof.
  intros [Hp Ht]. destruct (compact_fields r) as (Htok & _ & _ & Hpos & Hbuf).
  split; [rewrite Hpos; lia|by rewrite Htok].
Qed.

Lemma in_step_advance total r n :
  in_step total r ->
  in_step total (advance r (length (take n (remaining (PdfTokenizerReader.tokenizer r))))).
Proof.
  intros [Hp Ht]. split; [done|]. unfold advance, remaining in *. simpl.
  rewrite length_drop, length_take, length_drop in *. lia.
Qed.

Lemma fill_loop_in_step total f m r r' :
  in_step total r -> PdfTokenizerReader.fill_loop f m r = Ok r' -> in_step total r'.
Proof.
  revert r. induction f as [|f IH]; intros r Hin.
  - simpl. destruct (_ || _); [|done]. by intros [= <-].
  - rewrite fill_loop_unfold.
    destruct (_ || _); [by intros [= <-]|]. cbv zeta.
    pose proof (in_step_compact _ _ Hin) as Hc.
    set (rc := PdfTokenizerReader.compactBuffer r) in *.
    rewrite peekMayBeLess_eq. cbn [mbind result_bind].
    case_bool_decide; [by intros [= <-]|].
    rewrite readMayBeLess_eq. cbv zeta. cbn [mbind result_bind].
    case_bool_decide.
    { intros [= <-]. by apply (in_step_advance _ rc). }
    apply IH. pose proof (in_step_advance _ rc
      (length (take (PdfTokenizerReader.chunkSize rc)
                 (remaining (PdfTokenizerReader.tokenizer rc)))) Hc) as [Hp Ht].
    split; [|done]. simpl in *. rewrite length_app. lia.
Qed.

Lemma fill_in_step total m r r' :
  in_step total r -> PdfTokenizerReader.fill m r = Ok r' -> in_step total r'.
Proof.
  intros Hin. unfold PdfTokenizerReader.fill.
  destruct (PdfTokenizerReader.eof r); [by intros [= <-]|].
  by apply fill_loop_in_step.
Qed.

Lemma readLine_loop_in_step total f r o r' :
  in_step total r -> PdfTokenizerReader.readLine_loop f r = Ok (o, r') ->
  in_step total r'.
Proof.
  revert r. induction f as [|f IH]; intros r Hin; [done|].
  rewrite readLine_loop_unfold. cbv zeta.
  case_bool_decide as Hidx.
  - intros [= _ <-]. destruct Hin as [Hp Ht]. split; [|done]. simpl.
    unfold buffer_indexOf in *.
    destruct (find_byte LF _ _) as [k|] eqn:Hk; [|done]. simpl.
    apply find_byte_bounds in Hk. rewrite length_drop in Hk.
    rewrite Nat2Z.id. lia.
  - destruct (PdfTokenizerReader.fill _ r) as [r1|e] eqn:Hf; [|done].
    cbn [mbind result_bind].
    pose proof (fill_in_step _ _ _ _ Hin Hf) as Hin1.
    destruct (_ && _).
    + case_bool_decide; [by intros [= _ <-]|].
      intros [= _ <-]. destruct Hin1 as [Hp Ht]. split; [simpl; lia|done].
    + by apply IH.
Qed.

Lemma call_wf c r r' :
  wf r -> call c r = Ok r' ->
  wf r' /\ exists k, content r' = drop k (content r).
Proof.
  intros Hwf. destruct c as [|n|]; simpl.
  - destruct (readLine_spec r Hwf) as (r1 & -> & Hwf1 & Hc).
    cbn [mbind result_bind]. intros [= <-]. split; [done|].
    rewrite Hc. unfold next_line.
    destruct (find_byte LF (content r) 0) as [i|]; simpl; [by eexists|].
    exists (length (content r)). rewrite drop_all. by destruct (content r).
  - pose proof (readBytes_spec n r Hwf) as H. unfold next_bytes in H.
    destruct (n <? 0)%Z; [by rewrite H|].
    destruct (n =? 0)%Z.
    { destruct H as (r1 & -> & Hwf1 & Hc). cbn [mbind result_bind].
      intros [= <-]. split; [done|]. exists 0. by rewrite drop_0. }
    destruct (_ <? _).
    + destruct H as (r1 & -> & Hwf1 & Hc). cbn [mbind result_bind].
      intros [= <-]. split; [done|]. exists 0. by rewrite drop_0.
    + destruct H as (r1 & -> & Hwf1 & Hc). cbn [mbind result_bind].
      intros [= <-]. split; [done|]. by eexists.
  - destruct (consumeStreamEol_spec r Hwf) as (r1 & -> & Hwf1 & Hc).
    intros [= <-]. split; [done|]. rewrite Hc.
    destruct (content r) as [|b0 [|b1 c]]; simpl.
    + by exists 0.
    + case_bool_decide; [by exists 1|]. case_bool_decide; [by exists 1|by exists 0].
    + case_bool_decide; [case_bool_decide; [by exists 2|by exists 1]|].
      case_bool_decide; [by exists 1|by exists 0].
Qed.

Lemma call_in_step total c r r' :
  wf r -> in_step total r -> call c r = Ok r' -> in_step total r'.
Proof.
  intros Hwf Hin. destruct c as [|n|]; simpl.
  - unfold PdfTokenizerReader.readLine.
    destruct (PdfTokenizerReader.readLine_loop _ r) as [[o r1]|e] eqn:Hr; [|done].
    cbn [mbind result_bind]. intros [= <-]. by eapply readLine_loop_in_step.
  - unfold PdfTokenizerReader.readBytes.
    destruct (n <? 0)%Z; [done|]. destruct (n =? 0)%Z eqn:Hz.
    { cbn [mbind result_bind]. by intros [= <-]. }
    destruct (PdfTokenizerReader.fill _ r) as [r1|e] eqn:Hf; [|done].
    cbn [mbind result_bind].
    pose proof (fill_in_step _ _ _ _ Hin Hf) as [Hp Ht].
    destruct (_ <? _) eqn:Hlt; cbn [mbind result_bind]; intros [= <-]; [done|].
    apply Nat.ltb_ge in Hlt. unfold PdfTokenizerReader.avail in Hlt.
    apply Z.eqb_neq in Hz. split; [simpl; lia|done].
  - unfold PdfTokenizerReader.consumeStreamEol.
    destruct (fill_spec 1 r Hwf) as (r1 & k1 & Hf & Hwf1 & _).
    rewrite Hf. cbn [mbind result_bind].
    pose proof (fill_in_step _ _ _ _ Hin Hf) as Hin1.
    destruct (PdfTokenizerReader.avail r1 <=? 0) eqn:Ha; [by intros [= <-]|].
    apply Nat.leb_gt in Ha.
    case_bool_decide.
    + destruct (fill_spec 2 r1 Hwf1) as (r2 & k2 & Hf2 & Hwf2 & Hb2 & _).
      rewrite Hf2. cbn [mbind result_bind].
      pose proof (fill_in_step _ _ _ _ Hin1 Hf2) as [Hp Ht].
      assert (1 <= PdfTokenizerReader.avail r2) as Ha2.
      { rewrite avail_buffered in *. rewrite Hb2, length_app. lia. }
      unfold PdfTokenizerReader.avail in Ha2.
      destruct (_ && _) eqn:Hc; intros [= <-]; (split; [simpl|done]).
      * apply andb_true_iff in Hc as [Hc%Nat.leb_le _].
        unfold PdfTokenizerReader.avail in Hc. lia.
      * lia.
    + destruct Hin1 as [Hp Ht]. unfold PdfTokenizerReader.avail in Ha.
      case_bool_decide; intros [= <-]; [|done]. split; [simpl; lia|done].
Qed.

Lemma calls_snoc cs c r :
  calls (cs ++ [c]) r = (r1 ← calls cs r; call c r1).
Proof. unfold calls. by rewrite foldl_app. Qed.

Lemma calls_inv total cs r r' :
  wf r -> in_step total r -> calls cs r = Ok r' ->
  wf r' /\ in_step total r' /\ exists k, content r' = drop k (content r).
Proof.
  intros Hwf Hin. revert r'.
  induction cs as [|c cs IH] using rev_ind; intros r'.
  - intros [= <-]. split_and!; [done..|]. exists 0. by rewrite drop_0.
  - rewrite calls_snoc. destruct (calls cs r) as [r1|e]; [|done].
    cbn [mbind result_bind]. intros Hc.
    destruct (IH r1 eq_refl) as (Hwf1 & Hin1 & k1 & Hk1).
    destruct (call_wf _ _ _ Hwf1 Hc) as (Hwf' & k & Hk).
    split_and!; [done|by apply (call_in_step total c r1)|].
    exists (k1 + k). by rewrite Hk, Hk1, drop_drop.
Qed.

(** X6.  [getPosition()] is the position of the byte source at the time
    the reader was created plus the number of bytes the reader has
    delivered or skipped since, after any sequence of calls of [readLine],
    [readBytes] and [consumeStreamEol] and for every chunk size: the bytes
    that are buffered ahead do not count. *)
Theorem getPosition_counts_delivered tokenizer chunk dbg cs r :
  calls cs (PdfTokenizerReader.new tokenizer (S <$> chunk) dbg) = Ok r ->
  exists delivered,
    remaining tokenizer = delivered ++ content r /\
    PdfTokenizerReader.getPosition r
    = (Z.of_nat (position tokenizer) + Z.of_nat (length delivered))%Z.
Proof.
  intros Hc.
  set (total := position tokenizer + length (remaining tokenizer)).
  destruct (refines_new tokenizer chunk dbg) as [Hwf0 Hc0].
  destruct (calls_inv total cs _ r Hwf0) as (Hwf & Hin & k & Hk); [|done|].
  { split; [simpl; lia|done]. }
  rewrite Hc0 in Hk. exists (take k (remaining tokenizer)). split.
  - by rewrite Hk, take_drop.
  - rewrite (getPosition_in_step total) by done.
    rewrite Hk, length_drop, length_take. lia.
Qed.

(** ** The helpers of the header check *)

(** *** indexOfBytes *)

Lemma occurs_at_length {A} (hay needle : list A) i :
  occurs_at hay needle i -> length needle <= length hay - i.
Proof.
  intros [rest H]. apply (f_equal length) in H.
  rewrite length_drop, length_app in H. lia.
Qed.

Lemma occurs_at_cons {A} (h : A) hay needle i :
  occurs_at (h :: hay) needle (S i) <-> occurs_at hay needle i.
Proof. done. Qed.

Lemma indexOfBytes_from_first hay needle i :
  needle <> [] ->
  (indexOfBytes_from hay needle i = (-1)%Z /\ forall j, ~ occurs_at hay needle j)
  \/ exists j, indexOfBytes_from hay needle i = Z.of_nat (i + j)
               /\ first_occurrence hay needle j.
Proof.
  intros Hne. revert i. induction hay as [|h hay IH]; intros i.
  - left. rewrite indexOfBytes_from_unfold.
    destruct needle as [|n needle]; [done|]. simpl. split; [done|].
    intros j [rest H]. by rewrite drop_nil in H.
  - rewrite indexOfBytes_from_unfold.
    destruct (length needle <=? length (h :: hay)) eqn:Hlen.
    + destruct (matches_at (h :: hay) needle) eqn:Hm.
      * right. exists 0. rewrite Nat.add_0_r. split; [done|]. split; [|lia].
        by apply matches_at_spec in Hm.
      * assert (~ occurs_at (h :: hay) needle 0) as H0.
        { intros Ho. apply (proj2 (matches_at_spec (h :: hay) needle)) in Ho. congruence. }
        destruct (IH (S i)) as [[-> Hno]|(j & -> & Hocc & Hmin)].
        -- left. split; [done|]. intros [|j]; [done|]. rewrite occurs_at_cons. apply Hno.
        -- right. exists (S j). split; [f_equal; lia|]. split; [done|].
           intros [|j'] Hj'; [done|]. rewrite occurs_at_cons. apply Hmin. lia.
    + left. split; [done|]. apply Nat.leb_gt in Hlen.
      intros j Ho%occurs_at_length. lia.
Qed.

(** X7.  [indexOfBytes] returns the index of the first occurrence of the
    needle, which is 0 for an empty needle, and [-1] exactly when the needle
    does not occur. *)
Theorem indexOfBytes_first_occurrence hay needle :
  (indexOfBytes hay needle = (-1)%Z <-> forall i, ~ occurs_at hay needle i) /\
  (forall i, indexOfBytes hay needle = Z.of_nat i <-> first_occurrence hay needle i).
Proof.
  unfold indexOfBytes. case_bool_decide as Hn.
  - apply length_zero_iff_nil in Hn as ->.
    assert (forall i, first_occurrence hay [] i <-> i = 0) as Hf.
    { intros i. split.
      - intros [_ Hmin]. destruct i; [done|]. exfalso. apply (Hmin 0); [lia|].
        by exists hay.
      - intros ->. split; [by exists hay|lia]. }
    split.
    + split; [done|]. intros H. exfalso. apply (H 0). by exists hay.
    + intros i. rewrite Hf. lia.
  - assert (needle <> []) as Hne by (by intros ->).
    destruct (indexOfBytes_from_first hay needle 0 Hne)
      as [[-> Hno]|(j & -> & Hocc & Hmin)].
    + split; [done|]. intros i. split; [lia|]. intros [Ho _]. by apply Hno in Ho.
    + split.
      * split; [lia|]. intros H. by apply H in Hocc.
      * intros i. simpl. split.
        -- intros ->%Nat2Z.inj. done.
        -- intros [Ho' Hmin']. f_equal.
           destruct (Nat.lt_trichotomy i j) as [?|[?|?]]; [|done|].
           ++ exfalso. by apply (Hmin i).
           ++ exfalso. by apply (Hmin' j).
Qed.

(** *** peekPdfHeader *)

Lemma first_occurrence_unique {A} (hay needle : list A) i j :
  first_occurrence hay needle i -> first_occurrence hay needle j -> i = j.
Proof.
  intros [Hi Hmi] [Hj Hmj].
  destruct (Nat.lt_trichotomy i j) as [?|[?|?]]; [|done|].
  - by destruct (Hmj i).
  - by destruct (Hmi j).
Qed.

Lemma peekPdfHeader_cases tokenizer :
  (exists i, peekPdfHeader tokenizer = mkHeader true (Z.of_nat i) /\
             first_occurrence (take 1024 (remaining tokenizer)) (bytes_of "%PDF-") i /\
             i + 5 <= 1024)
  \/ (peekPdfHeader tokenizer = mkHeader false (-1) /\
      forall i, ~ occurs_at (take 1024 (remaining tokenizer)) (bytes_of "%PDF-") i).
Proof.
  unfold peekPdfHeader, peekBuffer. simpl.
  set (window := take 1024 (remaining tokenizer)).
  case_bool_decide as Hlen.
  { right. split; [done|]. intros i Ho%occurs_at_length.
    rewrite Hlen in Ho. change (length (bytes_of "%PDF-")) with 5 in Ho. lia. }
  assert (needle_ne : bytes_of "%PDF-" <> []) by done.
  unfold indexOfBytes.
  rewrite (bool_decide_false (length (bytes_of "%PDF-") = 0)) by done.
  destruct (indexOfBytes_from_first window (bytes_of "%PDF-") 0 needle_ne)
    as [[-> Hno]|(j & -> & Hf)].
  - right. by rewrite bool_decide_true.
  - left. rewrite bool_decide_false by lia. exists j. split; [done|]. split; [done|].
    destruct Hf as [Ho%occurs_at_length _].
    change (length (bytes_of "%PDF-")) with 5 in Ho.
    assert (length window <= 1024) by (unfold window; rewrite length_take; lia).
    assert (length window - j <> 0) by lia. lia.
Qed.

(** X8.  [peekPdfHeader] looks at no more than the next 1024 bytes.  It
    reports a PDF exactly when the signature [%PDF-] occurs in them, and the
    offset it reports is that of the first occurrence, so the signature
    lies entirely within the 1024 bytes; otherwise the offset is [-1]. *)
Theorem peekPdfHeader_first_signature tokenizer :
  if isPdf (peekPdfHeader tokenizer) then
    exists i, headerOffset (peekPdfHeader tokenizer) = Z.of_nat i /\
              first_occurrence (take 1024 (remaining tokenizer)) (bytes_of "%PDF-") i /\
              i + 5 <= 1024
  else
    headerOffset (peekPdfHeader tokenizer) = (-1)%Z /\
    forall i, ~ occurs_at (take 1024 (remaining tokenizer)) (bytes_of "%PDF-") i.
Proof.
  destruct (peekPdfHeader_cases tokenizer) as [(i & -> & Hf & Hi)|[-> Hno]]; simpl.
  - by exists i.
  - done.
Qed.

(** *** skipBytes *)

Lemma skipBytes_loop_short fuel tmp left tokenizer :
  left <= fuel -> 0 < tmp -> length (remaining tokenizer) < left ->
  skipBytes_loop fuel tmp left tokenizer = Err EndOfStreamError.
Proof.
  revert left tokenizer. induction fuel as [|fuel IH]; intros left tokenizer Hf Ht Hl; [lia|].
  simpl. rewrite bool_decide_false by lia.
  unfold readBuffer, peekBuffer. simpl.
  rewrite length_take.
  destruct (_ <? _) eqn:Hlt; [done|]. apply Nat.ltb_ge in Hlt.
  cbn [mbind result_bind].
  rewrite bool_decide_false by (rewrite length_take; lia).
  apply IH; [rewrite length_take; lia|done|].
  unfold remaining in *. simpl. rewrite length_take, length_drop in *. lia.
Qed.

(** X9.  [skipBytes(tokenizer, n)] does nothing for [n <= 0]; it advances
    the byte source by exactly [n] bytes when that many are left; and it
    fails, with the end-of-stream error of the byte source, when fewer are
    left. *)
Theorem skipBytes_advances tokenizer n :
  if (n <=? 0)%Z then skipBytes tokenizer n = Ok tokenizer
  else if Z.to_nat n <=? length (remaining tokenizer) then
    skipBytes tokenizer n
    = Ok (mkTokenizer (fileData tokenizer) (position tokenizer + Z.to_nat n))
  else skipBytes tokenizer n = Err EndOfStreamError.
Proof.
  unfold skipBytes. destruct (n <=? 0)%Z eqn:Hn; [done|]. apply Z.leb_gt in Hn.
  destruct (_ <=? _) eqn:Hl.
  - apply Nat.leb_le in Hl.
    destruct (skipBytes_loop_spec (Z.to_nat n) (Nat.min (64 * 1024) (Z.to_nat n))
                (Z.to_nat n) tokenizer) as (t' & -> & Hd & Hp); [lia|lia|done|].
    destruct t'; simpl in *. by subst.
  - apply Nat.leb_gt in Hl. apply skipBytes_loop_short; lia.
Qed.

(** *** OBJ_REGEX *)

Lemma span_snd_head p s :
  match (span p s).2 with [] => True | c :: _ => p c = false end.
Proof.
  induction s as [|c s IH]; simpl; [done|].
  destruct (p c) eqn:Hp; [|done]. by destruct (span p s).
Qed.

Lemma span_unique p a b :
  Forall (fun c => p c = true) a ->
  match b with [] => True | c :: _ => p c = false end ->
  span p (a ++ b) = (a, b).
Proof.
  intros Ha Hb. induction Ha as [|c a Hc _ IH]; simpl.
  - destruct b as [|c b]; [done|]. simpl. by rewrite Hb.
  - by rewrite Hc, IH.
Qed.

Lemma span_eq p s a b :
  span p s = (a, b) <->
  s = a ++ b /\ Forall (fun c => p c = true) a /\
  match b with [] => True | c :: _ => p c = false end.
Proof.
  split.
  - intros H. pose proof (span_app p s) as H1.
    pose proof (span_fst_Forall p s) as H2. pose proof (span_snd_head p s) as H3.
    rewrite H in *. done.
  - intros (-> & Ha & Hb). by apply span_unique.
Qed.

Lemma digit_not_space c : isDigit c = true -> isWhiteSpace c = false.
Proof.
  unfold isDigit, isWhiteSpace. intros [H1%N.leb_le H2%N.leb_le]%andb_true_iff.
  assert ((c <=? 13)%N = false) as -> by (apply N.leb_gt; lia).
  assert ((8192 <=? c)%N = false) as -> by (apply N.leb_gt; lia).
  repeat match goal with |- context [(c =? ?k)%N] =>
    assert ((c =? k)%N = false) as -> by (apply N.eqb_neq; lia) end.
  by rewrite andb_false_r.
Qed.

Lemma space_not_digit c : isWhiteSpace c = true -> isDigit c = false.
Proof.
  intros Hs. destruct (isDigit c) eqn:Hd; [|done].
  apply digit_not_space in Hd. congruence.
Qed.

Lemma head_false_app (p : N -> bool) (q : N -> bool) a b :
  a <> [] -> Forall (fun c => q c = true) a ->
  (forall c, q c = true -> p c = false) ->
  match a ++ b with [] => True | c :: _ => p c = false end.
Proof.
  intros Hne Ha Hq. destruct a as [|c a]; [done|]. simpl.
  apply Hq. by inversion Ha.
Qed.

Lemma obj_word_inv (s : jsstring) (r r' : jsstring * jsstring) :
  match s with
  | 111%N :: 98%N :: 106%N :: rest =>
      match rest with
      | [] => Some r
      | c :: _ => if isWordChar c then None else Some r
      end
  | _ => None
  end = Some r' ->
  r = r' /\ exists rest, s = str "obj" ++ rest /\
            match rest with [] => True | c :: _ => isWordChar c = false end.
Proof.
  destruct s as [|c1 s]; [done|].
  destruct c1 as [|c1]; [done|].
  do 7 (try (destruct c1 as [c1|c1|]; simpl; try done)).
  destruct s as [|c2 s]; [done|].
  destruct c2 as [|c2]; [done|].
  do 7 (try (destruct c2 as [c2|c2|]; simpl; try done)).
  destruct s as [|c3 s]; [done|].
  destruct c3 as [|c3]; [done|].
  do 7 (try (destruct c3 as [c3|c3|]; simpl; try done)).
  destruct s as [|c rest].
  - intros [= <-]. split; [done|]. by exists [].
  - destruct (isWordChar c) eqn:Hc; [done|]. intros [= <-]. split; [done|].
    by exists (c :: rest).
Qed.

(** X10.  [OBJ_REGEX] accepts exactly the lines that start an object:
    optional white space, the object number, white space, the generation
    number, white space and the word [obj] followed by the end of the line
    or by a character that is not a word character; it captures the two
    numbers.  So [1 0 obj<<] starts an object and [1 0 objx] does not. *)
Theorem OBJ_REGEX_accepts_object_starts line objNum genNum :
  OBJ_REGEX line = Some (objNum, genNum) <-> objectStart line objNum genNum.
Proof.
  unfold OBJ_REGEX, objectStart. split.
  - pose proof (span_eq isWhiteSpace line (span isWhiteSpace line).1
                  (span isWhiteSpace line).2) as [H0 _].
    destruct (span isWhiteSpace line) as [ws0 s0]. simpl in *.
    destruct (H0 eq_refl) as (-> & Hws0 & _). clear H0.
    destruct (span isDigit s0) as [n s1] eqn:E1.
    apply span_eq in E1 as (-> & Hn & _).
    destruct (span isWhiteSpace s1) as [ws1 s2] eqn:E2.
    apply span_eq in E2 as (-> & Hws1 & _).
    destruct (span isDigit s2) as [g s3] eqn:E3.
    apply span_eq in E3 as (-> & Hg & _).
    destruct (span isWhiteSpace s3) as [ws2 s4] eqn:E4.
    apply span_eq in E4 as (-> & Hws2 & _).
    destruct (_ || _) eqn:Hc; [done|].
    repeat (apply orb_false_iff in Hc as [Hc ?]).
    repeat match goal with H : bool_decide _ = false |- _ =>
      apply bool_decide_eq_false in H end.
    intros [[= <- <-] (rest & -> & Hrest)]%obj_word_inv.
    exists ws0, ws1, ws2, rest. split_and!; done.
  - intros (ws0 & ws1 & ws2 & rest & -> & Hws0 & Hn & Hdn & Hw1 & Hws1 & Hg & Hdg
            & Hw2 & Hws2 & Hrest).
    rewrite (span_unique isWhiteSpace ws0); [|done|].
    2: { by apply (head_false_app _ isDigit), digit_not_space. }
    cbn [snd]. rewrite (span_unique isDigit objNum); [|done|].
    2: { by apply (head_false_app _ isWhiteSpace), space_not_digit. }
    rewrite (span_unique isWhiteSpace ws1); [|done|].
    2: { by apply (head_false_app _ isDigit), digit_not_space. }
    rewrite (span_unique isDigit genNum); [|done|].
    2: { by apply (head_false_app _ isWhiteSpace), space_not_digit. }
    rewrite (span_unique isWhiteSpace ws2); [|done|done].
    rewrite !bool_decide_false by done. simpl.
    destruct rest as [|c rest]; [done|]. by rewrite Hrest.
Qed.

(** ** The dictionary parser *)

(** *** One match of the expression *)

Lemma dictRegex_at_unfold s :
  dictRegex_at s =
  match s with
  | c :: s1 =>
      if (c =? 47)%N then
        let '(key, s2) := span isWordChar s1 in
        if bool_decide (key = []) then None
        else
          let ws := fst (span isWhiteSpace s2) in
          match value_backtrack (length ws) s2 with
          | Some (j, v) => Some (mkMatch key (Some v) (1 + length key + j + length v))
          | None => Some (mkMatch key None (1 + length key))
          end
      else None
  | [] => None
  end.
Proof.
  destruct s as [|c s1]; [done|]. unfold dictRegex_at.
  destruct c as [|c]; [done|].
  do 6 (try (destruct c as [c|c|]; try done)).
Qed.

Lemma span_stop p x (c : N) y :
  p c = false ->
  span p (x ++ c :: y) = ((span p x).1, (span p x).2 ++ c :: y).
Proof.
  intros Hc. induction x as [|d x IH]; simpl; [by rewrite Hc|].
  destruct (p d); [|done]. rewrite IH. by destruct (span p x).
Qed.

Lemma span_length p s : length (span p s).1 <= length s.
Proof.
  rewrite <- (span_app p s) at 2. rewrite length_app. lia.
Qed.

Lemma value_backtrack_inv j0 s j v :
  value_backtrack j0 s = Some (j, v) ->
  0 < j <= j0 /\ v <> [] /\ v = (span isValueChar (drop j s)).1.
Proof.
  induction j0 as [|j0 IH]; simpl; [done|].
  case_bool_decide as Hv.
  - intros H. destruct (IH H) as (? & ? & ?). split; [lia|done].
  - intros [= <- <-]. split; [lia|done].
Qed.

Lemma value_backtrack_stop j s (c : N) y :
  j <= length s -> isValueChar c = false ->
  value_backtrack j (s ++ c :: y) = value_backtrack j s.
Proof.
  intros Hj Hc. induction j as [|j IH]; simpl; [done|].
  rewrite drop_app_le by lia. rewrite span_stop by done. simpl.
  case_bool_decide; [apply IH; lia|done].
Qed.

Lemma word_not_slash c : isWordChar c = true -> c <> 47%N.
Proof. by intros H ->. Qed.

Lemma space_not_slash c : isWhiteSpace c = true -> c <> 47%N.
Proof. by intros H ->. Qed.

Lemma value_not_slash c : isValueChar c = true -> c <> 47%N.
Proof. by intros H ->. Qed.

Lemma space_not_word c : isWhiteSpace c = true -> isWordChar c = false.
Proof.
  intros Hs. destruct (isWordChar c) eqn:Hw; [|done]. exfalso.
  unfold isWordChar, isDigit, isWhiteSpace in *.
  repeat (apply orb_true_iff in Hw as [Hw|Hw]);
  repeat (apply orb_true_iff in Hs as [Hs|Hs]);
  repeat match goal with
  | H : (_ && _) = true |- _ => apply andb_true_iff in H as [? ?]
  | H : (_ <=? _)%N = true |- _ => apply N.leb_le in H
  | H : (_ =? _)%N = true |- _ => apply N.eqb_eq in H
  end; lia.
Qed.

(** What a match covers: the solidus, the key, and a stretch without a
    solidus. *)
Lemma dictRegex_at_inv s m :
  dictRegex_at s = Some m ->
  exists s2,
    s = 47%N :: m_key m ++ s2 /\
    m_key m <> [] /\ Forall (fun c => isWordChar c = true) (m_key m) /\
    match s2 with [] => True | c :: _ => isWordChar c = false end /\
    m_length m <= length s /\
    Forall (fun c => c <> 47%N) (take (m_length m - 1) (m_key m ++ s2)).
Proof.
  rewrite dictRegex_at_unfold. destruct s as [|c s1]; [done|].
  destruct (c =? 47)%N eqn:Hc; [|done]. apply N.eqb_eq in Hc as ->.
  destruct (span isWordChar s1) as [key s2] eqn:Hk.
  apply span_eq in Hk as (-> & Hkey & Hs2).
  case_bool_decide as Hne; [done|].
  destruct (span isWhiteSpace s2) as [ws s3] eqn:Hws.
  apply span_eq in Hws as (-> & Hws & _). cbn [fst].
  destruct (value_backtrack (length ws) (ws ++ s3)) as [[j v]|] eqn:Hvb.
  - intros [= <-]. simpl. exists (ws ++ s3).
    apply value_backtrack_inv in Hvb as (Hj & Hv & Hveq).
    rewrite drop_app_le in Hveq by lia.
    pose proof (span_app isValueChar (drop j ws ++ s3)) as Hsplit.
    rewrite <- Hveq in Hsplit.
    pose proof (span_fst_Forall isValueChar (drop j ws ++ s3)) as Hvc.
    rewrite <- Hveq in Hvc.
    assert (ws ++ s3 = take j ws ++ v ++ (span isValueChar (drop j ws ++ s3)).2) as Heq.
    { rewrite Hsplit, app_assoc, take_drop. done. }
    split_and!; try done.
    + rewrite Heq, !length_app, length_take. lia.
    + match goal with |- Forall _ (take ?n _) =>
        replace n with (length key + (j + length v)) by lia end.
      rewrite take_app_add, Heq.
      replace j with (length (take j ws)) at 1 by (rewrite length_take; lia).
      rewrite take_app_add, take_app_length.
      rewrite !Forall_app. split_and!.
      * eapply Forall_impl; [done|]. apply word_not_slash.
      * apply Forall_take. eapply Forall_impl; [done|]. apply space_not_slash.
      * eapply Forall_impl; [done|]. apply value_not_slash.
  - intros [= <-]. simpl. exists (ws ++ s3). split_and!; try done.
    + rewrite length_app. lia.
    + match goal with |- Forall _ (take ?n _) =>
        replace n with (length key + 0) by lia end.
      rewrite take_app_add, take_0, app_nil_r.
      eapply Forall_impl; [done|]. apply word_not_slash.
Qed.

Lemma dictRegex_at_stop a b :
  a <> [] -> dictRegex_at (a ++ 47%N :: b) = dictRegex_at a.
Proof.
  intros Ha. rewrite !dictRegex_at_unfold. destruct a as [|c a]; [done|]. simpl.
  destruct (c =? 47)%N; [|done].
  rewrite span_stop by done.
  destruct (span isWordChar a) as [key s2]. simpl.
  case_bool_decide; [done|].
  rewrite span_stop by done. simpl.
  rewrite value_backtrack_stop; [done|apply span_length|done].
Qed.

(** *** The loop over the matches *)

Lemma parseDict_loop_unfold skip s info :
  parseDict_loop skip s info =
  match s with
  | [] => info
  | _ :: s' =>
      match skip with
      | S k => parseDict_loop k s' info
      | O =>
          match dictRegex_at s with
          | Some m =>
              let value :=
                match m_value m with
                | Some v => Str (trim v)
                | None => Flag
                end in
              parseDict_loop (m_length m - 1) s' (dict_set info (m_key m) value)
          | None => parseDict_loop 0 s' info
          end
      end
  end.
Proof. by destruct s. Qed.

Lemma dict_set_keys info key value k :
  is_Some (dict_set info key value !! k) <->
  is_Some (info !! k) \/ (k = key /\ key <> str "__proto__").
Proof.
  unfold dict_set. case_bool_decide as Hp.
  - split; [by left|]. intros [?|[-> ?]]; done.
  - destruct (decide (k = key)) as [->|Hk].
    + rewrite lookup_insert_eq. split; [by right|done].
    + rewrite lookup_insert_ne by done. split; [by left|]. by intros [?|[? ?]].
Qed.

Lemma parseDict_loop_mono skip s info k :
  is_Some (info !! k) -> is_Some (parseDict_loop skip s info !! k).
Proof.
  revert skip info. induction s as [|c s IH]; intros skip info Hk; [done|].
  rewrite parseDict_loop_unfold. destruct skip; [|by apply IH].
  destruct (dictRegex_at (c :: s)); [|by apply IH].
  apply IH, dict_set_keys. by left.
Qed.

Lemma nameToken_here key s2 :
  key <> [] -> Forall (fun c => isWordChar c = true) key ->
  match s2 with [] => True | c :: _ => isWordChar c = false end ->
  nameToken (47%N :: key ++ s2) key.
Proof. intros ???. split_and!; [done..|]. by exists [], s2. Qed.

Lemma nameToken_cons c s k : nameToken s k -> nameToken (c :: s) k.
Proof.
  intros (? & ? & pre & post & -> & ?). split_and!; [done..|].
  by exists (c :: pre), post.
Qed.

Lemma parseDict_loop_sound skip s info k :
  is_Some (parseDict_loop skip s info !! k) ->
  is_Some (info !! k) \/ (k <> str "__proto__" /\ nameToken s k).
Proof.
  revert skip info. induction s as [|c s IH]; intros skip info; [by left|].
  rewrite parseDict_loop_unfold.
  assert (forall sk inf, is_Some (parseDict_loop sk s inf !! k) ->
            is_Some (inf !! k) \/ k <> str "__proto__" /\ nameToken (c :: s) k) as IH'.
  { intros sk inf [?|[? ?%(nameToken_cons c)]]%IH; auto. }
  destruct skip; [|by apply IH'].
  destruct (dictRegex_at (c :: s)) as [m|] eqn:Hm; [|by apply IH'].
  intros [[Hk|[-> Hp]]%dict_set_keys|?]%IH'; auto.
  right. split; [done|].
  apply dictRegex_at_inv in Hm as (s2 & -> & Hne & Hw & Hs2 & _).
  by apply nameToken_here.
Qed.

Lemma parseDict_loop_complete pre k post skip info :
  k <> [] -> Forall (fun c => isWordChar c = true) k ->
  match post with [] => True | c :: _ => isWordChar c = false end ->
  k <> str "__proto__" ->
  Forall (fun c => c <> 47%N) (take skip pre) -> skip <= length pre ->
  is_Some (parseDict_loop skip (pre ++ 47%N :: k ++ post) info !! k).
Proof.
  intros Hne Hw Hpost Hproto. revert skip info.
  induction pre as [|c pre IH]; intros skip info Hskip Hlen.
  - simpl in Hlen. assert (skip = 0) as -> by lia. simpl app.
    rewrite parseDict_loop_unfold, dictRegex_at_unfold. simpl.
    rewrite span_unique by done. rewrite bool_decide_false by done.
    destruct (value_backtrack _ _) as [[j v]|]; simpl;
      apply parseDict_loop_mono, dict_set_keys; by right.
  - simpl app. rewrite parseDict_loop_unfold. destruct skip as [|skip].
    + destruct (dictRegex_at _) as [m|] eqn:Hm.
      * pose proof (dictRegex_at_inv _ _ Hm) as (s2 & Heq & _ & _ & _ & Hl & Hns).
        injection Heq as -> Heq. rewrite <- Heq in Hns.
        assert (m_length m - 1 <= length pre) as Hle.
        { destruct (decide (m_length m - 1 <= length pre)); [done|]. exfalso.
          rewrite Forall_forall in Hns. apply (Hns 47%N); [|done].
          apply list_elem_of_lookup. exists (length pre).
          rewrite lookup_take_lt by lia.
          by rewrite lookup_app_r, Nat.sub_diag by lia. }
        apply IH; [|done].
        rewrite <- (take_app_le _ (47%N :: k ++ post)) by done. done.
      * apply IH; [by rewrite take_0|lia].
    + simpl in Hskip, Hlen. apply IH; [by inversion Hskip|lia].
Qed.

(** X11.  The keys of the parsed dictionary are exactly the names that
    occur in the text, a solidus followed by a maximal run of word
    characters, wherever they occur: a name in the place of a value, as in
    [/Type /Catalog], becomes a key too.  The one exception is the name
    [__proto__], which an assignment to an object does not create. *)
Theorem parseDictFromRaw_keys raw k :
  is_Some (parseDictFromRaw raw !! k) <-> k <> str "__proto__" /\ nameToken raw k.
Proof.
  unfold parseDictFromRaw. split.
  - intros [H|H]%parseDict_loop_sound; [|done].
    rewrite lookup_empty in H. by destruct H.
  - intros (Hp & Hne & Hw & pre & post & -> & Hpost).
    apply parseDict_loop_complete; try done. lia.
Qed.

(** *** Texts put together *)

Lemma parseDict_loop_short skip s info :
  length s <= skip -> parseDict_loop skip s info = info.
Proof.
  revert skip. induction s as [|c s IH]; intros skip Hl; [done|].
  simpl in Hl. destruct skip as [|skip]; [lia|]. simpl. apply IH. lia.
Qed.

Lemma parseDict_loop_no_solidus skip s info :
  Forall (fun c => c <> 47%N) s -> parseDict_loop skip s info = info.
Proof.
  intros Hs. revert skip. induction Hs as [|c s Hc _ IH]; intros skip; [done|].
  rewrite parseDict_loop_unfold. destruct skip; [|done].
  rewrite dictRegex_at_unfold. by apply N.eqb_neq in Hc as ->.
Qed.

Lemma parseDict_loop_app a b skip info :
  skip <= length a ->
  parseDict_loop skip (a ++ 47%N :: b) info
  = parseDict_loop 0 (47%N :: b) (parseDict_loop skip a info).
Proof.
  revert skip info. induction a as [|c a IH]; intros skip info Hl.
  - simpl in Hl. by assert (skip = 0) as -> by lia.
  - simpl app. rewrite (parseDict_loop_unfold skip (c :: a)), parseDict_loop_unfold.
    destruct skip as [|skip]; [|apply IH; simpl in Hl; lia].
    pose proof (dictRegex_at_stop (c :: a) b) as Hst. simpl app in Hst.
    rewrite Hst by done.
    destruct (dictRegex_at (c :: a)) as [m|] eqn:Hm; [|apply IH; lia].
    apply IH. apply dictRegex_at_inv in Hm as (_ & _ & _ & _ & _ & Hlen & _).
    simpl in Hlen. lia.
Qed.

Lemma trim_spaces v : Forall (fun c => isWhiteSpace c = true) v -> trim v = [].
Proof.
  intros Hv. unfold trim, trimStart.
  replace v with (v ++ []) by apply app_nil_r.
  by rewrite span_unique.
Qed.

Lemma trim_inner v :
  match v with [] => True | c :: _ => isWhiteSpace c = false end ->
  trimStart v = v.
Proof. intros Hv. unfold trimStart. by rewrite (span_unique _ [] v). Qed.

(** One entry at the end of a text: the key and what the expression
    captures as its value. *)
Lemma parseDict_loop_entry k v info :
  k <> [] -> Forall (fun c => isWordChar c = true) k ->
  v <> [] -> Forall (fun c => isValueChar c = true) v ->
  match v with [] => True | c :: _ => isWhiteSpace c = false end ->
  parseDict_loop 0 (47%N :: k ++ 32%N :: v) info = dict_set info k (Str (trim v)).
Proof.
  intros Hk Hw Hv Hvc Hhead.
  rewrite parseDict_loop_unfold, dictRegex_at_unfold. simpl.
  rewrite span_unique by done. rewrite bool_decide_false by done.
  pose proof (span_unique isWhiteSpace [32%N] v) as Hsp. simpl app in Hsp.
  rewrite Hsp by (done || by repeat constructor).
  simpl. rewrite drop_0.
  replace (span isValueChar v) with (v, @nil N)
    by (symmetry; rewrite <- (app_nil_r v) at 1; by apply span_unique).
  simpl. rewrite bool_decide_false by done. simpl.
  apply parseDict_loop_short. rewrite length_app. simpl. lia.
Qed.

(** X12.  An entry written at the end of a dictionary text, a name, one
    space and a value made of characters other than the solidus, the
    greater-than sign and the line terminators, is stored under its name
    with the value trimmed, and replaces what an earlier entry of the same
    name had stored; the entries before it are parsed as they are without
    it. *)
Theorem parseDictFromRaw_last_entry raw k v :
  k <> [] -> Forall (fun c => isWordChar c = true) k -> k <> str "__proto__" ->
  v <> [] -> Forall (fun c => isValueChar c = true) v ->
  match v with [] => True | c :: _ => isWhiteSpace c = false end ->
  parseDictFromRaw (raw ++ 47%N :: k ++ 32%N :: v)
  = <[k := Str (trim v)]> (parseDictFromRaw raw).
Proof.
  intros Hk Hw Hp Hv Hvc Hhead. unfold parseDictFromRaw.
  rewrite parseDict_loop_app by lia. rewrite parseDict_loop_entry by done.
  unfold dict_set. by rewrite bool_decide_false.
Qed.

(** *** A name in the place of a value *)

Lemma head_not_word ws :
  Forall (fun c => isWhiteSpace c = true) ws ->
  match ws with [] => True | c :: _ => isWordChar c = false end.
Proof. intros H. destruct H; [done|]. by apply space_not_word. Qed.

Lemma parseDict_loop_key_only k ws info :
  k <> [] -> Forall (fun c => isWordChar c = true) k ->
  Forall (fun c => isWhiteSpace c = true) ws ->
  exists value, (value = Flag \/ value = Str []) /\
    parseDict_loop 0 (47%N :: k ++ ws) info = dict_set info k value.
Proof.
  intros Hk Hw Hws.
  assert (Forall (fun c => c <> 47%N) (k ++ ws)) as Hns.
  { apply Forall_app. split; (eapply Forall_impl; [done|]);
      [apply word_not_slash|apply space_not_slash]. }
  rewrite parseDict_loop_unfold, dictRegex_at_unfold. simpl.
  rewrite span_unique by (done || by apply head_not_word).
  rewrite bool_decide_false by done.
  replace (span isWhiteSpace ws) with (ws, @nil N)
    by (symmetry; rewrite <- (app_nil_r ws) at 1; by apply span_unique).
  simpl.
  destruct (value_backtrack (length ws) ws) as [[j v]|] eqn:Hvb; simpl.
  - exists (Str (trim v)). split; [|by apply parseDict_loop_no_solidus].
    right. f_equal. apply trim_spaces.
    apply value_backtrack_inv in Hvb as (_ & _ & ->).
    pose proof (span_app isValueChar (drop j ws)) as Hsp.
    assert (Forall (fun c => isWhiteSpace c = true) (drop j ws)) as Hd
      by by apply Forall_drop.
    rewrite <- Hsp in Hd. by apply Forall_app in Hd as [? _].
  - exists Flag. split; [by left|by apply parseDict_loop_no_solidus].
Qed.

Lemma parseDict_loop_name_only n info :
  Forall (fun c => isWordChar c = true) n ->
  parseDict_loop 0 (47%N :: n) info = info \/
  parseDict_loop 0 (47%N :: n) info = dict_set info n Flag.
Proof.
  intros Hn. rewrite parseDict_loop_unfold, dictRegex_at_unfold. simpl.
  replace (span isWordChar n) with (n, @nil N)
    by (symmetry; rewrite <- (app_nil_r n) at 1; by apply span_unique).
  case_bool_decide as Hne.
  - left. subst n. done.
  - right. simpl. apply parseDict_loop_short. lia.
Qed.

(** X13.  A value written as a name is not captured.  When the text ends
    with a key, white space and a name, as in [/Filter /FlateDecode], the
    key is stored as a flag, or with the empty string when more than one
    blank separates the two; either way [normalizeFilters] finds no filter
    in it. *)
Theorem parseDictFromRaw_name_value raw k ws n :
  k <> [] -> Forall (fun c => isWordChar c = true) k -> k <> str "__proto__" ->
  Forall (fun c => isWhiteSpace c = true) ws ->
  Forall (fun c => isWordChar c = true) n ->
  (parseDictFromRaw (raw ++ 47%N :: k ++ ws ++ 47%N :: n) !! k = Some Flag \/
   parseDictFromRaw (raw ++ 47%N :: k ++ ws ++ 47%N :: n) !! k = Some (Str [])) /\
  normalizeFilters (parseDictFromRaw (raw ++ 47%N :: k ++ ws ++ 47%N :: n) !! k) = [].
Proof.
  intros Hk Hw Hp Hws Hn.
  assert (parseDictFromRaw (raw ++ 47%N :: k ++ ws ++ 47%N :: n) !! k = Some Flag \/
          parseDictFromRaw (raw ++ 47%N :: k ++ ws ++ 47%N :: n) !! k = Some (Str []))
    as H; [|split; [done|by destruct H as [-> | ->]]].
  unfold parseDictFromRaw.
  replace (raw ++ 47%N :: k ++ ws ++ 47%N :: n)
    with ((raw ++ 47%N :: k ++ ws) ++ 47%N :: n)
    by (by rewrite <- !app_assoc, <- app_comm_cons, <- app_assoc).
  rewrite parseDict_loop_app by lia.
  rewrite (parseDict_loop_app raw (k ++ ws)) by lia.
  destruct (parseDict_loop_key_only k ws (parseDict_loop 0 raw ∅) Hk Hw Hws)
    as (value & Hvalue & ->).
  assert (forall info : Dict, dict_set info k value !! k = Some value) as Hlook.
  { intros info. unfold dict_set. rewrite bool_decide_false by done.
    apply lookup_insert_eq. }
  destruct (parseDict_loop_name_only n (dict_set (parseDict_loop 0 raw ∅) k value) Hn)
    as [-> | ->].
  - rewrite Hlook. by destruct Hvalue as [-> | ->]; [left|right].
  - assert (forall info : Dict, dict_set info n Flag !! k = info !! k \/
                                 dict_set info n Flag !! k = Some Flag) as Hn2.
    { intros info. unfold dict_set. case_bool_decide; [by left|].
      destruct (decide (n = k)) as [->|Hnk].
      - right. apply lookup_insert_eq.
      - left. by apply lookup_insert_ne. }
    destruct (Hn2 (dict_set (parseDict_loop 0 raw ∅) k value)) as [-> | ->]; [|by left].
    rewrite Hlook. by destruct Hvalue as [-> | ->]; [left|right].
Qed.

(** ** The stream filters *)

(** *** normalizeFilters *)

Lemma uniq_fold names seen :
  NoDup seen ->
  NoDup (fold_left (fun seen f => if bool_decide (f ∈ seen) then seen else seen ++ [f])
           names seen) /\
  forall f : FilterName,
    f ∈ fold_left (fun seen f => if bool_decide (f ∈ seen) then seen else seen ++ [f])
          names seen
    <-> f ∈ seen \/ f ∈ names.
Proof.
  revert seen. induction names as [|x names IH]; intros seen Hnd; simpl.
  - split; [done|]. intros f. rewrite elem_of_nil. tauto.
  - case_bool_decide as Hx.
    + destruct (IH seen Hnd) as [H1 H2]. split; [done|]. intros f.
      rewrite H2, elem_of_cons. split; [tauto|]. intros [?|[->|?]]; auto.
    + destruct (IH (seen ++ [x])) as [H1 H2].
      { apply NoDup_app. split_and!; [done| |apply NoDup_singleton].
        intros y Hy ->%list_elem_of_singleton. done. }
      split; [done|]. intros f.
      rewrite H2, elem_of_app, list_elem_of_singleton, elem_of_cons. tauto.
Qed.

Lemma filterRegex_at_spec s f :
  filterRegex_at s = Some f <-> exists rest, s = filterName f ++ rest.
Proof.
  split.
  - unfold filterRegex_at.
    destruct (list_find _ _) as [[i x]|] eqn:Hfind; [|done].
    intros [= <-]. apply list_find_Some in Hfind as (_ & Hx & _).
    by apply startsWith_spec in Hx.
  - intros [rest ->]. by destruct f.
Qed.

Lemma filterRegex_at_no_overlap s f i :
  filterRegex_at s = Some f -> 0 < i < length (filterName f) ->
  filterRegex_at (drop i s) = None.
Proof.
  intros [rest ->]%filterRegex_at_spec Hi.
  destruct f; simpl in Hi;
    do 15 (destruct i as [|i]; [try lia; try reflexivity|]); lia.
Qed.

Lemma matchFilters_unfold skip s :
  matchFilters skip s =
  match s with
  | [] => []
  | _ :: s' =>
      match skip with
      | S k => matchFilters k s'
      | O =>
          match filterRegex_at s with
          | Some f => f :: matchFilters (length (filterName f) - 1) s'
          | None => matchFilters 0 s'
          end
      end
  end.
Proof. by destruct s. Qed.

Lemma contains_cons {A} (c : A) s sub : contains s sub -> contains (c :: s) sub.
Proof. intros (pre & post & ->). by exists (c :: pre), post. Qed.

Lemma matchFilters_sound skip s f :
  f ∈ matchFilters skip s -> contains s (filterName f).
Proof.
  revert skip. induction s as [|c s IH]; intros skip; [by rewrite matchFilters_unfold, elem_of_nil|].
  rewrite matchFilters_unfold. destruct skip.
  - destruct (filterRegex_at (c :: s)) as [f'|] eqn:Hf.
    + intros [->|?]%elem_of_cons; [|by eapply contains_cons, IH].
      apply filterRegex_at_spec in Hf as [rest ->]. by exists [], rest.
    + intros ?. by eapply contains_cons, IH.
  - intros ?. by eapply contains_cons, IH.
Qed.

Lemma matchFilters_complete pre f post skip :
  (forall i, i < skip -> filterRegex_at (drop i (pre ++ filterName f ++ post)) = None) ->
  f ∈ matchFilters skip (pre ++ filterName f ++ post).
Proof.
  revert skip. induction pre as [|c pre IH]; intros skip Hclear.
  - assert (filterRegex_at (filterName f ++ post) = Some f) as Hf
      by (apply filterRegex_at_spec; by exists post).
    destruct skip as [|skip].
    + simpl app. rewrite matchFilters_unfold.
      destruct (filterName f ++ post) as [|c s] eqn:Hs; [by destruct f|].
      rewrite Hf. apply list_elem_of_here.
    + specialize (Hclear 0 ltac:(lia)). rewrite drop_0 in Hclear. simpl in *. congruence.
  - simpl app. rewrite matchFilters_unfold. destruct skip as [|skip].
    + destruct (filterRegex_at _) as [f'|] eqn:Hf.
      * apply list_elem_of_further, IH. intros i Hi.
        apply (filterRegex_at_no_overlap _ _ (S i) Hf). lia.
      * apply IH. intros i Hi. lia.
    + apply IH. intros i Hi. apply (Hclear (S i)). lia.
Qed.

Lemma normalizeFilters_NoDup filterValue : NoDup (normalizeFilters filterValue).
Proof.
  unfold normalizeFilters.
  destruct filterValue as [[|[|c s]]|]; try apply NoDup_nil_2.
  apply uniq_fold, NoDup_nil_2.
Qed.

(** X14.  The filter chain [normalizeFilters] returns holds every
    recognized filter name that occurs anywhere in the value of [Filter],
    once each and nothing else; it is empty when the entry is missing or is
    a flag. *)
Theorem normalizeFilters_recognized filterValue :
  NoDup (normalizeFilters filterValue) /\
  forall f, f ∈ normalizeFilters filterValue <->
            exists s, filterValue = Some (Str s) /\ contains s (filterName f).
Proof.
  split; [apply normalizeFilters_NoDup|]. intros f.
  unfold normalizeFilters.
  destruct filterValue as [[|[|c s]]|].
  - rewrite elem_of_nil. split; [done|]. by intros (s & ? & _).
  - rewrite elem_of_nil. split; [done|]. intros (s & [= <-] & (pre & post & Hc)).
    destruct pre; [by destruct f|done].
  - unfold uniq. destruct (uniq_fold (matchFilters 0 (c :: s)) [] ltac:(apply NoDup_nil_2))
      as [_ ->].
    rewrite elem_of_nil. split.
    + intros [[]|Hf]. exists (c :: s). split; [done|]. by eapply matchFilters_sound.
    + intros (s' & [= <-] & (pre & post & ->)). right.
      apply matchFilters_complete. intros i Hi. lia.
  - rewrite elem_of_nil. split; [done|]. by intros (s & ? & _).
Qed.

(** *** decodeStreamBytes *)

(** X15.  The decode step inflates a stream at most once: what it returns
    is either the raw bytes or the result of one [inflateFlateDecode] of the
    raw bytes, which may be its failure.  A chain that names [FlateDecode]
    several times is inflated once, because the chain is deduplicated. *)
Theorem decodeStreamBytes_inflates_once objectInfo rawBytes :
  decodeStreamBytes objectInfo rawBytes = Ok rawBytes \/
  decodeStreamBytes objectInfo rawBytes = inflateFlateDecode rawBytes.
Proof.
  unfold decodeStreamBytes.
  pose proof (normalizeFilters_NoDup (objectInfo !! str "Filter")) as Hnd.
  destruct (normalizeFilters (objectInfo !! str "Filter")) as [|f filters]; [by left|].
  rewrite bool_decide_false by done. simpl.
  case_bool_decide as Hf; [|by left]. subst f.
  destruct (inflateFlateDecode rawBytes) as [out|e]; [|by right].
  cbn [mbind result_bind].
  destruct filters as [|f filters]; [by right|]. simpl.
  rewrite bool_decide_false; [by left|].
  intros ->. apply NoDup_cons in Hnd as [Hnd _]. apply Hnd, list_elem_of_here.
Qed.

(** ** readDictionaryBlock *)

Lemma readDictionaryBlock_loop_closed {R} `{LineReader R} fuel (reader : R) raw :
  includes raw (str ">>") = true ->
  readDictionaryBlock_loop fuel reader raw = Ok (raw, reader).
Proof. intros Hi. destruct fuel; cbn [readDictionaryBlock_loop]; by rewrite Hi. Qed.

Lemma find_sub_first (c : N) sub pre post i :
  c ∉ pre ->
  find_sub (c :: sub) (pre ++ (c :: sub) ++ post) i = Some (i + length pre).
Proof.
  intros Hc. revert i. induction pre as [|x pre IH]; intros i.
  - rewrite find_sub_unfold.
    assert (startsWith ([] ++ (c :: sub) ++ post) (c :: sub) = true) as ->
      by (apply startsWith_spec; by exists post).
    f_equal. simpl. lia.
  - rewrite find_sub_unfold. apply not_elem_of_cons in Hc as [Hx Hc].
    assert (startsWith ((x :: pre) ++ (c :: sub) ++ post) (c :: sub) = false) as ->.
    { simpl. by rewrite bool_decide_false. }
    change ((x :: pre) ++ (c :: sub) ++ post) with (x :: (pre ++ (c :: sub) ++ post)).
    cbv beta iota. rewrite IH by done. f_equal. simpl. lia.
Qed.

Lemma indexOf_first (c : N) sub pre post :
  c ∉ pre ->
  indexOf (pre ++ (c :: sub) ++ post) (c :: sub) 0 = Z.of_nat (length pre).
Proof.
  intros Hc. unfold indexOf. simpl Nat.min. rewrite drop_0.
  by rewrite find_sub_first.
Qed.

Lemma indexOf_first_from (c : N) sub skipped pre post :
  c ∉ pre ->
  indexOf (skipped ++ pre ++ (c :: sub) ++ post) (c :: sub) (Z.of_nat (length skipped))
  = Z.of_nat (length skipped + length pre).
Proof.
  intros Hc. unfold indexOf. rewrite Nat2Z.id.
  rewrite Nat.min_l by (rewrite length_app; lia).
  rewrite drop_app_length. by rewrite find_sub_first.
Qed.

Lemma readDictionaryBlock_closed_line {R} `{LineReader R} (reader : R) pre body post :
  60%N ∉ pre -> 62%N ∉ body ->
  readDictionaryBlock reader (pre ++ str "<<" ++ body ++ str ">>" ++ post)
  = Ok (mkBlock (Some (trim body))
          (bool_decide (trim post = str "stream")
           || startsWith (trim post) (str "stream ")),
        reader).
Proof.
  intros Hpre Hbody. unfold readDictionaryBlock.
  rewrite readDictionaryBlock_loop_closed.
  2: { apply includes_spec. exists (pre ++ str "<<" ++ body), post.
       by rewrite <- !app_assoc. }
  cbn [mbind result_bind].
  set (raw := pre ++ str "<<" ++ body ++ str ">>" ++ post).
  assert (indexOf raw (str "<<") 0 = Z.of_nat (length pre)) as ->
    by apply (indexOf_first 60%N [60%N] pre (body ++ str ">>" ++ post) Hpre).
  assert (raw = (pre ++ str "<<") ++ body ++ str ">>" ++ post) as Hraw
    by (unfold raw; by rewrite <- !app_assoc).
  assert (length (pre ++ str "<<") = length pre + 2) as Hlen
    by (by rewrite length_app).
  assert (indexOf raw (str ">>") (Z.of_nat (length pre) + 2)
          = Z.of_nat (length pre + 2 + length body)) as ->.
  { rewrite Hraw, <- Hlen.
    replace (Z.of_nat (length pre) + 2)%Z with (Z.of_nat (length (pre ++ str "<<")))
      by lia.
    apply (indexOf_first_from 62%N [62%N] (pre ++ str "<<") body post Hbody). }
  rewrite !bool_decide_false by lia. cbn [orb].
  do 3 f_equal.
  - f_equal. unfold slice.
    replace (Z.to_nat (Z.of_nat (length pre) + 2)) with (length (pre ++ str "<<")) by lia.
    rewrite Nat2Z.id, Hraw, drop_app_length.
    replace (length pre + 2 + length body - length (pre ++ str "<<")) with (length body)
      by lia.
    by rewrite take_app_length.
  - assert (slice_from raw (Z.of_nat (length pre + 2 + length body) + 2) = post) as ->;
      [|done].
    unfold slice_from.
    replace (Z.to_nat (Z.of_nat (length pre + 2 + length body) + 2))
      with (length ((pre ++ str "<<") ++ body ++ str ">>"))
      by (rewrite !length_app; simpl; lia).
    rewrite Hraw.
    replace ((pre ++ str "<<") ++ body ++ str ">>" ++ post)
      with (((pre ++ str "<<") ++ body ++ str ">>") ++ post)
      by (by rewrite <- !app_assoc).
    by rewrite drop_app_length.
Qed.

(** X16.  A dictionary that opens and closes on the line it starts on is
    taken from that line alone, without reading a further line: the text
    between [<<] and the first [>>], trimmed; and the stream keyword is
    recognized when what follows [>>] is, after trimming, [stream] or
    begins with [stream] and a space. *)
Theorem readDictionaryBlock_one_line {R} `{LineReader R} (reader : R) pre body post :
  60%N ∉ pre -> 62%N ∉ body ->
  readDictionaryBlock reader (pre ++ str "<<" ++ body ++ str ">>" ++ post)
  = Ok (mkBlock (Some (trim body))
          (bool_decide (trim post = str "stream")
           || startsWith (trim post) (str "stream ")),
        reader).
Proof. apply readDictionaryBlock_closed_line. Qed.

Lemma find_sub_min sub s i e :
  sub <> [] -> find_sub sub s i = Some e ->
  i <= e /\ ~ contains (take (e - i) s) sub.
Proof.
  intros Hne. revert i. induction s as [|c s IH]; intros i; rewrite find_sub_unfold.
  - destruct (startsWith [] sub) eqn:Hs; [|done]. intros [= <-].
    split; [lia|]. rewrite take_nil. intros (pre & post & Hc).
    destruct pre, sub; done.
  - destruct (startsWith (c :: s) sub) eqn:Hs.
    + intros [= <-]. split; [lia|]. rewrite Nat.sub_diag, take_0.
      intros (pre & post & Hc). destruct pre, sub; done.
    + intros H. destruct (IH (S i) H) as [Hle Hno]. split; [lia|].
      replace (e - i) with (S (e - S i)) by lia. simpl.
      intros (pre & post & Hc). destruct pre as [|x pre].
      * simpl in Hc.
        assert (startsWith (c :: s) sub = true); [|congruence].
        apply startsWith_spec. exists (post ++ drop (e - S i) s).
        rewrite app_assoc, <- Hc. simpl. by rewrite take_drop.
      * injection Hc as _ Hc. apply Hno. by exists pre, post.
Qed.

Lemma trimStart_suffix x : exists a, x = a ++ trimStart x.
Proof. exists (span isWhiteSpace x).1. unfold trimStart. by rewrite span_app. Qed.

Lemma trim_contains x sub : contains (trim x) sub -> contains x sub.
Proof.
  intros (pre & post & Hc). unfold trim in Hc.
  destruct (trimStart_suffix x) as [a Ha].
  destruct (trimStart_suffix (reverse (trimStart x))) as [b Hb].
  apply (f_equal reverse) in Hb. rewrite reverse_involutive, reverse_app, Hc in Hb.
  exists (a ++ pre), (post ++ reverse b).
  rewrite Ha at 1. rewrite Hb. by rewrite <- !app_assoc.
Qed.

(** X17.  The dictionary text that [readDictionaryBlock] returns never
    contains [>>]: the text ends at the first [>>] after the opening [<<],
    so a dictionary nested in another cuts it short.  When no dictionary
    text is returned, no stream keyword is reported either. *)
Theorem readDictionaryBlock_dictText_closed {R} `{LineReader R}
    (reader reader' : R) firstLine block :
  readDictionaryBlock reader firstLine = Ok (block, reader') ->
  match dictText block with
  | Some d => ~ contains d (str ">>")
  | None => streamInline block = false
  end.
Proof.
  unfold readDictionaryBlock.
  destruct (readDictionaryBlock_loop _ reader firstLine) as [[raw r1]|e]; [|done].
  cbn [mbind result_bind].
  destruct (_ || _) eqn:Hc; [by intros [= <- _]|].
  intros [= <- _]. cbn [dictText].
  apply orb_false_iff in Hc as [_ Hend%bool_decide_eq_false].
  intros Hd%trim_contains. revert Hend Hd.
  generalize (indexOf raw (str "<<") 0 + 2)%Z. intros from.
  unfold indexOf, slice.
  destruct (find_sub _ _ _) as [e|] eqn:Hfind; [|done]. intros _.
  simpl js_index. rewrite Nat2Z.id.
  destruct (decide (Z.to_nat from <= length raw)) as [Hle|Hgt].
  - rewrite Nat.min_l in Hfind by done. by apply find_sub_min in Hfind as [_ Hno].
  - rewrite drop_ge by lia. rewrite take_nil. intros (pre & post & Hc). by destruct pre.
Qed.

(** ** XmlHandler *)

(** X18.  The creator-tool callback is handed a text only after an open
    tag that announces a creator tool: when the parser reports no such tag,
    the callback is never called and no classification is thrown, whatever
    texts the document holds. *)
Theorem XmlHandler_calls_back_only_after_tag onCreatorTool events :
  Forall otherTag events ->
  snd (XmlHandler.run onCreatorTool false events) = [] /\
  forall hit, fst (XmlHandler.run onCreatorTool false events) <> Some (ThrownHit hit).
Proof.
  induction 1 as [|ev events Hev _ IH]; [done|].
  destruct ev as [message|uri local name|text|]; cbn [XmlHandler.run negb].
  - by destruct (startsWith message (str "Invalid character entity")).
  - cbn [otherTag] in Hev. by rewrite Hev.
  - done.
  - done.
Qed.

(** X19.  The errors the handler resumes from, those whose message starts
    with [Invalid character entity], leave no trace: the outcome is the one
    of the same events without these errors. *)
Theorem XmlHandler_resumes_entity_errors onCreatorTool readingCreatorTool events :
  XmlHandler.run onCreatorTool readingCreatorTool
    (filter (fun ev => resumedError ev = false) events)
  = XmlHandler.run onCreatorTool readingCreatorTool events.
Proof.
  revert readingCreatorTool.
  induction events as [|ev events IH]; intros b; [done|].
  rewrite filter_cons.
  destruct ev as [message|uri local name|text|]; cbn [resumedError XmlHandler.run].
  - destruct (startsWith message (str "Invalid character entity")) eqn:Hs.
    + rewrite decide_False by done. apply IH.
    + rewrite decide_True by done. cbn [XmlHandler.run]. by rewrite Hs.
  - rewrite decide_True by done. cbn [XmlHandler.run]. apply IH.
  - rewrite decide_True by done. cbn [XmlHandler.run].
    destruct b; cbn [negb]; [|apply IH].
    destruct (onCreatorTool text); [done|]. by rewrite IH.
  - rewrite decide_True by done. cbn [XmlHandler.run]. apply IH.
Qed.

(** ** The Illustrator probe *)

Lemma contains_map_inv {A B} (f : A -> B) l sub :
  contains (map f l) sub -> exists w, contains l w /\ map f w = sub.
Proof.
  intros (pre & post & Hc).
  apply map_eq_app in Hc as (l1 & l2 & -> & _ & Hc).
  apply map_eq_app in Hc as (w & l3 & -> & Hw & _).
  exists w. split; [by exists l1, l3|done].
Qed.

Lemma hit_marker ctx cp hit :
  checkpoint_hit ctx cp = Some hit -> illustrator_marker cp.
Proof.
  destruct cp as [dictText dict|objectInfo rawBytes|streamText objectInfo|creatorTool].
  - rewrite checkpoint_hit_dict. destruct (_ || _) eqn:Hc; [|done]. intros _.
    repeat (apply orb_true_iff in Hc as [Hc|Hc]).
    + left. by apply bool_decide_eq_true in Hc.
    + right; left. by apply includes_spec.
    + right; right; right; left.
      apply valueIncludes_spec in Hc as (v & ? & _ & ?). by exists v.
    + right; right; right; right.
      apply valueIncludes_spec in Hc as (v & ? & _ & ?). by exists v.
    + right; right; left. by apply includes_spec.
  - done.
  - rewrite checkpoint_hit_stream. destruct (includes _ _) eqn:Hc; [|done]. intros _.
    by apply includes_spec.
  - rewrite checkpoint_hit_creatorTool. destruct (includes _ _) eqn:Hc; [|done].
    intros _. apply includes_spec in Hc. by apply contains_map_inv in Hc.
Qed.

(** X20.  The probe answers at a checkpoint exactly when the checkpoint
    carries one of the Illustrator markers, and its answer is then the
    Illustrator classification: the flag [Illustrator], the texts
    [/Illustrator] or [Adobe Illustrator] in the dictionary text,
    [Illustrator] in the value of [Creator] or [Producer], [Adobe
    Illustrator] in a stream text, or [illustrator] in any letter case in a
    creator tool. *)
Theorem illustrator_probe_hits ctx cp hit :
  checkpoint_hit ctx cp = Some hit <-> hit = AI_TYPE /\ illustrator_marker cp.
Proof.
  split.
  - intros Hh. split; [by eapply hit_is_illustrator|by eapply hit_marker].
  - intros [-> Hm]. by apply marker_hit.
Qed.

(** ** Further properties of a whole call *)

Lemma occurs_at_contains {A} (hay needle : list A) :
  contains hay needle <-> exists i, occurs_at hay needle i.
Proof.
  split.
  - intros (pre & post & ->). exists (length pre), post. by rewrite drop_app_length.
  - intros (i & rest & Hd). exists (take i hay), rest. by rewrite <- Hd, take_drop.
Qed.

(** X21.  A call that returns, returns one of three results: "no match",
    exactly when the signature is absent from the first 1024 bytes; the
    generic PDF classification, and then no checkpoint of the scan carried
    an Illustrator marker; or the Illustrator classification, and then the
    last checkpoint the scan reached carries a marker. *)
Theorem detect_result_range tokenizer opts r :
  (_detectPdf tokenizer opts).1 = Ok r ->
  (r = None /\ ~ contains (take 1024 (remaining tokenizer)) (bytes_of "%PDF-"))
  \/ (r = Some PDF_TYPE /\
      contains (take 1024 (remaining tokenizer)) (bytes_of "%PDF-") /\
      Forall (fun cp => ~ illustrator_marker cp)
        (run_trace (_detectPdf_run tokenizer opts)))
  \/ (r = Some AI_TYPE /\
      contains (take 1024 (remaining tokenizer)) (bytes_of "%PDF-") /\
      exists tr cp, run_trace (_detectPdf_run tokenizer opts) = tr ++ [cp] /\
                    illustrator_marker cp).
Proof.
  unfold _detectPdf. cbn [fst].
  destruct (peekPdfHeader_cases tokenizer) as [(i & Hh & [Ho _] & _)|[Hh Hno]].
  - assert (isPdf (peekPdfHeader tokenizer) = true) as Hpdf by (by rewrite Hh).
    assert (contains (take 1024 (remaining tokenizer)) (bytes_of "%PDF-")) as Hc
      by (apply occurs_at_contains; by exists i).
    destruct (detect_run_inv tokenizer opts Hpdf) as (o & -> & Hinv & _).
    destruct o as [|hit|e]; simpl; [| |done].
    + intros [= <-]. right; left. split_and!; [done..|].
      apply Forall_forall. intros cp Hcp Hm.
      destruct (clean_elem _ _ _ Hinv Hcp) as [Hnone _].
      by rewrite (marker_hit _ _ Hm) in Hnone.
    + intros [= <-]. right; right.
      destruct Hinv as (tr & cp & -> & _ & Hhit).
      rewrite (hit_is_illustrator _ _ _ Hhit). split_and!; [done..|].
      exists tr, cp. split; [done|]. by eapply hit_marker.
  - rewrite detect_run_not_pdf by (by rewrite Hh). simpl. intros [= <-]. left.
    split; [done|]. intros [i Hi]%occurs_at_contains. by apply (Hno i).
Qed.

(** X22.  A call throws only a stream-decode failure or an error of the
    XML parser.  It throws a decode failure only when the last thing the
    scan did was to decode a stream, and that decode failed.  It throws an
    XML error only when the scan had fed the XML parser the text of a
    stream whose dictionary looks like XMP metadata, and the parser
    reported that error for that text, an error the handler does not
    resume from; the text of a stream that is not fed to the parser never
    makes the call throw.  A truncated file, a missing or negative
    [Length], or a stream shorter than its [Length] never make it throw
    either: no end-of-stream error and no error of [readBytes] or
    [skipBytes] escapes. *)
Theorem detect_failure_kinds tokenizer opts e :
  (_detectPdf tokenizer opts).1 = Err e ->
  (e = DecompressionFailed /\
   exists tr objectInfo rawBytes,
     run_trace (_detectPdf_run tokenizer opts) = tr ++ [AtDecode objectInfo rawBytes] /\
     decodeStreamBytes objectInfo rawBytes = Err DecompressionFailed)
  \/ (exists message tr streamText objectInfo texts,
        e = SaxError message /\
        run_trace (_detectPdf_run tokenizer opts)
          = tr ++ AtStreamText streamText objectInfo :: (AtCreatorTool <$> texts) /\
        looksLikeXmp objectInfo = true /\
        OnError message ∈ saxParse streamText /\
        startsWith message (str "Invalid character entity") = false).
Proof.
  unfold _detectPdf. cbn [fst]. apply detect_run_failure.
Qed.

(** *** The line budget *)

Lemma scan_loop_more {R} `{LineReader R} ctx n k (s : ScanState R) :
  (scan_loop ctx n s).1 <> LoopEnded ->
  scan_loop ctx (n + k) s = scan_loop ctx n s.
Proof.
  revert s. induction n as [|n IH]; intros s; [done|].
  cbn [Nat.add scan_loop].
  destruct (scan_body ctx (incr_scannedLines s)); try done. apply IH.
Qed.

(** X23.  Raising the line budget never loses a finding: when a call
    ends with anything but the generic PDF classification, be it the
    Illustrator classification, "no match" or a failure, every call on the
    same input with a larger [maxScanLines] ends the same way. *)
Theorem detect_budget_monotone tokenizer debug1 debug2 maxScanLines1 maxScanLines2 :
  (maxScanLines1 <= maxScanLines2)%Z ->
  (_detectPdf tokenizer (mkOptions debug1 (Some maxScanLines1))).1
    <> Ok (Some PDF_TYPE) ->
  (_detectPdf tokenizer (mkOptions debug2 (Some maxScanLines2))).1
  = (_detectPdf tokenizer (mkOptions debug1 (Some maxScanLines1))).1.
Proof.
  intros Hle. unfold _detectPdf. cbn [fst].
  destruct (isPdf (peekPdfHeader tokenizer)) eqn:Hpdf; cycle 1.
  { by rewrite !detect_run_not_pdf. }
  destruct (detect_run_pdf tokenizer (mkOptions debug1 (Some maxScanLines1)) Hpdf)
    as (-> & _ & _).
  destruct (detect_run_pdf tokenizer (mkOptions debug2 (Some maxScanLines2)) Hpdf)
    as (-> & _ & _).
  cbn [opt_maxScanLines default from_option id]. unfold scan_content.
  intros Hne.
  replace (Z.to_nat maxScanLines2)
    with (Z.to_nat maxScanLines1 + (Z.to_nat maxScanLines2 - Z.to_nat maxScanLines1))
    by lia.
  rewrite scan_loop_more; [done|].
  intros Ho. by rewrite Ho in Hne.
Qed.

(** X24.  With a line budget of zero or less the scan does not start: a
    file with the signature is the generic PDF, whatever follows the
    signature; no line is examined, and the byte source is left at the
    offset of the signature. *)
Theorem detect_zero_budget tokenizer debug maxScanLines :
  (maxScanLines <= 0)%Z ->
  contains (take 1024 (remaining tokenizer)) (bytes_of "%PDF-") ->
  run_result (_detectPdf_run tokenizer (mkOptions debug (Some maxScanLines)))
    = Ok (Some PDF_TYPE) /\
  run_trace (_detectPdf_run tokenizer (mkOptions debug (Some maxScanLines))) = [] /\
  remaining (run_tokenizer (_detectPdf_run tokenizer (mkOptions debug (Some maxScanLines))))
  = drop (Z.to_nat (headerOffset (peekPdfHeader tokenizer))) (remaining tokenizer).
Proof.
  intros Hm Hsig%peekPdfHeader_some.
  destruct (peekPdfHeader_found _ Hsig) as (j & rest & Hoff & Hlen & Hdrop).
  unfold _detectPdf_run. rewrite Hsig, Hoff. cbn [negb opt_maxScanLines default].
  assert (j <= length (remaining tokenizer)) as Hj.
  { rewrite length_take in Hlen. lia. }
  assert (exists tokenizer',
            (if (0 <? Z.of_nat j)%Z then skipBytes tokenizer (Z.of_nat j) else Ok tokenizer)
              = Ok tokenizer' /\
            remaining tokenizer' = drop j (remaining tokenizer)) as (tk' & -> & Hrem).
  { destruct (0 <? Z.of_nat j)%Z eqn:Hz.
    - destruct (skipBytes_spec tokenizer (Z.of_nat j)) as (tk' & Hs & Hr); [lia|lia|].
      exists tk'. split; [done|]. by rewrite Hr, Nat2Z.id.
    - exists tokenizer. split; [done|]. assert (j = 0) as -> by lia. done. }
  cbn [id]. replace (Z.to_nat maxScanLines) with 0 by lia.
  cbn [scan_loop]. cbn. by rewrite Nat2Z.id.
Qed.

(** *** What comes before the signature, and what lies outside objects *)

(** X25.  The bytes before the signature do not matter: the result of a
    call is the result of the call on the input that starts at the first
    occurrence of the signature. *)
Theorem detect_ignores_preamble tokenizer opts i :
  first_occurrence (take 1024 (remaining tokenizer)) (bytes_of "%PDF-") i ->
  (_detectPdf tokenizer opts).1
  = (_detectPdf (mkTokenizer (drop i (remaining tokenizer)) 0) opts).1.
Proof.
  intros Hf. unfold _detectPdf. cbn [fst].
  destruct (peekPdfHeader_cases tokenizer) as [(i' & Hh & Hf' & _)|[_ Hno]];
    [|by destruct Hf as [?%Hno _]].
  assert (i' = i) as -> by by eapply first_occurrence_unique.
  assert (isPdf (peekPdfHeader tokenizer) = true) as Hpdf by (by rewrite Hh).
  destruct (detect_run_pdf tokenizer opts Hpdf) as (-> & _ & _).
  rewrite Hh. cbn [headerOffset]. rewrite Nat2Z.id.
  set (t2 := mkTokenizer (drop i (remaining tokenizer)) 0).
  assert (remaining t2 = drop i (remaining tokenizer)) as Hr2 by done.
  assert (peekPdfHeader t2 = mkHeader true 0) as Hh2.
  { destruct Hf as [[rest Ho] _].
    apply (peekPdfHeader_at_start t2 (rest ++ drop 1024 (remaining tokenizer))).
    rewrite Hr2, app_assoc, <- Ho.
    rewrite <- (take_drop 1024 (remaining tokenizer)) at 1.
    apply drop_app_le.
    assert (occurs_at (take 1024 (remaining tokenizer)) (bytes_of "%PDF-") i) as Hl
      by (by exists rest).
    apply occurs_at_length in Hl.
    change (length (bytes_of "%PDF-")) with 5 in Hl. lia. }
  assert (isPdf (peekPdfHeader t2) = true) as Hpdf2 by (by rewrite Hh2).
  destruct (detect_run_pdf t2 opts Hpdf2) as (-> & _ & _).
  by rewrite Hh2, Hr2.
Qed.

Lemma scan_loop_flat ctx n (c : list byte) k st :
  match st with
  | ROOT => flatObjects (spec_lines c)
  | OBJ =>
      match spec_lines c with
      | [] => True
      | e :: ls => trim (latin1 e) = str "endobj" /\ flatObjects ls
      end
  end ->
  exists s', scan_loop ctx n (mkScan c None st k []) = (LoopEnded, s') /\
             trace s' = [].
Proof.
  revert c k st. induction n as [|n IH]; intros c k st Hinv; [by eexists|].
  cbn [scan_loop]. unfold incr_scannedLines.
  cbn [pendingLine reader state scannedLines trace].
  unfold scan_body, readLine.
  cbn [pendingLine reader lr_readLine content_LineReader].
  rewrite spec_lines_next in Hinv.
  destruct (next_line c) as [[l|] c'];
    cbn [mbind result_bind fmap option_fmap option_map];
    cbn [state set_reader pendingLine scannedLines trace]; [|by eexists].
  destruct st.
  - inversion Hinv as [|l0 ls Hnone Hls|l0 [x Hsome]|l0 e ls [x Hsome] He Hls]; subst.
    + rewrite Hnone. by apply (IH c' (S k) ROOT).
    + rewrite Hsome. apply (IH c' (S k) OBJ).
      match goal with H : [] = spec_lines c' |- _ => by rewrite <- H end.
    + rewrite Hsome. apply (IH c' (S k) OBJ).
      match goal with H : _ :: _ = spec_lines c' |- _ => by rewrite <- H end.
  - destruct Hinv as [He Hls]. rewrite bool_decide_true by done.
    by apply (IH c' (S k) ROOT).
Qed.

(** X26.  The line that starts an object is used for nothing else, and
    text outside objects is not examined.  When every object of the input
    ends on the line after the one that starts it, the call returns the
    generic PDF classification and reaches no checkpoint, whatever the
    lines hold: a dictionary written after [obj] on the same line, with an
    Illustrator marker in it, goes unnoticed. *)
Theorem detect_skips_object_start_line tokenizer opts rest :
  remaining tokenizer = bytes_of "%PDF-" ++ rest ->
  flatObjects (spec_lines (remaining tokenizer)) ->
  (_detectPdf tokenizer opts).1 = Ok (Some PDF_TYPE) /\
  run_trace (_detectPdf_run tokenizer opts) = [].
Proof.
  intros Hrem Hall. unfold _detectPdf. cbn [fst].
  pose proof (peekPdfHeader_at_start tokenizer rest Hrem) as Hh.
  assert (isPdf (peekPdfHeader tokenizer) = true) as Hpdf by (by rewrite Hh).
  destruct (detect_run_pdf tokenizer opts Hpdf) as (-> & -> & _).
  rewrite Hh. cbn [headerOffset]. rewrite drop_0. unfold scan_content.
  destruct (scan_loop_flat (mkContext false)
              (Z.to_nat (default 50000%Z (opt_maxScanLines opts)))
              (remaining tokenizer) 0 ROOT Hall) as (s' & -> & Htr).
  done.
Qed.

(** *** The payload of a stream *)

Section Payload.
#[local] Opaque subtypeProbes looksLikeXmp parseInt10 parseDictFromRaw.
Variable ctx : ProbeContext.

Lemma scan_xmp_reader {R} (s : ScanState R) objectInfo streamText :
  reader (step_state (scan_xmp ctx s objectInfo streamText)) = reader s /\
  exists tr, trace (step_state (scan_xmp ctx s objectInfo streamText)) = trace s ++ tr.
Proof.
  unfold scan_xmp.
  destruct (looksLikeXmp objectInfo && _);
    [|split; [done|]; exists []; by rewrite app_nil_r].
  destruct (XmlHandler.run _ _ _) as [[[?|?]|] texts]; (split; [done|by eexists]).
Qed.

(** X27.  The payload of a stream is taken by its length, not line by
    line.  For a [Length] that [parseInt] reads as [n], the scanner skips
    one line terminator if one is next, takes the [n] bytes that follow as
    the payload it decodes, whatever they hold, and goes on after them.
    When fewer than [n] bytes are left it reads no payload and ends the
    scan without an error. *)
Theorem scan_stream_takes_length_bytes (s : ScanState PdfTokenizerReader.t)
    objectInfo lenVal n :
  wf (reader s) ->
  objectInfo !! str "Length" = Some (Str lenVal) -> lenVal <> [] ->
  parseInt10 lenVal = Finite (Z.of_nat n) ->
  if n <=? length (skip_eol (content (reader s))) then
    (exists tr,
       trace (step_state (scan_stream ctx s objectInfo))
       = trace s ++ AtDecode objectInfo (take n (skip_eol (content (reader s)))) :: tr) /\
    wf (reader (step_state (scan_stream ctx s objectInfo))) /\
    content (reader (step_state (scan_stream ctx s objectInfo)))
    = drop n (skip_eol (content (reader s)))
  else
    exists s', scan_stream ctx s objectInfo = Break s' /\ trace s' = trace s.
Proof.
  intros Hwf Hlen Hne Hn. unfold scan_stream. rewrite Hlen.
  destruct lenVal as [|c lenVal]; [done|]. rewrite Hn.
  rewrite (proj2 (Z.ltb_ge _ _)) by lia.
  cbn [lr_consumeStreamEol lr_readBytes PdfTokenizerReader_LineReader].
  destruct (consumeStreamEol_spec (reader s) Hwf) as (r1 & -> & Hwf1 & Hc1).
  pose proof (readBytes_spec (Z.of_nat n) r1 Hwf1) as Hrb.
  rewrite Hc1 in Hrb. unfold next_bytes in Hrb.
  rewrite (proj2 (Z.ltb_ge _ _)) in Hrb by lia. rewrite Nat2Z.id in Hrb.
  destruct (n <=? length (skip_eol (content (reader s)))) eqn:Hle.
  - apply Nat.leb_le in Hle.
    assert (exists r2, PdfTokenizerReader.readBytes (Z.of_nat n) r1
                       = Ok (Some (take n (skip_eol (content (reader s)))), r2) /\
                       wf r2 /\ content r2 = drop n (skip_eol (content (reader s))))
      as (r2 & -> & Hwf2 & Hc2).
    { destruct (Z.of_nat n =? 0)%Z eqn:Hz.
      - apply Z.eqb_eq in Hz. assert (n = 0) as -> by lia.
        destruct Hrb as (r2 & Hr & Hwf2 & Hc2). exists r2.
        by rewrite take_0, drop_0.
      - rewrite (proj2 (Nat.ltb_ge _ _)) in Hrb by lia.
        destruct Hrb as (r2 & Hr & Hwf2 & Hc2). by exists r2. }
    set (payload := take n (skip_eol (content (reader s)))).
    set (s1 := record (set_reader s r2) [AtDecode objectInfo payload]).
    destruct (decodeStreamBytes objectInfo payload) as [decoded|e].
    + set (s2 := record s1 _).
      case_first_hit.
      * cbn [step_state]. split; [|done]. eexists. unfold s2, s1. cbn [trace record].
        by rewrite <- app_assoc.
      * destruct (scan_xmp_reader s2 objectInfo (textDecode decoded)) as [-> [tr ->]].
        split; [|done]. eexists. unfold s2, s1. cbn [trace record set_reader].
        by rewrite <- !app_assoc.
    + cbn [step_state]. split; [|done]. by exists [].
  - apply Nat.leb_gt in Hle.
    assert ((Z.of_nat n =? 0)%Z = false) as Hz by (apply Z.eqb_neq; lia).
    rewrite Hz in Hrb. rewrite (proj2 (Nat.ltb_lt _ _)) in Hrb by lia.
    destruct Hrb as (r2 & -> & _). by eexists.
Qed.

End Payload.

(** *** The first object of a file *)

Lemma trim_decompose x :
  exists a b, x = a ++ trim x ++ b /\
    Forall (fun c => isWhiteSpace c = true) a /\
    Forall (fun c => isWhiteSpace c = true) b.
Proof.
  unfold trim, trimStart.
  pose proof (span_app isWhiteSpace x) as H1.
  pose proof (span_fst_Forall isWhiteSpace x) as F1.
  set (y := (span isWhiteSpace x).2) in *.
  pose proof (span_app isWhiteSpace (reverse y)) as H2.
  pose proof (span_fst_Forall isWhiteSpace (reverse y)) as F2.
  exists (span isWhiteSpace x).1, (reverse (span isWhiteSpace (reverse y)).1).
  split_and!; [|done|by apply Forall_reverse].
  rewrite <- H1 at 1. f_equal.
  apply (f_equal reverse) in H2. rewrite reverse_app, reverse_involutive in H2.
  by rewrite H2.
Qed.

Lemma trim_not_endobj line : 60%N ∈ line -> trim line <> str "endobj".
Proof.
  intros Hin Ht. destruct (trim_decompose line) as (a & b & Hx & Fa & Fb).
  rewrite Ht in Hx. rewrite Hx in Hin.
  apply elem_of_app in Hin as [Hin|Hin]; [|apply elem_of_app in Hin as [Hin|Hin]].
  - rewrite Forall_forall in Fa. by apply Fa in Hin.
  - revert Hin. by apply (bool_decide_unpack _).
  - rewrite Forall_forall in Fb. by apply Fb in Hin.
Qed.

Lemma content_scan_body_root ctx l rest k tr :
  LF ∉ l -> CR ∉ l ->
  scan_body ctx (mkScan (l ++ LF :: rest) None ROOT k tr)
  = Continue (mkScan rest None (match OBJ_REGEX (latin1 l) with Some _ => OBJ | None => ROOT end) k tr).
Proof.
  intros Hlf Hcr. unfold scan_body, readLine.
  cbn [pendingLine reader lr_readLine content_LineReader].
  rewrite next_line_plain by done. cbn [mbind result_bind fmap option_fmap option_map].
  cbn [state set_reader pendingLine scannedLines trace].
  by destruct (OBJ_REGEX (latin1 l)).
Qed.

Lemma marker_nonempty dictText :
  illustrator_marker (AtDict dictText (parseDictFromRaw dictText)) -> dictText <> [].
Proof.
  intros Hm ->. cbn [illustrator_marker] in Hm.
  change (parseDictFromRaw []) with (∅ : Dict) in Hm. rewrite !lookup_empty in Hm.
  destruct Hm as [?|[Hc|[Hc|[(v & ? & _)|(v & ? & _)]]]]; try done;
    destruct Hc as (p & q & Hc); by destruct p.
Qed.

Lemma content_scan_body_marker ctx line pre body post rest k tr :
  LF ∉ line -> CR ∉ line ->
  latin1 line = pre ++ str "<<" ++ body ++ str ">>" ++ post ->
  60%N ∉ pre -> 62%N ∉ body ->
  illustrator_marker (AtDict (trim body) (parseDictFromRaw (trim body))) ->
  exists s', scan_body ctx (mkScan (line ++ LF :: rest) None OBJ k tr) = Return AI_TYPE s'.
Proof.
  intros Hlf Hcr Hline Hpre Hbody Hm. unfold scan_body, readLine.
  cbn [pendingLine reader lr_readLine content_LineReader].
  rewrite next_line_plain by done. cbn [mbind result_bind fmap option_fmap option_map].
  cbn [state set_reader pendingLine scannedLines trace reader].
  rewrite bool_decide_false.
  2: { apply trim_not_endobj. rewrite Hline. apply elem_of_app. right.
       apply list_elem_of_here. }
  assert (includes (latin1 line) (str "<<") = true) as ->.
  { apply includes_spec. rewrite Hline. by eexists pre, _. }
  cbn [negb]. rewrite Hline, readDictionaryBlock_closed_line by done.
  cbn [dictText streamInline].
  pose proof (marker_nonempty _ Hm) as Hne.
  destruct (trim body) as [|c d] eqn:Hd; [done|].
  unfold scan_dict.
  pose proof (marker_hit ctx _ Hm) as Hhit. cbn [checkpoint_hit] in Hhit.
  rewrite Hhit. by eexists.
Qed.

(** X28.  An Illustrator marker in the dictionary of the first object is
    found.  For a file that starts with the signature line, a line that
    starts an object and a line that holds a whole dictionary with a marker
    in its text or in its entries, the result is the Illustrator
    classification, whatever follows, when the line budget is at least
    three. *)
Theorem detect_illustrator_in_first_dictionary
    tokenizer opts version objLine dictLine pre body post rest :
  remaining tokenizer
    = encode_lines [bytes_of "%PDF-" ++ version; objLine; dictLine] ++ rest ->
  Forall (fun l => (LF ∉ l) /\ (CR ∉ l)) [bytes_of "%PDF-" ++ version; objLine; dictLine] ->
  is_Some (OBJ_REGEX (latin1 objLine)) ->
  latin1 dictLine = pre ++ str "<<" ++ body ++ str ">>" ++ post ->
  60%N ∉ pre -> 62%N ∉ body ->
  illustrator_marker (AtDict (trim body) (parseDictFromRaw (trim body))) ->
  (3 <= default 50000 (opt_maxScanLines opts))%Z ->
  (_detectPdf tokenizer opts).1 = Ok (Some AI_TYPE).
Proof.
  intros Hrem Hlines [og Hobj] Hdict Hpre Hbody Hm Hbudget.
  apply Forall_cons in Hlines as [[Hlf1 Hcr1] Hlines].
  apply Forall_cons in Hlines as [[Hlf2 Hcr2] Hlines].
  apply Forall_cons in Hlines as [[Hlf3 Hcr3] _].
  unfold _detectPdf. cbn [fst].
  assert (remaining tokenizer
          = bytes_of "%PDF-" ++ (version ++ LF :: encode_lines [objLine; dictLine] ++ rest))
    as Hstart.
  { rewrite Hrem, encode_lines_cons. by rewrite <- app_assoc. }
  pose proof (peekPdfHeader_at_start tokenizer _ Hstart) as Hh.
  assert (isPdf (peekPdfHeader tokenizer) = true) as Hpdf by (by rewrite Hh).
  destruct (detect_run_pdf tokenizer opts Hpdf) as (-> & _ & _).
  rewrite Hh. cbn [headerOffset]. rewrite drop_0. unfold scan_content.
  replace (Z.to_nat (default 50000%Z (opt_maxScanLines opts)))
    with (S (S (S (Z.to_nat (default 50000%Z (opt_maxScanLines opts)) - 3))))
    by lia.
  rewrite Hrem, !encode_lines_cons.
  cbn [scan_loop]. unfold incr_scannedLines.
  cbn [pendingLine reader state scannedLines trace].
  rewrite content_scan_body_root by done.
  assert (OBJ_REGEX (latin1 (bytes_of "%PDF-" ++ version)) = None) as -> by done.
  cbn [pendingLine reader state scannedLines trace].
  rewrite content_scan_body_root by done. rewrite Hobj.
  cbn [pendingLine reader state scannedLines trace].
  destruct (content_scan_body_marker (mkContext false) dictLine pre body post
              (encode_lines [] ++ rest) 3 [] Hlf3 Hcr3 Hdict Hpre Hbody Hm) as [s' ->].
  done.
Qed.

(** ** A scan that ends with the generic classification *)

(** Handlers that end without an exception have met no fatal error. *)
Lemma run_none_no_fatal cb b evs :
  (XmlHandler.run cb b evs).1 = None ->
  Forall (fun ev => ~ fatal_xml_error ev) evs.
Proof.
  revert b. induction evs as [|ev evs IH]; intros b; [by constructor|].
  destruct ev as [message|uri local name|text|]; cbn [XmlHandler.run].
  - destruct (startsWith message (str "Invalid character entity")) eqn:Hs; [|done].
    intros H%IH. constructor; [|done]. cbn [fatal_xml_error]. congruence.
  - intros H%IH. constructor; [|done]. by intros [].
  - destruct b; cbn [negb].
    + destruct (cb text); [done|].
      destruct (XmlHandler.run cb false evs) as [thrown texts] eqn:Hr.
      cbn [fst]. intros ->. constructor; [by intros []|].
      apply (IH false). by rewrite Hr.
    + intros H%IH. constructor; [|done]. by intros [].
  - intros H%IH. constructor; [|done]. by intros [].
Qed.

Section Quiet.
#[local] Opaque subtypeProbes looksLikeXmp parseInt10 parseDictFromRaw.
Context {R : Type} {LR : LineReader R}.
Variable ctx : ProbeContext.

Lemma scan_xmp_quiet (s : ScanState R) objectInfo streamText tr0 :
  no_failure tr0 -> trace s = tr0 ++ [AtStreamText streamText objectInfo] ->
  quiet_step (scan_xmp ctx s objectInfo streamText).
Proof.
  intros Hnf Htr. unfold scan_xmp.
  destruct (looksLikeXmp objectInfo) eqn:Hx; cbn [andb]; cycle 1.
  { cbn [quiet_step]. rewrite Htr. apply Forall_app_2; [done|].
    constructor; [|done]. split; [by intros []|]. congruence. }
  case_bool_decide as Hh; cbn [negb].
  { cbn [quiet_step]. rewrite Htr. apply Forall_app_2; [done|].
    constructor; [|done]. split; [by intros []|]. done. }
  match goal with |- context [XmlHandler.run ?cb ?b ?evs] =>
    pose proof (run_none_no_fatal cb b evs) as Hr;
    destruct (XmlHandler.run cb b evs) as [[[hit|e]|] texts]
  end; try done.
  cbn [quiet_step record trace]. rewrite Htr.
  apply Forall_app_2; [apply Forall_app_2; [done|]|].
  - constructor; [|done]. split; [by intros []|]. intros _ _. by apply Hr.
  - apply Forall_fmap, Forall_forall. intros v _. split; [by intros []|done].
Qed.

Lemma scan_stream_quiet (s : ScanState R) objectInfo :
  no_failure (trace s) -> quiet_step (scan_stream ctx s objectInfo).
Proof.
  intros Hnf. unfold scan_stream.
  destruct (objectInfo !! str "Length") as [[|[|c lenVal]]|]; try done.
  destruct (parseInt10 (c :: lenVal)) as [|streamLength|]; try done.
  destruct (streamLength <? 0)%Z; [done|].
  destruct (lr_consumeStreamEol (reader s)) as [rdr|e]; [|done].
  destruct (lr_readBytes streamLength rdr) as [[[rawBytes|] rdr']|e]; [|done|done].
  destruct (decodeStreamBytes objectInfo rawBytes) as [decoded|e] eqn:Hd; [|done].
  case_first_hit; [done|].
  eapply scan_xmp_quiet; [|by cbn [record trace set_reader]].
  cbn [record trace set_reader]. apply Forall_app_2; [done|].
  constructor; [|done]. split; [|done]. intros [e He]. cbn in He. congruence.
Qed.

Lemma scan_dict_quiet (s : ScanState R) dictText streamInline :
  no_failure (trace s) -> quiet_step (scan_dict ctx s dictText streamInline).
Proof.
  intros Hnf. unfold scan_dict. case_first_hit; [done|].
  set (s1 := record s _).
  assert (no_failure (trace s1)) as Hnf1.
  { cbn [s1 record trace]. apply Forall_app_2; [done|].
    constructor; [|done]. split; [by intros []|done]. }
  destruct streamInline; [by apply scan_stream_quiet|].
  destruct (readLine s1) as [[[nextLine|] s2]|e] eqn:Hrl; [| |done].
  - apply readLine_trace in Hrl.
    case_bool_decide; [apply scan_stream_quiet|cbn [quiet_step set_pendingLine trace]];
      by rewrite Hrl.
  - apply readLine_trace in Hrl. cbn [quiet_step]. by rewrite Hrl.
Qed.

Lemma scan_body_quiet (s : ScanState R) :
  no_failure (trace s) -> quiet_step (scan_body ctx s).
Proof.
  intros Hnf. unfold scan_body.
  destruct (readLine s) as [[[line|] s1]|e] eqn:Hrl; [| |done].
  - apply readLine_trace in Hrl. rewrite <- Hrl in Hnf.
    destruct (state s1); [by destruct (OBJ_REGEX line)|].
    case_bool_decide; [done|].
    destruct (negb (includes line (str "<<"))); [done|].
    destruct (readDictionaryBlock (reader s1) line) as [[block rdr]|e]; [|done].
    destruct (dictText block) as [[|c t]|]; try done.
    by apply scan_dict_quiet.
  - apply readLine_trace in Hrl. cbn [quiet_step]. by rewrite Hrl.
Qed.

Lemma scan_loop_quiet n (s : ScanState R) :
  no_failure (trace s) -> (scan_loop ctx n s).1 = LoopEnded ->
  no_failure (trace (scan_loop ctx n s).2).
Proof.
  revert s. induction n as [|n IH]; intros s Hnf; simpl; [done|].
  pose proof (scan_body_quiet (incr_scannedLines s) Hnf) as Hq.
  destruct (scan_body ctx (incr_scannedLines s)); simpl in *; try done.
  by apply IH.
Qed.

End Quiet.

(** A call that returns the generic classification met no probe match
    and no failure. *)
Lemma pdf_scan_is_quiet tokenizer opts :
  (_detectPdf tokenizer opts).1 = Ok (Some PDF_TYPE) ->
  (forall cp, cp ∈ run_trace (_detectPdf_run tokenizer opts) ->
              checkpoint_hit (mkContext false) cp = None) /\
  no_failure (run_trace (_detectPdf_run tokenizer opts)).
Proof.
  unfold _detectPdf. cbn [fst].
  destruct (isPdf (peekPdfHeader tokenizer)) eqn:Hpdf; cycle 1.
  { by rewrite detect_run_not_pdf. }
  destruct (detect_run_pdf tokenizer opts Hpdf) as (-> & -> & _).
  unfold scan_content.
  match goal with |- context [scan_loop ?c ?n ?s] =>
    pose proof (scan_loop_inv c n s (clean_nil c)) as Hinv;
    pose proof (scan_loop_quiet c n s) as Hq;
    destruct (scan_loop c n s) as [o s'] end.
  cbn [fst snd] in *. destruct o as [|hit|e]; cbn [outcome_result]; [|intros [= ->]|done].
  - intros _. split.
    + intros cp Hcp. by destruct (clean_elem _ _ _ Hinv Hcp).
    + apply Hq; [by constructor|done].
  - destruct Hinv as (tr & cp & _ & _ & Hhit). by apply hit_is_illustrator in Hhit.
Qed.

(** *** An input that opens no dictionary *)

Lemma latin1_inj c1 c2 : latin1 c1 = latin1 c2 -> c1 = c2.
Proof.
  unfold latin1. revert c2. induction c1 as [|b1 c1 IH]; intros [|b2 c2]; try done.
  simpl. intros [= Hb Hc]. f_equal; [|by apply IH].
  assert (Byte.of_N (Byte.to_N b1) = Byte.of_N (Byte.to_N b2)) as Ho by (by rewrite Hb).
  rewrite !Byte.of_to_N in Ho. congruence.
Qed.

Lemma latin1_contains c x : contains (latin1 c) (latin1 x) -> contains c x.
Proof.
  intros (p & q & Hc). unfold latin1 in Hc.
  change (map Byte.to_N c) with (Byte.to_N <$> c) in Hc.
  apply fmap_app_inv in Hc as (p' & r & -> & Hr & ->). symmetry in Hr.
  apply fmap_app_inv in Hr as (x' & q' & Hx & -> & ->).
  apply (latin1_inj x x') in Hx as <-. by exists p', q'.
Qed.

Lemma contains_latin1 c x : contains c x -> contains (latin1 c) (latin1 x).
Proof.
  intros (p & q & ->). exists (latin1 p), (latin1 q). unfold latin1.
  by rewrite !map_app.
Qed.

Lemma contains_within {A} (p a q x : list A) :
  contains a x -> contains (p ++ a ++ q) x.
Proof.
  intros (p' & q' & ->). exists (p ++ p'), (q' ++ q). by rewrite <- !app_assoc.
Qed.

Lemma next_line_split c l c' :
  next_line c = (Some l, c') -> exists eol, c = l ++ eol ++ c'.
Proof.
  unfold next_line. destruct (find_byte LF c 0) as [i|] eqn:Hf.
  - intros [= <- <-]. apply find_byte_bounds in Hf as Hb.
    assert (c = take i c ++ drop i c) as Hc by (by rewrite take_drop).
    destruct (strip_cr_cases (take i c)) as [[-> _]|Hcr].
    + exists (take 1 (drop i c)). rewrite Hc at 1. f_equal.
      rewrite <- (take_drop 1 (drop i c)) at 1. by rewrite drop_drop, Nat.add_1_r.
    + exists (CR :: take 1 (drop i c)). rewrite Hc at 1. rewrite Hcr at 1.
      rewrite <- app_assoc. f_equal. simpl. f_equal.
      rewrite <- (take_drop 1 (drop i c)) at 1. by rewrite drop_drop, Nat.add_1_r.
  - destruct c; [done|]. intros [= <- <-]. exists []. by rewrite !app_nil_r.
Qed.

Lemma content_scan_body_no_dictionary ctx c st k tr :
  ~ contains c (bytes_of "<<") ->
  (exists c' st',
     scan_body ctx (mkScan c None st k tr) = Continue (mkScan c' None st' k tr) /\
     ~ contains c' (bytes_of "<<"))
  \/ scan_body ctx (mkScan c None st k tr) = Break (mkScan [] None st k tr).
Proof.
  intros Hno. unfold scan_body, readLine.
  cbn [pendingLine reader lr_readLine content_LineReader].
  destruct (next_line c) as [[l|] c'] eqn:Hn; cbn [fmap option_fmap option_map];
    cbn [mbind result_bind]; cycle 1.
  { right. apply next_line_none in Hn as [_ ->]. done. }
  left. apply next_line_split in Hn as [eol Hc].
  assert (~ contains c' (bytes_of "<<")) as Hno'.
  { intros H. apply Hno. rewrite Hc, app_assoc.
    rewrite <- (app_nil_r ((l ++ eol) ++ c')), <- app_assoc. by apply contains_within. }
  assert (includes (latin1 l) (str "<<") = false) as Hinc.
  { destruct (includes (latin1 l) (str "<<")) eqn:Hi; [|done].
    apply includes_spec, latin1_contains in Hi. exfalso. apply Hno.
    rewrite Hc. by apply (contains_within []). }
  cbn [state set_reader pendingLine scannedLines trace]. destruct st.
  - destruct (OBJ_REGEX (latin1 l)); by eexists _, _.
  - case_bool_decide; [by eexists _, _|]. rewrite Hinc. by eexists _, _.
Qed.

Lemma content_scan_loop_no_dictionary ctx n c st k tr :
  ~ contains c (bytes_of "<<") ->
  (scan_loop ctx n (mkScan c None st k tr)).1 = LoopEnded.
Proof.
  revert c st k. induction n as [|n IH]; intros c st k Hno; [done|].
  cbn [scan_loop]. unfold incr_scannedLines.
  cbn [pendingLine reader state scannedLines trace].
  destruct (content_scan_body_no_dictionary ctx c st (S k) tr Hno)
    as [(c' & st' & -> & Hno')| ->]; [by apply IH|done].
Qed.

(** C2.  The eight bytes [%PDF-1.1] are classified as a generic PDF.
    Whenever the signature is found, the result is the generic PDF
    classification exactly when the scan meets no probe match and no
    failure: no hook returns a classification at any checkpoint, no stream
    fails to decode, and no text fed to the XML parser has an error that is
    not resumed.  In particular an input that has the signature and opens
    no dictionary anywhere is a generic PDF, whatever else it holds and
    whatever the line budget is. *)
Theorem detect_signature_suffices :
  (_detectPdf (mkTokenizer (bytes_of "%PDF-1.1") 0) noOptions).1 = Ok (Some PDF_TYPE) /\
  (forall tokenizer opts,
     contains (take 1024 (remaining tokenizer)) (bytes_of "%PDF-") ->
     ((_detectPdf tokenizer opts).1 = Ok (Some PDF_TYPE) <->
      (forall cp, cp ∈ run_trace (_detectPdf_run tokenizer opts) ->
                  checkpoint_hit (mkContext false) cp = None) /\
      no_failure (run_trace (_detectPdf_run tokenizer opts)))) /\
  (forall tokenizer opts,
     contains (take 1024 (remaining tokenizer)) (bytes_of "%PDF-") ->
     ~ contains (remaining tokenizer) (bytes_of "<<") ->
     (_detectPdf tokenizer opts).1 = Ok (Some PDF_TYPE)).
Proof.
  split; [by vm_compute|]. split.
  - intros tokenizer opts Hsig. split.
    + apply pdf_scan_is_quiet.
    + intros [Hnohit Hnf]. by apply quiet_scan_is_pdf.
  - intros tokenizer opts Hsig%peekPdfHeader_some Hno.
    unfold _detectPdf. cbn [fst].
    destruct (detect_run_pdf tokenizer opts Hsig) as (-> & _ & _).
    unfold scan_content. rewrite content_scan_loop_no_dictionary; [done|].
    intros H. apply Hno.
    rewrite <- (take_drop (Z.to_nat (headerOffset (peekPdfHeader tokenizer)))
                  (remaining tokenizer)).
    rewrite <- (app_nil_r (drop _ _)). by apply contains_within.
Qed.

(** ** Inputs in which the scan reaches a marker *)










End Detector.

(** * Examples *)

(** C7 (what the code does).  For a stream whose [Length] is the indirect
    reference [17 0 R], [parseInt] reads the leading 17, so the scan does
    not skip the stream: it reads 17 payload bytes, decodes them, and the
    stream probe classifies the file from them. *)
Theorem indirect_length_is_read :
  parseInt10 (str "17 0 R") = Finite 17 /\
  (exists objectInfo,
    objectInfo !! str "Length" = Some (Str (str "17 0 R")) /\
    AtDecode objectInfo (bytes_of "Adobe Illustrator")
      ∈ run_trace (_detectPdf_run rejectAll asciiDecode noEvents
                     (mkTokenizer indirectLengthPdf 0) noOptions)) /\
  (_detectPdf rejectAll asciiDecode noEvents
     (mkTokenizer indirectLengthPdf 0) noOptions).1 = Ok (Some AI_TYPE).
Proof.
  split; [by vm_compute|]. split; [|by vm_compute].
  exists (parseDictFromRaw (str "/Length 17 0 R")). split; [by vm_compute|].
  vm_compute. apply list_elem_of_further, list_elem_of_here.
Qed.

(** Closed decidable facts are settled by evaluation. *)
Ltac decide_closed := apply (bool_decide_unpack _); vm_compute; exact I.

(** [detect_non_pdf_untouched] on three zero bytes. *)
Lemma detect_non_pdf_untouched_witness :
  _detectPdf rejectAll asciiDecode noEvents (mkTokenizer threeZeroBytes 0) noOptions
    = (Ok None, mkTokenizer threeZeroBytes 0) /\
  position (_detectPdf rejectAll asciiDecode noEvents
              (mkTokenizer threeZeroBytes 0) noOptions).2 = 0.
Proof.
  apply (detect_non_pdf_untouched rejectAll asciiDecode noEvents
           (mkTokenizer threeZeroBytes 0) noOptions).
  right. vm_compute. lia.
Defined.

(** [detect_signature_suffices] on a file with one object whose
    dictionary and stream carry no marker, under an XML parser that rejects
    every text: the stream is not XMP metadata, so its text is not fed to
    the parser; and on a file that opens no dictionary. *)
Lemma detect_signature_suffices_witness :
  (_detectPdf rejectAll asciiDecode strictParse (mkTokenizer plainPdf 0) noOptions).1
    = Ok (Some PDF_TYPE) /\
  (_detectPdf rejectAll asciiDecode strictParse (mkTokenizer objectLinesPdf 0) noOptions).1
    = Ok (Some PDF_TYPE).
Proof.
  destruct (detect_signature_suffices rejectAll asciiDecode strictParse)
    as (_ & Hquiet & Hplain).
  split.
  - apply Hquiet.
    + exists [], (drop 5 plainPdf). reflexivity.
    + split.
      * intros cp Hcp. vm_compute in Hcp.
        repeat (apply elem_of_cons in Hcp as [->|Hcp]); try reflexivity.
        by apply elem_of_nil in Hcp.
      * unfold no_failure.
        set (tr := run_trace _). vm_compute in tr. subst tr.
        repeat (apply Forall_cons; split; [split|]); try apply Forall_nil;
          try exact I; try (by intros []).
        intros Hx. by vm_compute in Hx.
  - apply Hplain.
    + exists [], (drop 5 objectLinesPdf). reflexivity.
    + intros Hc%contains_latin1%includes_spec. by vm_compute in Hc.
Defined.



(** [detect_budget_termination] with a budget of one line and two object
    lines after the signature line. *)
Lemma detect_budget_termination_witness :
  (_detectPdf rejectAll asciiDecode noEvents
     (mkTokenizer objectLinesPdf 0) (mkOptions None (Some 1%Z))).1
    = Ok (Some PDF_TYPE) /\
  run_scannedLines (_detectPdf_run rejectAll asciiDecode noEvents
                      (mkTokenizer objectLinesPdf 0) (mkOptions None (Some 1%Z))) = 2.
Proof.
  apply (proj2 (detect_budget_termination rejectAll asciiDecode noEvents)
           (mkTokenizer objectLinesPdf 0) (mkOptions None (Some 1%Z))
           (bytes_of "1.4") [bytes_of "1 0 obj"; bytes_of "2 0 obj"]).
  - reflexivity.
  - split; [decide_closed|]. split; [decide_closed|reflexivity].
  - repeat constructor; try decide_closed; by vm_compute.
  - vm_compute. lia.
Defined.

(** [flate_failure_propagates] on a stream of two bytes that do not
    inflate, in a file that writes the filter without its solidus. *)
Example flate_failure_propagates_example :
  decodeStreamBytes rejectAll (parseDictFromRaw (str "/Length 2 /Filter FlateDecode"))
    [Byte.xff; Byte.xff] = Err DecompressionFailed /\
  (_detectPdf rejectAll asciiDecode noEvents
     (mkTokenizer brokenFlatePdf 0) noOptions).1 = Err DecompressionFailed.
Proof.
  apply (flate_failure_propagates rejectAll asciiDecode noEvents).
  - vm_compute. apply list_elem_of_further, list_elem_of_here.
  - by vm_compute.
  - reflexivity.
  - reflexivity.
Qed.

(** C5 (what the code does).  A stream that declares its filter the way
    PDF writes it, [/Filter /FlateDecode], is not inflated at all,
    whatever the decompressor would do with its data: the entry is stored
    as a bare flag, the filter chain is empty, and the decode step returns
    the raw bytes.  For two bytes that inflate neither way the call
    returns the generic classification without an error, and the raw bytes
    are handed to the stream probes as the text of the stream. *)
Theorem name_valued_flate_is_not_inflated decompress :
  normalizeFilters
    (parseDictFromRaw (str "/Length 2 /Filter /FlateDecode") !! str "Filter") = [] /\
  (forall rawBytes,
     decodeStreamBytes decompress
       (parseDictFromRaw (str "/Length 2 /Filter /FlateDecode")) rawBytes = Ok rawBytes) /\
  (_detectPdf decompress asciiDecode noEvents (mkTokenizer nameFlatePdf 0) noOptions).1
    = Ok (Some PDF_TYPE) /\
  run_trace (_detectPdf_run decompress asciiDecode noEvents
               (mkTokenizer nameFlatePdf 0) noOptions)
    = [AtDict (str "/Length 2 /Filter /FlateDecode")
         (parseDictFromRaw (str "/Length 2 /Filter /FlateDecode"));
       AtDecode (parseDictFromRaw (str "/Length 2 /Filter /FlateDecode"))
         [Byte.xff; Byte.xff];
       AtStreamText (asciiDecode [Byte.xff; Byte.xff])
         (parseDictFromRaw (str "/Length 2 /Filter /FlateDecode"))].
Proof.
  split; [by vm_compute|]. split; [intros rawBytes; by vm_compute|].
  split; by vm_compute.
Qed.

(** [detect_deterministic] for a cursor at the start of a buffer and a
    cursor two bytes into another one, with different [debug]. *)
Lemma detect_deterministic_witness :
  (_detectPdf rejectAll asciiDecode noEvents
     (mkTokenizer (bytes_of "%PDF-1.1") 0) (mkOptions (Some true) None)).1
  = (_detectPdf rejectAll asciiDecode noEvents
       (mkTokenizer (bytes_of "xx%PDF-1.1") 2) (mkOptions None None)).1.
Proof.
  apply (detect_deterministic rejectAll asciiDecode noEvents); reflexivity.
Defined.

(** [parsed_values_exclude_delimiters] for the value of [Type] in
    [/Type Metadata /Length 42]; and for the XMP part of the scan under an
    XML parser that rejects every text: the dictionary of a metadata
    stream as PDF writes it has the flag [XML], so the parser is fed and
    the step throws, and the dictionary of a catalog has not, so the scan
    goes on. *)
Lemma parsed_values_exclude_delimiters_witness :
  (Forall (fun c => c <> 47 /\ c <> 62 /\ c <> 13 /\ c <> 10)%N (str "Metadata") /\
   head (str "Metadata") <> Some 47%N /\
   str "Metadata" <> str "/Metadata" /\ str "Metadata" <> str "/XML") /\
  scan_xmp strictParse (mkContext false) (mkScan crlfInput None OBJ 0 [])
    (parseDictFromRaw (str "/Type /Metadata /Subtype /XML /Length 5")) (str "<x")
    = Throw (SaxError (str "Unexpected end")) (mkScan crlfInput None OBJ 0 []) /\
  scan_xmp strictParse (mkContext false) (mkScan crlfInput None OBJ 0 [])
    (parseDictFromRaw (str "/Type /Catalog")) (str "<x")
    = Continue (mkScan crlfInput None OBJ 0 []).
Proof.
  split; [|split].
  - apply (proj1 (parsed_values_exclude_delimiters strictParse
                    (str "/Type Metadata /Length 42")) (str "Type") (str "Metadata")).
    by vm_compute.
  - rewrite (proj2 (proj2 (parsed_values_exclude_delimiters strictParse
                             (str "/Type /Metadata /Subtype /XML /Length 5")))).
    by vm_compute.
  - rewrite (proj2 (proj2 (parsed_values_exclude_delimiters strictParse
                             (str "/Type /Catalog")))).
    by vm_compute.
Defined.

(** [decodeStreamBytes_unsupported_after_flate] on two bytes that do not
    inflate. *)
Lemma decodeStreamBytes_unsupported_after_flate_witness :
  normalizeFilters (Some (Str (str "FlateDecode ASCII85Decode")))
    = [FlateDecode; ASCII85Decode] /\
  decodeStreamBytes rejectAll
    {[ str "Filter" := Str (str "FlateDecode ASCII85Decode") ]} [Byte.xff; Byte.xff]
    = Err DecompressionFailed.
Proof.
  apply (decodeStreamBytes_unsupported_after_flate rejectAll [Byte.xff; Byte.xff]);
    reflexivity.
Defined.

(** A filter written as a PDF name, [/Filter /FlateDecode], is stored as
    two bare flags: the filter chain of such a stream is empty. *)
Example name_valued_filter_is_a_flag :
  parseDictFromRaw (str "/Length 5 /Filter /FlateDecode") !! str "Filter" = Some Flag /\
  normalizeFilters (parseDictFromRaw (str "/Length 5 /Filter /FlateDecode") !! str "Filter")
    = [].
Proof. by vm_compute. Qed.

(** The same chain inside a file: one stream with an unsupported filter
    after FlateDecode aborts the whole call. *)
Example unsupported_after_flate_aborts_scan :
  (_detectPdf rejectAll asciiDecode noEvents
     (mkTokenizer mixedChainPdf 0) noOptions).1 = Err DecompressionFailed.
Proof. by vm_compute. Qed.

(** ** Instances of the further properties *)

(** [readLine_consumes_one_line] on the first line of [crlfInput]. *)
Lemma readLine_consumes_one_line_witness :
  exists o r', PdfTokenizerReader.readLine crlfReader = Ok (o, r') /\ wf r' /\
    match o with
    | None => content crlfReader = [] /\ content r' = []
    | Some l =>
        exists bs eol, l = latin1 bs /\ (LF ∉ bs) /\
          content crlfReader = bs ++ eol ++ content r' /\
          ((eol = [LF] /\ last bs <> Some CR) \/ eol = [CR; LF]
           \/ (eol = [] /\ content r' = [] /\ bs <> []))
    end.
Proof.
  apply (readLine_consumes_one_line crlfReader).
  split; [vm_compute; lia|done].
Defined.

(** [readBytes_exact_or_nothing] for three of the six bytes of
    [crlfInput]. *)
Lemma readBytes_exact_or_nothing_witness :
  exists o r', PdfTokenizerReader.readBytes 3 crlfReader = Ok (o, r') /\ wf r' /\
    ((Z.to_nat 3 <= length (content crlfReader) /\
      o = Some (take (Z.to_nat 3) (content crlfReader)) /\
      content r' = drop (Z.to_nat 3) (content crlfReader))
     \/ (length (content crlfReader) < Z.to_nat 3 /\ o = None /\
         content r' = content crlfReader)).
Proof.
  apply (readBytes_exact_or_nothing crlfReader 3).
  - split; [vm_compute; lia|done].
  - lia.
Defined.

(** [consumeStreamEol_one_terminator] on a reader that has delivered the
    first two bytes of [crlfInput], so that a carriage return and a line
    feed are next. *)
Lemma consumeStreamEol_one_terminator_witness :
  exists r', PdfTokenizerReader.consumeStreamEol
               (PdfTokenizerReader.new (mkTokenizer crlfInput 2) (Some 4) false) = Ok r' /\
             wf r' /\ content r' = bytes_of "cd".
Proof.
  destruct (consumeStreamEol_one_terminator
              (PdfTokenizerReader.new (mkTokenizer crlfInput 2) (Some 4) false))
    as (r' & Hc & Hwf & Hcrlf & _).
  - split; [vm_compute; lia|done].
  - exists r'. split; [done|]. split; [done|]. by apply Hcrlf.
Defined.

(** [fill_keeps_content] when two bytes are asked for. *)
Lemma fill_keeps_content_witness :
  exists r', PdfTokenizerReader.fill 2 crlfReader = Ok r' /\ wf r' /\
    content r' = content crlfReader /\
    (2 <= PdfTokenizerReader.avail r' \/ buffered r' = content r').
Proof.
  apply (fill_keeps_content 2 crlfReader).
  split; [vm_compute; lia|done].
Defined.

(** [readLines_roundtrip] for two lines read one byte at a time. *)
Lemma readLines_roundtrip_witness :
  readLines 3
    (PdfTokenizerReader.new
       (mkTokenizer (encode_lines [bytes_of "1 0 obj"; bytes_of "endobj"]) 0)
       (S <$> Some 0) false)
  = Ok ((Some ∘ latin1 <$> [bytes_of "1 0 obj"; bytes_of "endobj"]) ++ [None]).
Proof.
  apply (readLines_roundtrip [bytes_of "1 0 obj"; bytes_of "endobj"] (Some 0) false).
  repeat constructor; try decide_closed; by vm_compute.
Defined.

(** [getPosition_counts_delivered] after one line has been read from a
    byte source that stood at offset two. *)
Lemma getPosition_counts_delivered_witness :
  exists r,
    calls [CallReadLine] (PdfTokenizerReader.new offsetTokenizer (S <$> Some 2) false)
    = Ok r /\
    exists delivered,
      remaining offsetTokenizer = delivered ++ content r /\
      PdfTokenizerReader.getPosition r
      = (Z.of_nat (position offsetTokenizer) + Z.of_nat (length delivered))%Z.
Proof.
  destruct (calls [CallReadLine]
              (PdfTokenizerReader.new offsetTokenizer (S <$> Some 2) false))
    as [r|e] eqn:Hc; [|by vm_compute in Hc].
  exists r. split; [done|].
  by apply (getPosition_counts_delivered offsetTokenizer (Some 2) false [CallReadLine] r).
Defined.

(** [parseDictFromRaw_last_entry] for a [Length] written after a
    [Type]. *)
Lemma parseDictFromRaw_last_entry_witness :
  parseDictFromRaw (str "/Type /Page " ++ 47%N :: str "Length" ++ 32%N :: str "42")
  = <[str "Length" := Str (trim (str "42"))]> (parseDictFromRaw (str "/Type /Page ")).
Proof.
  apply (parseDictFromRaw_last_entry (str "/Type /Page ") (str "Length") (str "42"));
    try decide_closed; by vm_compute.
Defined.

(** [parseDictFromRaw_name_value] for [/Filter /FlateDecode]. *)
Lemma parseDictFromRaw_name_value_witness :
  (parseDictFromRaw
     (str "/Length 5 " ++ 47%N :: str "Filter" ++ str " " ++ 47%N :: str "FlateDecode")
     !! str "Filter" = Some Flag \/
   parseDictFromRaw
     (str "/Length 5 " ++ 47%N :: str "Filter" ++ str " " ++ 47%N :: str "FlateDecode")
     !! str "Filter" = Some (Str [])) /\
  normalizeFilters
    (parseDictFromRaw
       (str "/Length 5 " ++ 47%N :: str "Filter" ++ str " " ++ 47%N :: str "FlateDecode")
       !! str "Filter") = [].
Proof.
  apply (parseDictFromRaw_name_value (str "/Length 5 ") (str "Filter") (str " ")
           (str "FlateDecode")); try decide_closed; by vm_compute.
Defined.

(** [readDictionaryBlock_one_line] for a dictionary with its stream
    keyword on the same line. *)
Lemma readDictionaryBlock_one_line_witness :
  readDictionaryBlock (bytes_of "payload")
    (str "" ++ str "<<" ++ str " /Length 7 " ++ str ">>" ++ str " stream")
  = Ok (mkBlock (Some (trim (str " /Length 7 ")))
          (bool_decide (trim (str " stream") = str "stream")
           || startsWith (trim (str " stream")) (str "stream ")),
        bytes_of "payload").
Proof.
  apply (readDictionaryBlock_one_line (bytes_of "payload") (str "") (str " /Length 7 ")
           (str " stream")); decide_closed.
Defined.

(** [readDictionaryBlock_dictText_closed] for a dictionary that holds
    another one: the text stops at the end of the inner one. *)
Lemma readDictionaryBlock_dictText_closed_witness :
  ~ contains (str "/A << /B 1") (str ">>").
Proof.
  apply (readDictionaryBlock_dictText_closed (bytes_of "") (bytes_of "")
           (str "<< /A << /B 1 >> /C 2 >>") (mkBlock (Some (str "/A << /B 1")) false)).
  by vm_compute.
Defined.

(** [XmlHandler_calls_back_only_after_tag] for a title that names
    Illustrator. *)
Lemma XmlHandler_calls_back_only_after_tag_witness :
  snd (XmlHandler.run (fun _ => Some (ThrownHit AI_TYPE)) false titleEvents) = [] /\
  forall hit,
    fst (XmlHandler.run (fun _ => Some (ThrownHit AI_TYPE)) false titleEvents)
    <> Some (ThrownHit hit).
Proof.
  apply (XmlHandler_calls_back_only_after_tag (fun _ => Some (ThrownHit AI_TYPE))
           titleEvents).
  repeat constructor; by vm_compute.
Defined.

(** [detect_result_range] for a file that is classified as Illustrator. *)
Lemma detect_result_range_witness :
  (Some AI_TYPE = None /\
   ~ contains (take 1024 (remaining (mkTokenizer illustratorPdf 0))) (bytes_of "%PDF-"))
  \/ (Some AI_TYPE = Some PDF_TYPE /\
      contains (take 1024 (remaining (mkTokenizer illustratorPdf 0))) (bytes_of "%PDF-") /\
      Forall (fun cp => ~ illustrator_marker cp)
        (run_trace (_detectPdf_run rejectAll asciiDecode noEvents
                      (mkTokenizer illustratorPdf 0) noOptions)))
  \/ (Some AI_TYPE = Some AI_TYPE /\
      contains (take 1024 (remaining (mkTokenizer illustratorPdf 0))) (bytes_of "%PDF-") /\
      exists tr cp,
        run_trace (_detectPdf_run rejectAll asciiDecode noEvents
                     (mkTokenizer illustratorPdf 0) noOptions) = tr ++ [cp] /\
        illustrator_marker cp).
Proof.
  apply (detect_result_range rejectAll asciiDecode noEvents
           (mkTokenizer illustratorPdf 0) noOptions (Some AI_TYPE)).
  by vm_compute.
Defined.

(** [detect_failure_kinds] for a file with a stream that does not
    inflate. *)
Lemma detect_failure_kinds_witness :
  (DecompressionFailed = DecompressionFailed /\
   exists tr objectInfo rawBytes,
     run_trace (_detectPdf_run rejectAll asciiDecode noEvents
                  (mkTokenizer brokenFlatePdf 0) noOptions)
       = tr ++ [AtDecode objectInfo rawBytes] /\
     decodeStreamBytes rejectAll objectInfo rawBytes = Err DecompressionFailed)
  \/ (exists message tr streamText objectInfo texts,
        DecompressionFailed = SaxError message /\
        run_trace (_detectPdf_run rejectAll asciiDecode noEvents
                     (mkTokenizer brokenFlatePdf 0) noOptions)
          = tr ++ AtStreamText streamText objectInfo :: (AtCreatorTool <$> texts) /\
        looksLikeXmp objectInfo = true /\
        OnError message ∈ noEvents streamText /\
        startsWith message (str "Invalid character entity") = false).
Proof.
  apply (detect_failure_kinds rejectAll asciiDecode noEvents
           (mkTokenizer brokenFlatePdf 0) noOptions DecompressionFailed).
  by vm_compute.
Defined.

(** [detect_budget_monotone] for an Illustrator file found within three
    lines. *)
Lemma detect_budget_monotone_witness :
  (_detectPdf rejectAll asciiDecode noEvents
     (mkTokenizer illustratorPdf 0) (mkOptions (Some true) (Some 50%Z))).1
  = (_detectPdf rejectAll asciiDecode noEvents
       (mkTokenizer illustratorPdf 0) (mkOptions None (Some 3%Z))).1.
Proof.
  apply (detect_budget_monotone rejectAll asciiDecode noEvents
           (mkTokenizer illustratorPdf 0) None (Some true) 3 50).
  - lia.
  - by vm_compute.
Defined.

(** [detect_zero_budget] for an Illustrator file: with no line to scan it
    is a generic PDF. *)
Lemma detect_zero_budget_witness :
  run_result (_detectPdf_run rejectAll asciiDecode noEvents
                (mkTokenizer illustratorPdf 0) (mkOptions None (Some 0%Z)))
    = Ok (Some PDF_TYPE) /\
  run_trace (_detectPdf_run rejectAll asciiDecode noEvents
               (mkTokenizer illustratorPdf 0) (mkOptions None (Some 0%Z))) = [] /\
  remaining (run_tokenizer (_detectPdf_run rejectAll asciiDecode noEvents
                              (mkTokenizer illustratorPdf 0) (mkOptions None (Some 0%Z))))
  = drop (Z.to_nat (headerOffset (peekPdfHeader (mkTokenizer illustratorPdf 0))))
      (remaining (mkTokenizer illustratorPdf 0)).
Proof.
  apply (detect_zero_budget rejectAll asciiDecode noEvents
           (mkTokenizer illustratorPdf 0) None 0).
  - lia.
  - exists [], (drop 5 illustratorPdf). reflexivity.
Defined.

(** [detect_ignores_preamble] for two bytes before the signature. *)
Lemma detect_ignores_preamble_witness :
  (_detectPdf rejectAll asciiDecode noEvents
     (mkTokenizer (bytes_of "xx%PDF-1.1") 0) noOptions).1
  = (_detectPdf rejectAll asciiDecode noEvents
       (mkTokenizer (drop 2 (remaining (mkTokenizer (bytes_of "xx%PDF-1.1") 0))) 0)
       noOptions).1.
Proof.
  apply (detect_ignores_preamble rejectAll asciiDecode noEvents
           (mkTokenizer (bytes_of "xx%PDF-1.1") 0) noOptions 2).
  split.
  - by exists (bytes_of "1.1").
  - intros j Hj [rest Hrest]. destruct j as [|[|j]]; [done|done|lia].
Defined.

(** [detect_skips_object_start_line] for a file that names Illustrator as
    its creator on the line that starts the object. *)
Lemma detect_skips_object_start_line_witness :
  (_detectPdf rejectAll asciiDecode noEvents (mkTokenizer sameLinePdf 0) noOptions).1
    = Ok (Some PDF_TYPE) /\
  run_trace (_detectPdf_run rejectAll asciiDecode noEvents
               (mkTokenizer sameLinePdf 0) noOptions) = [].
Proof.
  apply (detect_skips_object_start_line rejectAll asciiDecode noEvents
           (mkTokenizer sameLinePdf 0) noOptions (drop 5 sameLinePdf)).
  - reflexivity.
  - change (spec_lines (remaining (mkTokenizer sameLinePdf 0)))
      with (bytes_of <$>
        ["%PDF-1.4"; "1 0 obj << /Creator (Adobe Illustrator) >>"; "endobj"]%string).
    apply flat_other; [reflexivity|].
    apply flat_object; [by eexists|reflexivity|apply flat_end].
Defined.

(** [scan_stream_takes_length_bytes] for a payload of three bytes that
    ends in a carriage return: the payload is the three bytes, and the scan
    goes on at the line feed after them. *)
Lemma scan_stream_takes_length_bytes_witness :
  (exists tr,
     trace (step_state (scan_stream rejectAll asciiDecode noEvents (mkContext false)
                          (mkScan crlfReader None OBJ 0 [])
                          {[ str "Length" := Str (str "3") ]}))
     = [] ++ AtDecode {[ str "Length" := Str (str "3") ]} (bytes_of "ab" ++ [CR]) :: tr) /\
  wf (reader (step_state (scan_stream rejectAll asciiDecode noEvents (mkContext false)
                            (mkScan crlfReader None OBJ 0 [])
                            {[ str "Length" := Str (str "3") ]}))) /\
  content (reader (step_state (scan_stream rejectAll asciiDecode noEvents (mkContext false)
                                 (mkScan crlfReader None OBJ 0 [])
                                 {[ str "Length" := Str (str "3") ]})))
  = LF :: bytes_of "cd".
Proof.
  apply (scan_stream_takes_length_bytes rejectAll asciiDecode noEvents (mkContext false)
           (mkScan crlfReader None OBJ 0 []) {[ str "Length" := Str (str "3") ]}
           (str "3") 3).
  - split; [vm_compute; lia|done].
  - by vm_compute.
  - done.
  - by vm_compute.
Defined.

(** [detect_illustrator_in_first_dictionary] for a file of a signature
    line, the line [1 0 obj] and a dictionary line that names Adobe
    Illustrator as its creator. *)
Lemma detect_illustrator_in_first_dictionary_witness :
  (_detectPdf rejectAll asciiDecode noEvents (mkTokenizer dictLinePdf 0) noOptions).1
    = Ok (Some AI_TYPE).
Proof.
  apply (detect_illustrator_in_first_dictionary rejectAll asciiDecode noEvents
           (mkTokenizer dictLinePdf 0) noOptions (bytes_of "1.4") (bytes_of "1 0 obj")
           (bytes_of "<< /Creator (Adobe Illustrator) >>") []
           (str " /Creator (Adobe Illustrator) ") [] (bytes_of "endobj")).
  - reflexivity.
  - decide_closed.
  - by eexists.
  - reflexivity.
  - decide_closed.
  - decide_closed.
  - right; right; left. by exists (str "/Creator ("), (str ")").
  - vm_compute. discriminate.
Defined.
